(** * Mini_Game: the stage, its actors and their movement protocol (ww.py)

    A shallow embedding of [ww.py].  Python objects are records in a store
    indexed by reference; the stage holds the list of references
    [_actors], exactly as the source does, so that identity, aliasing and
    list order are those of the program.  Methods are computations in a
    state-and-exception monad over the world. *)

From Stdlib Require Import ZArith List Bool Lia Arith FunctionalExtensionality.
Import ListNotations.
Local Open Scope Z_scope.

(** ** Objects *)

(** A reference to an object (Python object identity). *)
Definition ref := nat.
Bind Scope nat_scope with ref.

(** The classes of ww.py.  [Player], [Box] and [Wall] derive from [Actor],
    [KeyboardPlayer] from [Player], [sticky] from [Box], [Monster] from
    [Actor]. *)
Inductive Class : Set :=
| Actor | Player | KeyboardPlayer | Box | Wall | Monster | sticky.

Definition Class_eqb (c d : Class) : bool :=
  match c, d with
  | Actor, Actor | Player, Player | KeyboardPlayer, KeyboardPlayer
  | Box, Box | Wall, Wall | Monster, Monster | sticky, sticky => true
  | _, _ => false
  end.

(** [isinstance(o, C)] for an object of class [c]. *)
Definition subclass (c C : Class) : bool :=
  match C with
  | Actor => true
  | Player => match c with Player | KeyboardPlayer => true | _ => false end
  | Box => match c with Box | sticky => true | _ => false end
  | _ => Class_eqb c C
  end.

(** The attributes an instance can carry.  [_icon] and [_stage] are left
    out: the icon is never read by the game logic, and there is one stage,
    the one of the world.  [_last_event] is set by
    [KeyboardPlayer.__init__], [_dx], [_dy] by [Monster.__init__];
    [inside_sticky] by [Monster.__init__] and by the assignment in
    [sticky.move]; [is_dead] is the instance attribute that the
    assignments [self.is_dead = True] and [actor.is_dead = True] create on a
    KeyboardPlayer ([None]: no such instance attribute, the name resolves
    on the class). *)
Record Obj : Set := mkObj {
  class_ : Class;
  _x : Z;
  _y : Z;
  _delay : Z;
  _delay_count : Z;
  _last_event : option Z;
  _dx : Z;
  _dy : Z;
  inside_sticky : bool;
  is_dead : option bool
}.

Definition with_position (o : Obj) (x y : Z) : Obj :=
  mkObj (class_ o) x y (_delay o) (_delay_count o) (_last_event o)
        (_dx o) (_dy o) (inside_sticky o) (is_dead o).
Definition with_delay_count (o : Obj) (c : Z) : Obj :=
  mkObj (class_ o) (_x o) (_y o) (_delay o) c (_last_event o)
        (_dx o) (_dy o) (inside_sticky o) (is_dead o).
Definition with_last_event (o : Obj) (e : option Z) : Obj :=
  mkObj (class_ o) (_x o) (_y o) (_delay o) (_delay_count o) e
        (_dx o) (_dy o) (inside_sticky o) (is_dead o).
Definition with_dx (o : Obj) (d : Z) : Obj :=
  mkObj (class_ o) (_x o) (_y o) (_delay o) (_delay_count o) (_last_event o)
        d (_dy o) (inside_sticky o) (is_dead o).
Definition with_dy (o : Obj) (d : Z) : Obj :=
  mkObj (class_ o) (_x o) (_y o) (_delay o) (_delay_count o) (_last_event o)
        (_dx o) d (inside_sticky o) (is_dead o).
Definition with_inside_sticky (o : Obj) (b : bool) : Obj :=
  mkObj (class_ o) (_x o) (_y o) (_delay o) (_delay_count o) (_last_event o)
        (_dx o) (_dy o) b (is_dead o).
Definition with_is_dead (o : Obj) (b : bool) : Obj :=
  mkObj (class_ o) (_x o) (_y o) (_delay o) (_delay_count o) (_last_event o)
        (_dx o) (_dy o) (inside_sticky o) (Some b).

(** The constructors, as the [__init__] methods leave a fresh object. *)
Definition new_Actor (c : Class) (x y delay : Z) : Obj :=
  mkObj c x y delay 0 None 0 0 false None.
Definition new_KeyboardPlayer (x y : Z) : Obj := new_Actor KeyboardPlayer x y 5.
Definition new_Box (x y : Z) : Obj := new_Actor Box x y 5.
Definition new_Wall (x y : Z) : Obj := new_Actor Wall x y 5.
Definition new_sticky (x y : Z) : Obj := new_Actor sticky x y 5.
Definition new_Monster (x y delay : Z) : Obj :=
  mkObj Monster x y delay 0 None 1 1 false None.

(** ** The stage and the world *)

Record Stage : Set := mkStage {
  _actors : list ref;
  _player : option ref;
  _width : Z;
  _height : Z
}.

(** What the name [is_dead] is bound to in the class [Actor]: the method
    of the source, or a value assigned over it at run time. *)
Inductive ClassAttr : Set :=
| Method
| Value (b : bool).

Record World : Type := mkWorld {
  objs : ref -> Obj;
  stage : Stage;
  Actor_is_dead : ClassAttr
}.

Definition update (h : ref -> Obj) (r : ref) (o : Obj) : ref -> Obj :=
  fun r' => if Nat.eqb r' r then o else h r'.

Definition set_obj (r : ref) (f : Obj -> Obj) (w : World) : World :=
  mkWorld (update (objs w) r (f (objs w r))) (stage w) (Actor_is_dead w).
Definition set_actors (l : list ref) (w : World) : World :=
  mkWorld (objs w)
          (mkStage l (_player (stage w)) (_width (stage w)) (_height (stage w)))
          (Actor_is_dead w).
Definition set_class_is_dead (v : ClassAttr) (w : World) : World :=
  mkWorld (objs w) (stage w) v.

(** ** Computations: state and exceptions *)

Inductive Exn : Set :=
| ValueError          (* list.remove(x): x not in list *)
| ZeroDivisionError   (* integer modulo by zero *)
| AttributeError      (* attribute assignment on None *)
| RecursionError      (* the call depth of [move] is exhausted *)
| LoopBudget.         (* the iteration budget of the model of [for] is
                         exhausted; [Stage_step_budget] shows it is not *)

Definition M (A : Type) : Type := World -> Exn + (A * World).

Definition ret {A} (a : A) : M A := fun w => inr (a, w).
Definition bind {A B} (c : M A) (k : A -> M B) : M B :=
  fun w => match c w with
           | inl e => inl e
           | inr (a, w') => k a w'
           end.
Definition raise {A} (e : Exn) : M A := fun _ => inl e.
Definition gets {A} (f : World -> A) : M A := fun w => inr (f w, w).
Definition modify (f : World -> World) : M unit := fun w => inr (tt, f w).

Notation "x <- c ;; k" := (bind c (fun x => k))
  (at level 61, c at next level, right associativity).
Notation "c ;; k" := (bind c (fun _ => k))
  (at level 61, right associativity).

(** A Python return value of [move] and [step]: [None], [True] or
    [False]. *)
Definition retval := option bool.
Definition True_ : retval := Some true.
Definition False_ : retval := Some false.

(** ** class Actor *)

Definition set_position (self : ref) (x y : Z) : M unit :=
  modify (set_obj self (fun o => with_position o x y)).

Definition get_position (self : ref) : M (Z * Z) :=
  gets (fun w => (_x (objs w self), _y (objs w self))).

Definition Actor_move (self other : ref) (dx dy : Z) : M retval :=
  o <- gets (fun w => objs w self) ;;
  set_position self (_x o + dx) (_y o + dy) ;;
  ret True_.

Definition delay (self : ref) : M bool :=
  o <- gets (fun w => objs w self) ;;
  if _delay o =? 0 then raise ZeroDivisionError
  else
    modify (set_obj self (fun o => with_delay_count o ((_delay_count o + 1) mod _delay o))) ;;
    o' <- gets (fun w => objs w self) ;;
    ret (_delay_count o' =? 0).

Definition Actor_step (self : ref) : M retval := ret None.

(** ** class Stage *)

Definition is_in_bounds_x (s : Stage) (x : Z) : bool :=
  (0 <=? x) && (x <? _width s).
Definition is_in_bounds_y (s : Stage) (y : Z) : bool :=
  (0 <=? y) && (y <? _height s).
Definition is_in_bounds (s : Stage) (x y : Z) : bool :=
  is_in_bounds_x s x && is_in_bounds_y s y.

Definition at_position (o : Obj) (x y : Z) : bool :=
  (_x o =? x) && (_y o =? y).

(** [for a in self._actors: if a.get_position() == (x,y): return a]. *)
Fixpoint first_at (h : ref -> Obj) (l : list ref) (x y : Z) : option ref :=
  match l with
  | [] => None
  | a :: l' => if at_position (h a) x y then Some a else first_at h l' x y
  end.

Definition get_actor (w : World) (x y : Z) : option ref :=
  first_at (objs w) (_actors (stage w)) x y.

Definition Stage_get_actor (x y : Z) : M (option ref) :=
  gets (fun w => get_actor w x y).

Definition add_actor (a : ref) : M unit :=
  modify (fun w => set_actors (_actors (stage w) ++ [a]) w).

(** [list.remove]: drop the first occurrence, [None] when there is none. *)
Fixpoint list_remove (a : ref) (l : list ref) : option (list ref) :=
  match l with
  | [] => None
  | b :: l' =>
      if Nat.eqb b a then Some l'
      else match list_remove a l' with
           | Some r => Some (b :: r)
           | None => None
           end
  end.

Definition remove_actor (a : ref) : M unit :=
  l <- gets (fun w => _actors (stage w)) ;;
  match list_remove a l with
  | Some l' => modify (set_actors l')
  | None => raise ValueError
  end.

Definition isinstance (w : World) (a : option ref) (C : Class) : bool :=
  match a with
  | Some r => subclass (class_ (objs w r)) C
  | None => false
  end.

Definition is_None {A} (a : option A) : bool :=
  match a with None => true | Some _ => false end.

(** ** class Box, class sticky *)

(** The method [move] of whatever object a reference denotes; the
    recursive knot is tied in [move] below. *)
Definition move_method : Type := ref -> ref -> Z -> Z -> M retval.

(** [target.move(self, dx, dy)] where [target] is the result of a
    [get_actor] call. *)
Definition call_move (call : move_method) (target : option ref)
    (self : ref) (dx dy : Z) : M retval :=
  match target with
  | Some r => call r self dx dy
  | None => raise AttributeError
  end.

Definition Box_move (call : move_method) (self other : ref) (dx dy : Z)
  : M retval :=
  o <- gets (fun w => objs w self) ;;
  let new_x := _x o + dx in
  let new_y := _y o + dy in
  c1 <- gets (fun w => is_in_bounds (stage w) new_x new_y
                       && is_None (get_actor w new_x new_y)) ;;
  if c1 then
    Actor_move self other dx dy ;;
    ret True_
  else
    (* [self._stage] is a Stage object, hence true *)
    c2 <- gets (fun w => negb (is_None (get_actor w new_x new_y))
                         && isinstance w (get_actor w new_x new_y) Box) ;;
    if c2 then
      a <- Stage_get_actor new_x new_y ;;
      call_move call a self dx dy ;;
      Stage_get_actor new_x new_y ;;
      a' <- Stage_get_actor new_x new_y ;;
      if is_None a' then
        Actor_move self other dx dy ;;
        ret True_
      else ret False_
    else ret False_.

Definition sticky_move (call : move_method) (self other : ref) (dx dy : Z)
  : M retval :=
  o <- gets (fun w => objs w self) ;;
  let new_x := _x o + dx in
  let new_y := _y o + dy in
  c <- gets (fun w => isinstance w (get_actor w new_x new_y) Monster) ;;
  if c then
    Actor_move self other dx dy ;;
    a <- Stage_get_actor new_x new_y ;;
    match a with
    | Some r => modify (set_obj r (fun o => with_inside_sticky o true))
    | None => raise AttributeError
    end ;;
    ret None
  else
    Box_move call self other dx dy ;;
    ret None.

(** ** class Monster *)

Definition truthy {A} (a : option A) : bool := negb (is_None a).

Definition Monster_is_dead (self : ref) : M bool :=
  let dead := false in
  position <- get_position self ;;
  let x_val := fst position in
  let y_val := snd position in
  cord1 <- Stage_get_actor (x_val + 1) y_val ;;
  cord2 <- Stage_get_actor (x_val - 1) y_val ;;
  cord3 <- Stage_get_actor x_val (y_val + 1) ;;
  cord4 <- Stage_get_actor x_val (y_val - 1) ;;
  cord5 <- Stage_get_actor (x_val + 1) (y_val + 1) ;;
  cord6 <- Stage_get_actor (x_val - 1) (y_val - 1) ;;
  cord7 <- Stage_get_actor (x_val + 1) (y_val - 1) ;;
  cord8 <- Stage_get_actor (x_val - 1) (y_val + 1) ;;
  if truthy cord1 && truthy cord2 && truthy cord3 && truthy cord4
     && truthy cord5 && truthy cord6 && truthy cord7 && truthy cord8
  then
    let dead := true in
    modify (set_class_is_dead (Value true)) ;;
    ret dead
  else ret dead.

Definition Monster_move (self other : ref) (dx dy : Z) : M retval :=
  if negb (Nat.eqb other self) then ret False_
  else
    let bounce_off_edge := false in
    o <- gets (fun w => objs w self) ;;
    let new_x := _x o + _dx o in
    let new_y := _y o + _dy o in
    dead <- Monster_is_dead self ;;
    if inside_sticky o then
      if bounce_off_edge then ret False_ else ret None
    else
      actor <- Stage_get_actor new_x new_y ;;
      kp <- gets (fun w => isinstance w actor KeyboardPlayer) ;;
      match actor with
      | Some r =>
          if kp then
            remove_actor r ;;
            modify (set_obj r (fun o => with_is_dead o true))
          else ret tt
      | None => ret tt
      end ;;
      st <- gets stage ;;
      bounce_off_edge <-
        (if negb (is_in_bounds_x st new_x) || negb (is_None actor) then
           modify (set_obj self (fun o => with_dx o (- _dx o))) ;;
           ret true
         else ret bounce_off_edge) ;;
      if negb (is_in_bounds_y st new_y) || negb (is_None actor) then
        modify (set_obj self (fun o => with_dy o (- _dy o))) ;;
        let bounce_off_edge := true in
        if bounce_off_edge then ret False_ else ret None
      else
        Actor_move self other dx dy.

Definition Monster_step (self : ref) : M retval :=
  dead <- Monster_is_dead self ;;
  (if dead then remove_actor self else ret tt) ;;
  d <- delay self ;;
  o <- gets (fun w => objs w self) ;;
  if negb d && negb (inside_sticky o) then ret None
  else
    Monster_move self self (_dx o) (_dy o) ;;
    ret True_.

(** ** class KeyboardPlayer *)

(** The key codes of pygame that [KeyboardPlayer.step] compares with: the
    character codes of the letters. *)
Module pygame.
Definition K_s : Z := 115.
Definition K_w : Z := 119.
Definition K_d : Z := 100.
Definition K_a : Z := 97.
Definition K_q : Z := 113.
Definition K_e : Z := 101.
Definition K_c : Z := 99.
Definition K_z : Z := 122.
End pygame.

(** The chain of [if]s of [KeyboardPlayer.step] that sets [dx, dy]. *)
Definition key_direction (event : Z) : option (Z * Z) :=
  let d := None in
  let d := if event =? pygame.K_s then Some (0, 1) else d in
  let d := if event =? pygame.K_w then Some (0, -1) else d in
  let d := if event =? pygame.K_d then Some (1, 0) else d in
  let d := if event =? pygame.K_a then Some (-1, 0) else d in
  let d := if event =? pygame.K_q then Some (-1, -1) else d in
  let d := if event =? pygame.K_e then Some (1, -1) else d in
  let d := if event =? pygame.K_c then Some (1, 1) else d in
  let d := if event =? pygame.K_z then Some (-1, 1) else d in
  d.

Definition Player_handle_event (self : ref) (event : Z) : M unit := ret tt.

Definition KeyboardPlayer_handle_event (self : ref) (event : Z) : M unit :=
  modify (set_obj self (fun o => with_last_event o (Some event))).

Definition KeyboardPlayer_move (call : move_method) (self other : ref)
    (dx dy : Z) : M retval :=
  o <- gets (fun w => objs w self) ;;
  let new_x := _x o + dx in
  let new_y := _y o + dy in
  c1 <- gets (fun w => is_in_bounds (stage w) new_x new_y
                       && is_None (get_actor w new_x new_y)) ;;
  if c1 then
    Actor_move self other dx dy ;;
    ret True_
  else
    c2 <- gets (fun w => negb (is_None (get_actor w new_x new_y))
                         && isinstance w (get_actor w new_x new_y) Monster) ;;
    if c2 then
      modify (set_obj self (fun o => with_is_dead o true)) ;;
      remove_actor self ;;
      ret True_
    else
      c3 <- gets (fun w => negb (is_None (get_actor w new_x new_y))
                           && isinstance w (get_actor w new_x new_y) Box) ;;
      if c3 then
        a <- Stage_get_actor new_x new_y ;;
        call_move call a self dx dy ;;
        Stage_get_actor new_x new_y ;;
        a' <- Stage_get_actor new_x new_y ;;
        if is_None a' then
          Actor_move self other dx dy ;;
          ret True_
        else ret False_
      else ret False_.

Definition KeyboardPlayer_step (call : move_method) (self : ref) : M retval :=
  o <- gets (fun w => objs w self) ;;
  match _last_event o with
  | Some event =>
      match key_direction event with
      | Some (dx, dy) =>
          KeyboardPlayer_move call self self dx dy ;; ret tt
      | None => ret tt
      end ;;
      modify (set_obj self (fun o => with_last_event o None)) ;;
      ret None
  | None => ret None
  end.

(** ** Method resolution *)

(** [r.move(other, dx, dy)]: the method of the class of [r].  [depth]
    bounds how deep the calls of [move] nest: a call that would nest
    deeper raises [RecursionError].  It counts the calls of [move] alone.
    The interpreter's recursion limit counts every frame, those of
    [Stage.step], [step], [get_actor] and [get_position] among them, and
    is reached at a smaller nesting of [move] than its own value: [depth]
    stands for no particular limit, and serves to show that a call
    returns when given depth enough, or at no depth at all. *)
Fixpoint move (depth : nat) (self other : ref) (dx dy : Z) : M retval :=
  fun w =>
    match depth with
    | O => inl RecursionError
    | S d =>
        match class_ (objs w self) with
        | KeyboardPlayer => KeyboardPlayer_move (move d) self other dx dy w
        | Box => Box_move (move d) self other dx dy w
        | sticky => sticky_move (move d) self other dx dy w
        | Monster => Monster_move self other dx dy w
        | Actor | Player | Wall => Actor_move self other dx dy w
        end
    end.

(** [r.step()]. *)
Definition step (depth : nat) (self : ref) : M retval :=
  fun w =>
    match class_ (objs w self) with
    | KeyboardPlayer => KeyboardPlayer_step (move depth) self w
    | Monster => Monster_step self w
    | _ => Actor_step self w
    end.

(** ** Stage.step, Stage.player_event, Stage.set_player *)

(** [for a in self._actors: a.step()].  The list iterator keeps an index
    into the list object itself: each round reads [self._actors[i]] from
    the current list and stops when [i] is past its end.  The result is
    the sequence of actors whose [step] was invoked (the source returns
    [None]). *)
Fixpoint Stage_step_loop (depth budget : nat) (i : nat) : M (list ref) :=
  match budget with
  | O => raise LoopBudget
  | S budget' =>
      l <- gets (fun w => _actors (stage w)) ;;
      match nth_error l i with
      | None => ret []
      | Some a =>
          step depth a ;;
          rest <- Stage_step_loop depth budget' (S i) ;;
          ret (a :: rest)
      end
  end.

Definition Stage_step_trace (depth : nat) : M (list ref) :=
  l <- gets (fun w => _actors (stage w)) ;;
  Stage_step_loop depth (S (length l)) 0.

Definition Stage_step (depth : nat) : M unit :=
  Stage_step_trace depth ;; ret tt.

Definition set_player (player : ref) : M unit :=
  modify (fun w => mkWorld (objs w)
                     (mkStage (_actors (stage w)) (Some player)
                              (_width (stage w)) (_height (stage w)))
                     (Actor_is_dead w)) ;;
  add_actor player.

(** [r.handle_event(event)]: only the classes below [Player] have the
    method. *)
Definition handle_event (self : ref) (event : Z) : M unit :=
  fun w =>
    match class_ (objs w self) with
    | KeyboardPlayer => KeyboardPlayer_handle_event self event w
    | Player => Player_handle_event self event w
    | _ => inl AttributeError
    end.

Definition player_event (event : Z) : M unit :=
  p <- gets (fun w => _player (stage w)) ;;
  match p with
  | Some r => handle_event r event
  | None => raise AttributeError
  end.

(** ** Building worlds *)

(** The world after constructing the objects [os] (references [0], [1],
    ... in this order) and adding each to a stage of the given size with
    [add_actor]; [player] is what [set_player] recorded. *)
Definition world_of (os : list Obj) (player : option ref) (width height : Z)
  : World :=
  mkWorld (fun r => nth r os (new_Actor Actor 0 0 5))
          (mkStage (seq 0 (length os)) player width height)
          Method.

Definition position (w : World) (r : ref) : Z * Z :=
  (_x (objs w r), _y (objs w r)).

Definition heading (w : World) (r : ref) : Z * Z :=
  (_dx (objs w r), _dy (objs w r)).

(** ** The main loop of wwgame.py *)

(** One round of the loop: the key events of the round go to the player
    with [player_event], then [ww.step()] ([pygame.time.wait], the quit
    event and [ww.draw()] do not touch the game state). *)
Fixpoint deliver (events : list Z) : M unit :=
  match events with
  | [] => ret tt
  | e :: es => player_event e ;; deliver es
  end.

Definition tick (depth : nat) (events : list Z) : M unit :=
  deliver events ;;
  Stage_step depth.

Fixpoint play (depth : nat) (rounds : list (list Z)) : M unit :=
  match rounds with
  | [] => ret tt
  | events :: rest => tick depth events ;; play depth rest
  end.

(** ** How the world can change *)

(** What one assignment to an object may do: it keeps the class and the
    delay factor, never clears [inside_sticky], and does not relocate a
    Monster whose [inside_sticky] is set. *)
Definition good_update (o o' : Obj) : Prop :=
  class_ o' = class_ o
  /\ _delay o' = _delay o
  /\ (inside_sticky o = true -> inside_sticky o' = true)
  /\ (class_ o = Monster -> inside_sticky o = true ->
      _x o' = _x o /\ _y o' = _y o).

(** [evolves w w']: the stage keeps its size and its player, its list of
    actors only loses elements, and every object changes by good
    updates. *)
Definition evolves (w w' : World) : Prop :=
  _width (stage w') = _width (stage w)
  /\ _height (stage w') = _height (stage w)
  /\ _player (stage w') = _player (stage w)
  /\ incl (_actors (stage w')) (_actors (stage w))
  /\ (length (_actors (stage w')) <= length (_actors (stage w)))%nat
  /\ forall r, good_update (objs w r) (objs w' r).

(** A computation whose normal outcomes are related to the initial
    world by [R]. *)
Definition preserves {A} (R : World -> World -> Prop) (c : M A) : Prop :=
  forall w a w', c w = inr (a, w') -> R w w'.

(** What the attribute lookup [r.is_dead] yields: an instance attribute
    first, then the class of [r] ([Monster] defines its own method), then
    the base class [Actor]. *)
Inductive Attr : Set :=
| BoundMethod (C : Class)
| Val (b : bool).

Definition getattr_is_dead (w : World) (r : ref) : Attr :=
  match is_dead (objs w r) with
  | Some b => Val b
  | None =>
      match class_ (objs w r) with
      | Monster => BoundMethod Monster
      | _ => match Actor_is_dead w with
             | Method => BoundMethod Actor
             | Value b => Val b
             end
      end
  end.

(** The condition tested by [Monster.is_dead]: [get_actor] finds an actor
    in each of the eight cells around [(x, y)]. *)
Definition surrounded (w : World) (x y : Z) : bool :=
  truthy (get_actor w (x + 1) y) && truthy (get_actor w (x - 1) y)
  && truthy (get_actor w x (y + 1)) && truthy (get_actor w x (y - 1))
  && truthy (get_actor w (x + 1) (y + 1)) && truthy (get_actor w (x - 1) (y - 1))
  && truthy (get_actor w (x + 1) (y - 1)) && truthy (get_actor w (x - 1) (y + 1)).

(** What the game loop needs to run without an exception: no Monster
    has a delay factor of 0, the player of the stage can take events, and
    [depth], the bound on the nesting of [move], exceeds the number of
    actors, which is more than any push needs. *)
Definition runnable (depth : nat) (w : World) : Prop :=
  (forall r, class_ (objs w r) = Monster -> _delay (objs w r) <> 0)
  /\ (exists p, _player (stage w) = Some p
                /\ subclass (class_ (objs w p)) Player = true)
  /\ (length (_actors (stage w)) < depth)%nat.

(** ** The depth of a push *)

(** An object lies ahead of the cell [(x, y)] in the direction
    [(dx, dy)]. *)
Definition ahead (o : Obj) (x y dx dy : Z) : bool :=
  0 <? (_x o - x) * dx + (_y o - y) * dy.

(** The number of actors on the stage ahead of the actor [r]: a bound on
    how deep a push that starts at [r] can nest. *)
Definition ahead_count (w : World) (r : ref) (dx dy : Z) : nat :=
  length (filter (fun a => ahead (objs w a) (_x (objs w r)) (_y (objs w r)) dx dy)
                 (_actors (stage w))).

(** [call] ends normally on the occupant of the cell that [self] is
    pushed to, when that occupant is a Box. *)
Definition call_ends (call : move_method) (w : World) (self : ref)
    (dx dy : Z) : Prop :=
  forall t,
    get_actor w (_x (objs w self) + dx) (_y (objs w self) + dy) = Some t ->
    subclass (class_ (objs w t)) Box = true ->
    exists r w1, call t self dx dy w = inr (r, w1).

(** ** Chains of boxes *)

(** [b] is on the stage and is the only actor of the stage in the cell
    [(x, y)]. *)
Definition sole_occupant (w : World) (b : ref) (x y : Z) : Prop :=
  In b (_actors (stage w))
  /\ forall a, In a (_actors (stage w)) ->
               (_x (objs w a) = x /\ _y (objs w a) = y) <-> a = b.

(** The same as a test. *)
Definition sole_occupantb (w : World) (b : ref) (x y : Z) : bool :=
  existsb (Nat.eqb b) (_actors (stage w))
  && forallb (fun a => Bool.eqb (at_position (objs w a) x y) (Nat.eqb a b))
             (_actors (stage w)).

(** The boxes [bs], instances of the class [Box] itself, stand one after
    the other in the direction [(dx, dy)], the first in the cell
    [(x, y)], each alone in its cell. *)
Fixpoint chain (w : World) (x y dx dy : Z) (bs : list ref) : Prop :=
  match bs with
  | [] => True
  | b :: bs' =>
      class_ (objs w b) = Box
      /\ sole_occupant w b x y
      /\ chain w (x + dx) (y + dy) dx dy bs'
  end.

(** The test of the first branch of [Box.move]: the cell is on the stage
    and [get_actor] finds nobody there. *)
Definition free (w : World) (x y : Z) : bool :=
  is_in_bounds (stage w) x y && is_None (get_actor w x y).

Definition mem (a : ref) (l : list ref) : bool := existsb (Nat.eqb a) l.

(** The object [a] after each of the objects [bs] has moved by
    [(dx, dy)]. *)
Definition shifted (w : World) (bs : list ref) (dx dy : Z) (a : ref) : Obj :=
  if mem a bs
  then with_position (objs w a) (_x (objs w a) + dx) (_y (objs w a) + dy)
  else objs w a.

(** The world after [Actor.move]. *)
Definition moved (self : ref) (dx dy : Z) (w : World) : World :=
  set_obj self
    (fun o => with_position o (_x (objs w self) + dx) (_y (objs w self) + dy)) w.

(** ** Sample worlds *)

(** A 3 x 3 stage with a Monster in the middle that a sticky box has been
    pushed onto. *)
Definition w_ensnared : World :=
  world_of [with_inside_sticky (new_Monster 1 1 5) true; new_sticky 1 1]
           None 3 3.

(** A 3 x 3 stage with a Monster in the middle and a Box in each of the
    eight cells around it. *)
Definition w_surrounded : World :=
  world_of [new_Monster 1 1 5;
            new_Box 0 0; new_Box 1 0; new_Box 2 0;
            new_Box 0 1; new_Box 2 1;
            new_Box 0 2; new_Box 1 2; new_Box 2 2]
           None 3 3.

(** A 3 x 3 stage with one Monster at its east edge, heading south-east
    as every new Monster does, acting on every tick. *)
Definition w_east_edge : World :=
  world_of [new_Monster 2 0 1] None 3 3.

(** A 5 x 5 stage: the player at (0,0) with the key [d] (east) buffered,
    a Monster in the cell east of the player, a second Monster further
    away; both Monsters act on every tick. *)
Definition w_player_first : World :=
  world_of [with_last_event (new_KeyboardPlayer 0 0) (Some pygame.K_d);
            new_Monster 1 0 1; new_Monster 3 3 1]
           (Some 0%nat) 5 5.

(** A 5 x 5 stage with a Monster at (2,0) and a sticky box west of it;
    the Monster was added to the stage first, as in wwgame.py. *)
Definition w_sticky_after : World :=
  world_of [new_Monster 2 0 5; new_sticky 1 0] None 5 5.

(** The same with the sticky box added to the stage first. *)
Definition w_sticky_before : World :=
  world_of [new_sticky 1 0; new_Monster 2 0 5] None 5 5.

(** The stage of [w_surrounded] with the player in the south-east
    corner instead of a Box, and a Monster that acts on every tick. *)
Definition w_dying : World :=
  world_of [new_KeyboardPlayer 2 2; new_Monster 1 1 1;
            new_Box 0 0; new_Box 1 0; new_Box 2 0;
            new_Box 0 1; new_Box 2 1;
            new_Box 0 2; new_Box 1 2]
           (Some 0%nat) 3 3.

(** A 5 x 5 stage, west to east in the top row: the player, a Box, a
    sticky box, a Monster. *)
Definition w_box_sticky_Monster : World :=
  world_of [new_KeyboardPlayer 0 0; new_Box 1 0; new_sticky 2 0;
            new_Monster 3 0 5]
           (Some 0%nat) 5 5.

(** Every actor on the stage is within its bounds. *)
Definition all_in_bounds (w : World) : bool :=
  forallb (fun a => is_in_bounds (stage w) (_x (objs w a)) (_y (objs w a)))
          (_actors (stage w)).

(** * Further definitions *)

(** ** Stage.remove_player *)

(** [self.remove_actor(self._player); self._player = None].  Without a
    player, [self._player] is [None], which is not in the list. *)
Definition remove_player : M unit :=
  p <- gets (fun w => _player (stage w)) ;;
  match p with
  | Some r => remove_actor r
  | None => raise ValueError
  end ;;
  modify (fun w => mkWorld (objs w)
                     (mkStage (_actors (stage w)) None
                              (_width (stage w)) (_height (stage w)))
                     (Actor_is_dead w)).

(** ** Repeated calls *)

(** [n] calls of [self.delay()] in a row, with their results. *)
Fixpoint delays (n : nat) (self : ref) : M (list bool) :=
  match n with
  | O => ret []
  | S k =>
      b <- delay self ;;
      bs <- delays k self ;;
      ret (b :: bs)
  end.


(** ** More sample worlds *)

(** A 5 x 5 stage, west to east in the top row: the player with the key
    [d] (east) buffered, and two boxes. *)
Definition w_push : World :=
  world_of [with_last_event (new_KeyboardPlayer 0 0) (Some pygame.K_d);
            new_Box 1 0; new_Box 2 0]
           (Some 0%nat) 5 5.

(** A 3 x 3 stage: the player in the north-east corner with the key [d]
    (east) buffered. *)
Definition w_corner : World :=
  world_of [with_last_event (new_KeyboardPlayer 2 0) (Some pygame.K_d)]
           (Some 0%nat) 3 3.

(** A 3 x 3 stage with a Monster in the north-west corner, acting on
    every tick, and a Wall in the middle, where the Monster is
    heading. *)
Definition w_Monster_Wall : World :=
  world_of [new_Monster 0 0 1; new_Wall 1 1] None 3 3.

(** The same with the player in the middle. *)
Definition w_Monster_player : World :=
  world_of [new_Monster 0 0 1; new_KeyboardPlayer 1 1] (Some 1%nat) 3 3.

(** A 3 x 3 stage with a Monster at its south edge. *)
Definition w_south_edge : World :=
  world_of [new_Monster 0 2 1] None 3 3.

(** A 3 x 3 stage with a Monster whose delay factor is 0. *)
Definition w_delay_0 : World :=
  world_of [new_Monster 0 0 0] None 3 3.


(** ** What a round keeps *)

(** [sublist l' l]: [l'] is [l] with some elements taken out, the others
    in their order. *)
Inductive sublist : list ref -> list ref -> Prop :=
| sublist_nil : sublist [] []
| sublist_skip (a : ref) (l' l : list ref) :
    sublist l' l -> sublist l' (a :: l)
| sublist_keep (a : ref) (l' l : list ref) :
    sublist l' l -> sublist (a :: l') (a :: l).

(** Two different actors of the stage share a cell only when one of them
    is a sticky box. *)
Definition cells (w : World) : Prop :=
  forall a b,
    In a (_actors (stage w)) -> In b (_actors (stage w)) -> a <> b ->
    position w a = position w b ->
    class_ (objs w a) = sticky \/ class_ (objs w b) = sticky.

(** The same as a test. *)
Definition cellsb (w : World) : bool :=
  forallb (fun a =>
    forallb (fun b =>
      Nat.eqb a b
      || negb (at_position (objs w a) (_x (objs w b)) (_y (objs w b)))
      || Class_eqb (class_ (objs w a)) sticky
      || Class_eqb (class_ (objs w b)) sticky)
      (_actors (stage w)))
    (_actors (stage w)).

(** [keeps w w']: actors have only been taken off the stage, every
    heading has kept its size in x and in y, and no cell has come to be
    shared other than with a sticky box. *)
Definition keeps (w w' : World) : Prop :=
  sublist (_actors (stage w')) (_actors (stage w))
  /\ (forall a, Z.abs (_dx (objs w' a)) = Z.abs (_dx (objs w a))
                /\ Z.abs (_dy (objs w' a)) = Z.abs (_dy (objs w a)))
  /\ (cells w -> cells w').

(** The object [o] lies behind the object [t] for a move in the
    direction [(dx, dy)]. *)
Definition behind (o t : Obj) (dx dy : Z) : Prop :=
  (_x o - _x t) * dx + (_y o - _y t) * dy < 0.

(** * Properties *)

(** ** The store *)

Lemma update_same h r o : update h r o r = o.
Proof. unfold update. now rewrite Nat.eqb_refl. Qed.

Lemma update_other h r o r' : r' <> r -> update h r o r' = h r'.
Proof.
  intros H. unfold update.
  destruct (Nat.eqb_spec r' r); [contradiction | reflexivity].
Qed.

Ltac run :=
  unfold bind, ret, gets, modify, raise, Stage_get_actor, get_position; simpl.

(** Run the monadic plumbing only, leaving every other definition
    folded. *)
Ltac mrun :=
  cbv beta iota zeta
      delta [bind ret gets modify raise Stage_get_actor get_position
             call_move Actor_move set_position True_ False_].

(** ** Monster.is_dead *)

Lemma Monster_is_dead_eq (w : World) (self : ref) :
  Monster_is_dead self w =
  inr (surrounded w (_x (objs w self)) (_y (objs w self)),
       if surrounded w (_x (objs w self)) (_y (objs w self))
       then set_class_is_dead (Value true) w else w).
Proof.
  unfold Monster_is_dead, surrounded. run.
  destruct (truthy _ && _ && _ && _ && _ && _ && _ && _); reflexivity.
Qed.

(** ** Stage.remove_actor *)

Lemma list_remove_In (a : ref) (l : list ref) :
  In a l -> exists l', list_remove a l = Some l'.
Proof.
  induction l as [|b l IH]; simpl; [contradiction|].
  intros [->|H].
  - rewrite Nat.eqb_refl. eauto.
  - destruct (Nat.eqb b a); [eauto|].
    destruct (IH H) as [l' ->]. eauto.
Qed.

Lemma remove_actor_In (w : World) (a : ref) :
  In a (_actors (stage w)) ->
  exists l', list_remove a (_actors (stage w)) = Some l'
             /\ remove_actor a w = inr (tt, set_actors l' w).
Proof.
  intros Hin. destruct (list_remove_In _ _ Hin) as [l' E].
  exists l'. split; [exact E|]. unfold remove_actor. run. now rewrite E.
Qed.

Lemma Monster_is_dead_frame (w : World) (self : ref) :
  exists w',
    Monster_is_dead self w
    = inr (surrounded w (_x (objs w self)) (_y (objs w self)), w')
    /\ objs w' = objs w /\ stage w' = stage w.
Proof.
  rewrite Monster_is_dead_eq.
  destruct (surrounded _ _ _); eexists; repeat split.
Qed.

(** ** An ensnared Monster *)

Lemma Monster_move_ensnared (w : World) (self : ref) (dx dy : Z) :
  inside_sticky (objs w self) = true ->
  exists w',
    Monster_move self self dx dy w = inr (None, w')
    /\ objs w' = objs w /\ stage w' = stage w.
Proof.
  intros Hs. unfold Monster_move. rewrite Nat.eqb_refl. simpl.
  unfold bind at 1. unfold gets at 1. unfold bind at 1.
  destruct (Monster_is_dead_frame w self) as (w1 & -> & Ho & Hst).
  rewrite Hs. simpl. exists w1. repeat split; assumption.
Qed.

Lemma delay_eq (w : World) (self : ref) :
  _delay (objs w self) <> 0 ->
  let c := (_delay_count (objs w self) + 1) mod _delay (objs w self) in
  delay self w
  = inr (c =? 0, set_obj self (fun o => with_delay_count o c) w).
Proof.
  intros Hd c. unfold delay. run.
  destruct (Z.eqb_spec (_delay (objs w self)) 0) as [E|_]; [contradiction|].
  simpl. rewrite update_same. reflexivity.
Qed.

Lemma Monster_step_ensnared (w : World) (self : ref) :
  inside_sticky (objs w self) = true ->
  _delay (objs w self) <> 0 ->
  In self (_actors (stage w)) ->
  exists w',
    Monster_step self w = inr (True_, w')
    /\ objs w' = update (objs w) self
                   (with_delay_count (objs w self)
                      ((_delay_count (objs w self) + 1) mod _delay (objs w self))).
Proof.
  intros Hs Hd Hin. unfold Monster_step.
  unfold bind at 1.
  destruct (Monster_is_dead_frame w self) as (w1 & -> & Ho & Hst).
  assert (Hrm : exists w2, (if surrounded w (_x (objs w self)) (_y (objs w self))
                            then remove_actor self else ret tt) w1 = inr (tt, w2)
                           /\ objs w2 = objs w).
  { destruct (surrounded _ _ _).
    - rewrite <- Hst in Hin.
      destruct (remove_actor_In _ _ Hin) as (l' & _ & ->).
      eexists. split; [reflexivity|exact Ho].
    - eexists. split; [reflexivity|exact Ho]. }
  destruct Hrm as (w2 & Hrm & Ho2).
  unfold bind at 1. rewrite Hrm.
  unfold bind at 1. rewrite delay_eq by (rewrite Ho2; exact Hd).
  unfold bind at 1. unfold gets at 1.
  set (w3 := set_obj self _ w2).
  assert (Ho3 : objs w3 self
                = with_delay_count (objs w self)
                    ((_delay_count (objs w self) + 1) mod _delay (objs w self))).
  { subst w3. simpl. rewrite update_same, Ho2. reflexivity. }
  rewrite Ho3. cbn [inside_sticky with_delay_count]. rewrite Hs, andb_false_r.
  unfold bind at 1.
  destruct (Monster_move_ensnared w3 self
              (_dx (with_delay_count (objs w self)
                 ((_delay_count (objs w self) + 1) mod _delay (objs w self))))
              (_dy (with_delay_count (objs w self)
                 ((_delay_count (objs w self) + 1) mod _delay (objs w self)))))
    as (w4 & Hm & Ho4 & _).
  { rewrite Ho3. exact Hs. }
  rewrite Hm. exists w4. split; [reflexivity|].
  rewrite Ho4. subst w3. simpl. now rewrite Ho2.
Qed.

(** ** Inversion of computations *)

Lemma bind_inv {A B} (c : M A) (k : A -> M B) w b w' :
  bind c k w = inr (b, w') ->
  exists a w1, c w = inr (a, w1) /\ k a w1 = inr (b, w').
Proof.
  unfold bind. destruct (c w) as [e|[a w1]]; [discriminate|]. eauto.
Qed.

Lemma ret_inv {A} (a b : A) w w' : ret a w = inr (b, w') -> b = a /\ w' = w.
Proof. unfold ret. intros H. injection H as <- <-. auto. Qed.

Lemma gets_inv {A} (f : World -> A) w a w' :
  gets f w = inr (a, w') -> a = f w /\ w' = w.
Proof. unfold gets. intros H. injection H as <- <-. auto. Qed.

Lemma modify_inv (f : World -> World) w a w' :
  modify f w = inr (a, w') -> w' = f w.
Proof. unfold modify. intros H. injection H as <- <-. auto. Qed.

Lemma raise_inv {A} e w (a : A) w' : raise e w = inr (a, w') -> False.
Proof. discriminate. Qed.

(** Take a hypothesis [c w = inr (a, w')] apart along the binds of [c]. *)
Ltac minv :=
  repeat match goal with
  | H : bind _ _ _ = inr _ |- _ =>
      let a := fresh "a" in let w1 := fresh "w" in
      let H1 := fresh "H" in let H2 := fresh "H" in
      apply bind_inv in H; destruct H as (a & w1 & H1 & H2)
  | H : ret _ _ = inr _ |- _ => apply ret_inv in H; destruct H as [? ?]; subst
  | H : gets _ _ = inr _ |- _ => apply gets_inv in H; destruct H as [? ?]; subst
  | H : Stage_get_actor _ _ _ = inr _ |- _ =>
      apply gets_inv in H; destruct H as [? ?]; subst
  | H : modify _ _ = inr _ |- _ => apply modify_inv in H; subst
  | H : raise _ _ = inr _ |- _ => apply raise_inv in H; contradiction
  | H : inl _ = inr _ |- _ => discriminate H
  end.

(** ** The relation [evolves] *)

Lemma good_update_refl o : good_update o o.
Proof. unfold good_update. auto. Qed.

Lemma good_update_trans o1 o2 o3 :
  good_update o1 o2 -> good_update o2 o3 -> good_update o1 o3.
Proof.
  unfold good_update. intros (Hc & Hd & Hs & Hp) (Hc' & Hd' & Hs' & Hp').
  split; [congruence|]. split; [congruence|]. split; [auto|].
  intros Hm Hi. destruct (Hp Hm Hi) as [E1 E2].
  destruct Hp' as [E1' E2']; [congruence|auto|].
  split; congruence.
Qed.

Lemma evolves_refl w : evolves w w.
Proof.
  unfold evolves.
  split; [reflexivity|]. split; [reflexivity|]. split; [reflexivity|].
  split; [apply incl_refl|]. split; [lia|].
  intros r. apply good_update_refl.
Qed.

Lemma evolves_trans w1 w2 w3 : evolves w1 w2 -> evolves w2 w3 -> evolves w1 w3.
Proof.
  unfold evolves.
  intros (Hw & Hh & Hp & Hi & Hl & Ho) (Hw' & Hh' & Hp' & Hi' & Hl' & Ho').
  split; [congruence|]. split; [congruence|]. split; [congruence|].
  split; [eauto using incl_tran|]. split; [lia|].
  intros r. eauto using good_update_trans.
Qed.

Lemma evolves_set_obj w r f :
  good_update (objs w r) (f (objs w r)) -> evolves w (set_obj r f w).
Proof.
  intros H. unfold evolves. simpl.
  split; [reflexivity|]. split; [reflexivity|]. split; [reflexivity|].
  split; [apply incl_refl|]. split; [lia|].
  intros r'. unfold update. destruct (Nat.eqb_spec r' r) as [->|_].
  - exact H.
  - apply good_update_refl.
Qed.

Lemma list_remove_incl a l l' : list_remove a l = Some l' ->
  incl l' l /\ S (length l') = length l.
Proof.
  revert l'. induction l as [|b l IH]; simpl; intros l' H; [discriminate|].
  destruct (Nat.eqb b a).
  - injection H as <-. split; [apply incl_tl, incl_refl|reflexivity].
  - destruct (list_remove a l) as [r|]; [|discriminate].
    injection H as <-. destruct (IH r eq_refl) as [Hi Hl]. split.
    + intros x [->|Hx]; [now left|right; auto].
    + simpl. now rewrite Hl.
Qed.

Lemma evolves_remove_actor a : preserves evolves (remove_actor a).
Proof.
  intros w u w' H. unfold remove_actor in H. minv.
  destruct (list_remove a _) as [l'|] eqn:E; minv.
  destruct (list_remove_incl _ _ _ E) as [Hi Hl].
  unfold evolves. simpl.
  split; [reflexivity|]. split; [reflexivity|]. split; [reflexivity|].
  split; [exact Hi|]. split; [lia|].
  intros r. apply good_update_refl.
Qed.

Lemma evolves_set_class_is_dead v w : evolves w (set_class_is_dead v w).
Proof.
  unfold evolves. simpl.
  split; [reflexivity|]. split; [reflexivity|]. split; [reflexivity|].
  split; [apply incl_refl|]. split; [lia|].
  intros r. apply good_update_refl.
Qed.

Lemma evolves_Monster_is_dead self : preserves evolves (Monster_is_dead self).
Proof.
  intros w b w' H. rewrite Monster_is_dead_eq in H. injection H as _ <-.
  destruct (surrounded _ _ _);
    auto using evolves_refl, evolves_set_class_is_dead.
Qed.

Lemma good_with_delay_count o c : good_update o (with_delay_count o c).
Proof. unfold good_update. simpl. auto. Qed.
Lemma good_with_last_event o e : good_update o (with_last_event o e).
Proof. unfold good_update. simpl. auto. Qed.
Lemma good_with_dx o d : good_update o (with_dx o d).
Proof. unfold good_update. simpl. auto. Qed.
Lemma good_with_dy o d : good_update o (with_dy o d).
Proof. unfold good_update. simpl. auto. Qed.
Lemma good_with_is_dead o b : good_update o (with_is_dead o b).
Proof. unfold good_update. simpl. auto. Qed.
Lemma good_with_inside_sticky o : good_update o (with_inside_sticky o true).
Proof. unfold good_update. simpl. auto. Qed.
Lemma good_with_position o x y :
  (class_ o = Monster -> inside_sticky o = true -> False) ->
  good_update o (with_position o x y).
Proof.
  unfold good_update. simpl. intros H.
  split; [reflexivity|]. split; [reflexivity|]. split; [auto|].
  intros Hm Hs. destruct (H Hm Hs).
Qed.

Create HintDb evolve.

#[local] Hint Resolve evolves_refl evolves_set_obj evolves_set_class_is_dead
  good_with_delay_count good_with_last_event good_with_dx good_with_dy
  good_with_is_dead good_with_inside_sticky : evolve.

Lemma evolves_Actor_move self other dx dy w r w' :
  (class_ (objs w self) = Monster -> inside_sticky (objs w self) = true -> False) ->
  Actor_move self other dx dy w = inr (r, w') -> evolves w w'.
Proof.
  intros Hn H. unfold Actor_move, set_position in H. minv.
  apply evolves_set_obj, good_with_position, Hn.
Qed.

Lemma evolves_delay self : preserves evolves (delay self).
Proof.
  intros w b w' H. unfold delay in H. minv.
  destruct (_delay _ =? 0); minv. auto with evolve.
Qed.

Tactic Notation "mbind" hyp(H) "as" ident(a) ident(w1) ident(H1) :=
  apply bind_inv in H; destruct H as (a & w1 & H1 & H).

(** Case analysis on the condition of the [if] that heads [H]. *)
Ltac case_if H :=
  match type of H with
  | (if ?c then _ else _) _ = _ => destruct c eqn:?
  end.

Lemma Monster_is_dead_inv self w b w1 :
  Monster_is_dead self w = inr (b, w1) ->
  b = surrounded w (_x (objs w self)) (_y (objs w self))
  /\ objs w1 = objs w /\ stage w1 = stage w /\ evolves w w1.
Proof.
  intros H. pose proof (evolves_Monster_is_dead _ _ _ _ H) as E.
  rewrite Monster_is_dead_eq in H. injection H as <- <-.
  destruct (surrounded _ _ _); auto.
Qed.

Lemma evolves_Monster_move self other dx dy :
  preserves evolves (Monster_move self other dx dy).
Proof.
  intros w r w' H. unfold Monster_move in H.
  destruct (negb (Nat.eqb other self)).
  { apply ret_inv in H as [_ ->]. apply evolves_refl. }
  mbind H as o w0 Ho. apply gets_inv in Ho as [-> ->].
  mbind H as dead w1 Hd.
  apply Monster_is_dead_inv in Hd as (_ & Ho1 & _ & E1).
  destruct (inside_sticky (objs w self)) eqn:Hs.
  { apply ret_inv in H as [_ ->]. exact E1. }
  eapply evolves_trans; [exact E1|]. clear E1.
  mbind H as actor w2 Ha. apply gets_inv in Ha as [-> ->].
  mbind H as kp w2 Hk. apply gets_inv in Hk as [-> ->].
  mbind H as u w2 Hkill.
  assert (E2 : evolves w1 w2 /\ inside_sticky (objs w2 self) = false
               /\ class_ (objs w2 self) = class_ (objs w self)).
  { destruct (get_actor w1 _ _) as [p|].
    - destruct (isinstance w1 (Some p) KeyboardPlayer).
      + mbind Hkill as u' w3 Hrm.
        pose proof (evolves_remove_actor _ _ _ _ Hrm) as E.
        apply modify_inv in Hkill as ->.
        assert (Ho3 : objs w3 = objs w).
        { unfold remove_actor in Hrm. mbind Hrm as l w4 Hl.
          apply gets_inv in Hl as [-> ->].
          destruct (list_remove p _); [|discriminate].
          apply modify_inv in Hrm as ->. exact Ho1. }
        split; [|split].
        * eapply evolves_trans; [exact E|]. auto with evolve.
        * simpl. unfold update. rewrite Ho3.
          destruct (Nat.eqb self p) eqn:Ep;
            [apply Nat.eqb_eq in Ep; subst p|]; simpl; exact Hs.
        * simpl. unfold update. rewrite Ho3.
          destruct (Nat.eqb self p) eqn:Ep;
            [apply Nat.eqb_eq in Ep; subst p|]; reflexivity.
      + apply ret_inv in Hkill as [_ ->]. rewrite Ho1. auto with evolve.
    - apply ret_inv in Hkill as [_ ->]. rewrite Ho1. auto with evolve. }
  destruct E2 as (E2 & Hs2 & Hc2).
  eapply evolves_trans; [exact E2|]. clear E2.
  mbind H as st w3 Hst. apply gets_inv in Hst as [-> ->].
  mbind H as bounce w3 Hb.
  assert (E3 : evolves w2 w3 /\ inside_sticky (objs w3 self) = false
               /\ class_ (objs w3 self) = class_ (objs w self)).
  { case_if Hb.
    - mbind Hb as u' w4 Hm. apply modify_inv in Hm as ->.
      apply ret_inv in Hb as [_ ->].
      split; [auto with evolve|]. simpl. rewrite update_same. simpl. auto.
    - apply ret_inv in Hb as [_ ->]. auto with evolve. }
  destruct E3 as (E3 & Hs3 & Hc3).
  eapply evolves_trans; [exact E3|]. clear E3.
  case_if H.
  - mbind H as u' w4 Hm. apply modify_inv in Hm as ->.
    apply ret_inv in H as [_ ->]. auto with evolve.
  - eapply evolves_Actor_move; [|exact H]. congruence.
Qed.

Lemma evolves_class w w' r : evolves w w' -> class_ (objs w' r) = class_ (objs w r).
Proof. intros E. apply E. Qed.

Lemma evolves_Monster_step self : preserves evolves (Monster_step self).
Proof.
  intros w r w' H. unfold Monster_step in H.
  mbind H as dead w1 Hd. apply Monster_is_dead_inv in Hd as (_ & _ & _ & E1).
  eapply evolves_trans; [exact E1|]. clear E1.
  mbind H as u w2 Hrm.
  assert (E2 : evolves w1 w2).
  { destruct dead.
    - eapply evolves_remove_actor; exact Hrm.
    - apply ret_inv in Hrm as [_ ->]. apply evolves_refl. }
  eapply evolves_trans; [exact E2|]. clear E2.
  mbind H as d w3 Hdl. apply evolves_delay in Hdl.
  eapply evolves_trans; [exact Hdl|]. clear Hdl.
  mbind H as o w4 Ho. apply gets_inv in Ho as [-> ->].
  case_if H.
  - apply ret_inv in H as [_ ->]. apply evolves_refl.
  - mbind H as r' w4 Hm. apply ret_inv in H as [_ ->].
    eapply evolves_Monster_move; exact Hm.
Qed.

Section Dispatch.

Variable call : move_method.
Hypothesis call_evolves :
  forall r other dx dy, preserves evolves (call r other dx dy).

Lemma evolves_call_move target self dx dy :
  preserves evolves (call_move call target self dx dy).
Proof.
  intros w r w' H. destruct target as [t|]; simpl in H.
  - eapply call_evolves; exact H.
  - discriminate.
Qed.

(** The tail shared by [Box.move] and [KeyboardPlayer.move]: ask the
    occupant to move, look again, and step into the cell if it is
    free. *)
Lemma evolves_push self other dx dy new_x new_y w r w' :
  class_ (objs w self) <> Monster ->
  (a <- Stage_get_actor new_x new_y ;;
   call_move call a self dx dy ;;
   Stage_get_actor new_x new_y ;;
   a' <- Stage_get_actor new_x new_y ;;
   if is_None a' then Actor_move self other dx dy ;; ret True_
   else ret False_) w = inr (r, w') ->
  evolves w w'.
Proof.
  intros Hc H.
  mbind H as a w1 Ha. apply gets_inv in Ha as [-> ->].
  mbind H as r1 w1 Hcall. apply evolves_call_move in Hcall.
  mbind H as a1 w2 Ha. apply gets_inv in Ha as [-> ->].
  mbind H as a2 w2 Ha. apply gets_inv in Ha as [-> ->].
  eapply evolves_trans; [exact Hcall|].
  case_if H.
  - mbind H as r2 w2 Hm. apply ret_inv in H as [_ ->].
    eapply evolves_Actor_move; [|exact Hm].
    rewrite (evolves_class _ _ _ Hcall). intros Hm' _. contradiction.
  - apply ret_inv in H as [_ ->]. apply evolves_refl.
Qed.

Lemma evolves_Box_move self other dx dy w r w' :
  class_ (objs w self) <> Monster ->
  Box_move call self other dx dy w = inr (r, w') -> evolves w w'.
Proof.
  intros Hc H. unfold Box_move in H.
  mbind H as o w0 Ho. apply gets_inv in Ho as [-> ->].
  mbind H as c1 w0 Hc1. apply gets_inv in Hc1 as [-> ->].
  case_if H.
  - mbind H as r1 w1 Hm. apply ret_inv in H as [_ ->].
    eapply evolves_Actor_move; [|exact Hm]. intros Hm' _. contradiction.
  - mbind H as c2 w0 Hc2. apply gets_inv in Hc2 as [-> ->].
    case_if H.
    + eapply evolves_push; eassumption.
    + apply ret_inv in H as [_ ->]. apply evolves_refl.
Qed.

Lemma evolves_sticky_move self other dx dy w r w' :
  class_ (objs w self) <> Monster ->
  sticky_move call self other dx dy w = inr (r, w') -> evolves w w'.
Proof.
  intros Hc H. unfold sticky_move in H.
  mbind H as o w0 Ho. apply gets_inv in Ho as [-> ->].
  mbind H as c w0 Hc1. apply gets_inv in Hc1 as [-> ->].
  case_if H.
  - mbind H as r1 w1 Hm.
    eapply evolves_Actor_move in Hm; [|intros Hm' _; contradiction].
    eapply evolves_trans; [exact Hm|].
    mbind H as a w2 Ha. apply gets_inv in Ha as [-> ->].
    mbind H as u w2 Hset. apply ret_inv in H as [_ ->].
    destruct (get_actor w1 _ _) as [t|]; [|discriminate].
    apply modify_inv in Hset as ->. auto with evolve.
  - mbind H as r1 w1 Hm. apply ret_inv in H as [_ ->].
    eapply evolves_Box_move; eassumption.
Qed.

Lemma evolves_KeyboardPlayer_move self other dx dy w r w' :
  class_ (objs w self) <> Monster ->
  KeyboardPlayer_move call self other dx dy w = inr (r, w') -> evolves w w'.
Proof.
  intros Hc H. unfold KeyboardPlayer_move in H.
  mbind H as o w0 Ho. apply gets_inv in Ho as [-> ->].
  mbind H as c1 w0 Hc1. apply gets_inv in Hc1 as [-> ->].
  case_if H.
  - mbind H as r1 w1 Hm. apply ret_inv in H as [_ ->].
    eapply evolves_Actor_move; [|exact Hm]. intros Hm' _. contradiction.
  - mbind H as c2 w0 Hc2. apply gets_inv in Hc2 as [-> ->].
    case_if H.
    + mbind H as u w1 Hd. apply modify_inv in Hd as ->.
      mbind H as u' w2 Hrm. apply ret_inv in H as [_ ->].
      apply evolves_remove_actor in Hrm.
      eapply evolves_trans; [|exact Hrm]. auto with evolve.
    + mbind H as c3 w0 Hc3. apply gets_inv in Hc3 as [-> ->].
      case_if H.
      * eapply evolves_push; eassumption.
      * apply ret_inv in H as [_ ->]. apply evolves_refl.
Qed.

Lemma evolves_KeyboardPlayer_step self w r w' :
  class_ (objs w self) <> Monster ->
  KeyboardPlayer_step call self w = inr (r, w') -> evolves w w'.
Proof.
  intros Hc H. unfold KeyboardPlayer_step in H.
  mbind H as o w0 Ho. apply gets_inv in Ho as [-> ->].
  destruct (_last_event (objs w self)) as [event|].
  - mbind H as u w1 Hm.
    assert (E : evolves w w1).
    { destruct (key_direction event) as [[dx dy]|].
      - mbind Hm as r1 w2 Hmv. apply ret_inv in Hm as [_ ->].
        eapply evolves_KeyboardPlayer_move; eassumption.
      - apply ret_inv in Hm as [_ ->]. apply evolves_refl. }
    eapply evolves_trans; [exact E|].
    mbind H as u' w2 Hset. apply modify_inv in Hset as ->.
    apply ret_inv in H as [_ ->]. auto with evolve.
  - apply ret_inv in H as [_ ->]. apply evolves_refl.
Qed.

End Dispatch.

Lemma evolves_move depth self other dx dy :
  preserves evolves (move depth self other dx dy).
Proof.
  revert self other dx dy.
  induction depth as [|d IH]; intros self other dx dy w r w' H; simpl in H.
  - discriminate.
  - destruct (class_ (objs w self)) eqn:Hc.
    + eapply evolves_Actor_move; [|exact H]. congruence.
    + eapply evolves_Actor_move; [|exact H]. congruence.
    + eapply evolves_KeyboardPlayer_move; [exact IH| |exact H]. congruence.
    + eapply evolves_Box_move; [exact IH| |exact H]. congruence.
    + eapply evolves_Actor_move; [|exact H]. congruence.
    + eapply evolves_Monster_move; exact H.
    + eapply evolves_sticky_move; [exact IH| |exact H]. congruence.
Qed.

Lemma evolves_step depth self : preserves evolves (step depth self).
Proof.
  intros w r w' H. unfold step in H.
  destruct (class_ (objs w self)) eqn:Hc;
    try (apply ret_inv in H as [_ ->]; apply evolves_refl).
  - eapply evolves_KeyboardPlayer_step; [apply evolves_move| |exact H].
    congruence.
  - eapply evolves_Monster_step; exact H.
Qed.

Lemma evolves_Stage_step_loop depth budget i :
  preserves evolves (Stage_step_loop depth budget i).
Proof.
  revert i. induction budget as [|b IH]; intros i w l w' H; simpl in H.
  - discriminate.
  - mbind H as acts w0 Ha. apply gets_inv in Ha as [-> ->].
    destruct (nth_error _ i) as [a|].
    + mbind H as r w1 Hs. apply evolves_step in Hs.
      mbind H as rest w2 Hl. apply IH in Hl.
      apply ret_inv in H as [_ ->]. eauto using evolves_trans.
    + apply ret_inv in H as [_ ->]. apply evolves_refl.
Qed.

Lemma evolves_Stage_step depth : preserves evolves (Stage_step depth).
Proof.
  intros w u w' H. unfold Stage_step, Stage_step_trace in H.
  mbind H as tr w1 Ht. apply ret_inv in H as [_ ->].
  mbind Ht as l w0 Hl. apply gets_inv in Hl as [-> ->].
  eapply evolves_Stage_step_loop; exact Ht.
Qed.

Lemma evolves_player_event e : preserves evolves (player_event e).
Proof.
  intros w u w' H. unfold player_event in H.
  mbind H as p w0 Hp. apply gets_inv in Hp as [-> ->].
  destruct (_player (stage w)) as [r|]; [|discriminate].
  unfold handle_event in H. destruct (class_ (objs w r)); try discriminate.
  - apply ret_inv in H as [_ ->]. apply evolves_refl.
  - apply modify_inv in H as ->. auto with evolve.
Qed.

Lemma evolves_deliver events : preserves evolves (deliver events).
Proof.
  induction events as [|e es IH]; intros w u w' H; simpl in H.
  - apply ret_inv in H as [_ ->]. apply evolves_refl.
  - mbind H as u' w1 He. apply evolves_player_event in He.
    apply IH in H. eauto using evolves_trans.
Qed.

Lemma evolves_play depth rounds : preserves evolves (play depth rounds).
Proof.
  induction rounds as [|events rest IH]; intros w u w' H; simpl in H.
  - apply ret_inv in H as [_ ->]. apply evolves_refl.
  - mbind H as u' w1 Ht. unfold tick in Ht.
    mbind Ht as u'' w2 Hd. apply evolves_deliver in Hd.
    apply evolves_Stage_step in Ht. apply IH in H.
    eauto using evolves_trans.
Qed.

(** ** The budget of the loop of Stage.step *)

Lemma Stage_step_loop_S depth budget i w :
  Stage_step_loop depth (S budget) i w =
  match nth_error (_actors (stage w)) i with
  | None => inr ([], w)
  | Some a =>
      match step depth a w with
      | inl e => inl e
      | inr (_, w1) =>
          match Stage_step_loop depth budget (S i) w1 with
          | inl e => inl e
          | inr (rest, w2) => inr (a :: rest, w2)
          end
      end
  end.
Proof.
  simpl. unfold bind, gets, ret.
  destruct (nth_error _ i); [|reflexivity].
  destruct (step depth r w) as [e|[r' w1]]; [reflexivity|].
  destruct (Stage_step_loop depth budget (S i) w1) as [e|[rest w2]]; reflexivity.
Qed.

(** A budget above the number of actors still to visit is never used up:
    the loop gives the same outcome with any larger one. *)
Lemma Stage_step_budget depth budget budget' i w :
  (length (_actors (stage w)) < budget + i)%nat ->
  (1 <= budget <= budget')%nat ->
  Stage_step_loop depth budget' i w = Stage_step_loop depth budget i w.
Proof.
  revert budget' i w.
  induction budget as [|b IH]; intros b' i w Hlen Hb; [lia|].
  destruct b' as [|b']; [lia|]. rewrite !Stage_step_loop_S.
  destruct (nth_error (_actors (stage w)) i) as [a|] eqn:Hi; [|reflexivity].
  destruct (step depth a w) as [e|[r w1]] eqn:Hs; [reflexivity|].
  assert (Hi' : (i < length (_actors (stage w)))%nat).
  { apply nth_error_Some. congruence. }
  pose proof (evolves_step _ _ _ _ _ Hs) as (_ & _ & _ & _ & Hl & _).
  rewrite (IH b' (S i) w1); [reflexivity|lia|lia].
Qed.

(** ** Stage.get_actor *)

Lemma first_at_In h l x y a : first_at h l x y = Some a -> In a l.
Proof.
  induction l as [|b l IH]; simpl; [discriminate|].
  destruct (at_position (h b) x y).
  - intros H. injection H as ->. now left.
  - auto.
Qed.

Lemma first_at_position h l x y a :
  first_at h l x y = Some a -> _x (h a) = x /\ _y (h a) = y.
Proof.
  induction l as [|b l IH]; simpl; [discriminate|].
  destruct (at_position (h b) x y) eqn:E.
  - intros H. injection H as ->. unfold at_position in E.
    apply andb_true_iff in E as [Ex Ey]. split; now apply Z.eqb_eq.
  - auto.
Qed.

Lemma first_at_None h l x y :
  first_at h l x y = None <->
  forall a, In a l -> ~ (_x (h a) = x /\ _y (h a) = y).
Proof.
  induction l as [|b l IH]; simpl.
  - split; [intros _ a []|reflexivity].
  - destruct (at_position (h b) x y) eqn:E; unfold at_position in E.
    + split; [discriminate|]. intros H. exfalso. apply (H b); [now left|].
      apply andb_true_iff in E as [Ex Ey]. split; now apply Z.eqb_eq.
    + rewrite IH. split.
      * intros H a [<-|Ha]; [|auto]. intros [Ex Ey].
        rewrite <- Ex, <- Ey, !Z.eqb_refl in E. discriminate.
      * intros H a Ha. apply H. now right.
Qed.

Lemma list_remove_NoDup a l l' :
  NoDup l -> list_remove a l = Some l' -> ~ In a l'.
Proof.
  intros Hnd. revert l'. induction Hnd as [|b l Hb Hnd IH]; simpl; intros l' H.
  - discriminate.
  - destruct (Nat.eqb_spec b a) as [->|Hne].
    + injection H as <-. exact Hb.
    + destruct (list_remove a l) as [r|]; [|discriminate].
      injection H as <-. intros [E|Hin]; [contradiction|].
      exact (IH r eq_refl Hin).
Qed.

(** ** Pushes end *)

Lemma filter_length_lt {A} (p q : A -> bool) (l : list A) (a : A) :
  (forall x, q x = true -> p x = true) ->
  In a l -> p a = true -> q a = false ->
  (length (filter q l) < length (filter p l))%nat.
Proof.
  intros Hqp. 
  assert (Hle : forall l', (length (filter q l') <= length (filter p l'))%nat).
  { induction l' as [|x l' IH]; simpl; [lia|].
    destruct (q x) eqn:Eq.
    - rewrite (Hqp x Eq). simpl. lia.
    - destruct (p x); simpl; lia. }
  induction l as [|x l IH]; simpl; [contradiction|].
  intros [->|Hin] Hp Hq.
  - rewrite Hp, Hq. simpl. specialize (Hle l). lia.
  - specialize (IH Hin Hp Hq). destruct (q x) eqn:Eq.
    + rewrite (Hqp x Eq). simpl. lia.
    + destruct (p x); simpl; lia.
Qed.

Lemma ahead_count_le w r dx dy :
  (ahead_count w r dx dy <= length (_actors (stage w)))%nat.
Proof. unfold ahead_count. apply filter_length_le. Qed.

(** The occupant of the next cell has fewer actors ahead of it. *)
Lemma ahead_count_next w r t dx dy :
  (dx, dy) <> (0, 0) ->
  get_actor w (_x (objs w r) + dx) (_y (objs w r) + dy) = Some t ->
  (ahead_count w t dx dy < ahead_count w r dx dy)%nat.
Proof.
  intros Hd Hg.
  pose proof (first_at_In _ _ _ _ _ Hg) as Hin.
  destruct (first_at_position _ _ _ _ _ Hg) as [Ex Ey].
  assert (Hpos : 0 < dx * dx + dy * dy).
  { destruct (Z.eq_dec dx 0) as [->|Hx].
    - destruct (Z.eq_dec dy 0) as [->|Hy]; [now elim Hd|]. nia.
    - nia. }
  unfold ahead_count. apply filter_length_lt with (a := t).
  - intros a. unfold ahead. rewrite Ex, Ey.
    intros H. apply Z.ltb_lt in H. apply Z.ltb_lt. nia.
  - exact Hin.
  - unfold ahead. rewrite Ex, Ey. apply Z.ltb_lt. nia.
  - unfold ahead. apply Z.ltb_ge. nia.
Qed.

Section PushTotal.

Variable call : move_method.

Lemma Box_move_total w self other dx dy :
  call_ends call w self dx dy ->
  exists r w', Box_move call self other dx dy w = inr (r, w').
Proof.
  intros Hcall. unfold Box_move. mrun.
  destruct (is_in_bounds _ _ _ && _); cbv beta iota; [eauto|].
  destruct (negb _ && isinstance w _ Box) eqn:Hb; cbv beta iota; [|eauto].
  apply andb_true_iff in Hb as [_ Hb].
  destruct (get_actor w _ _) as [t|] eqn:Hg; [|discriminate].
  simpl in Hb.
  destruct (Hcall t Hg Hb) as (r1 & w1 & ->).
  destruct (is_None _); eauto.
Qed.

Lemma sticky_move_total w self other dx dy :
  class_ (objs w self) = sticky ->
  call_ends call w self dx dy ->
  exists r w', sticky_move call self other dx dy w = inr (r, w').
Proof.
  intros Hc Hcall. unfold sticky_move.
  unfold bind at 1. unfold gets at 1.
  unfold bind at 1. unfold gets at 1.
  destruct (isinstance w _ Monster) eqn:Hm.
  - mrun.
    destruct (get_actor w _ _) as [t|] eqn:Hg; [|discriminate].
    simpl in Hm.
    match goal with |- context [get_actor ?w1 ?x ?y] =>
      destruct (get_actor w1 x y) as [t'|] eqn:Hg'
    end; [eauto|].
    exfalso.
    destruct (first_at_position _ _ _ _ _ Hg) as [Ex Ey].
    unfold get_actor in Hg'. rewrite first_at_None in Hg'. apply (Hg' t).
    + eapply first_at_In; exact Hg.
    + simpl. rewrite update_other; [auto|].
      intros ->. rewrite Hc in Hm. discriminate.
  - destruct (Box_move_total w self other dx dy Hcall) as (r & w' & E).
    unfold bind. rewrite E. unfold ret. eauto.
Qed.

End PushTotal.

(** A push in a direction other than [(0, 0)] ends normally when the
    call depth allowed exceeds the number of actors ahead. *)
Lemma move_Box_total depth w t other dx dy :
  (dx, dy) <> (0, 0) ->
  subclass (class_ (objs w t)) Box = true ->
  (ahead_count w t dx dy < depth)%nat ->
  exists r w', move depth t other dx dy w = inr (r, w').
Proof.
  intros Hd. revert w t other.
  induction depth as [|d IH]; intros w t other Hb Hlt; [lia|].
  assert (Hcall : call_ends (move d) w t dx dy).
  { intros t' Hg Hb'. apply IH; [exact Hb'|].
    pose proof (ahead_count_next w t t' dx dy Hd Hg). lia. }
  simpl. destruct (class_ (objs w t)) eqn:Hc; try discriminate.
  - apply Box_move_total, Hcall.
  - apply sticky_move_total; assumption.
Qed.

(** ** KeyboardPlayer.step ends *)

Lemma key_direction_nonzero event dx dy :
  key_direction event = Some (dx, dy) -> (dx, dy) <> (0, 0).
Proof.
  unfold key_direction.
  repeat match goal with |- context [if ?c then _ else _] => destruct c end;
    intros H; inversion H; discriminate.
Qed.

Lemma KeyboardPlayer_move_total depth w p other dx dy :
  (dx, dy) <> (0, 0) ->
  In p (_actors (stage w)) ->
  (length (_actors (stage w)) < depth)%nat ->
  exists r w', KeyboardPlayer_move (move depth) p other dx dy w = inr (r, w').
Proof.
  intros Hd Hin Hlen. unfold KeyboardPlayer_move. mrun.
  destruct (is_in_bounds _ _ _ && _); cbv beta iota; [eauto|].
  destruct (negb _ && isinstance w _ Monster); cbv beta iota.
  { destruct (remove_actor_In (set_obj p (fun o => with_is_dead o true) w) p Hin)
      as (l' & _ & ->). eauto. }
  destruct (negb _ && isinstance w _ Box) eqn:Hb; cbv beta iota; [|eauto].
  apply andb_true_iff in Hb as [_ Hb].
  destruct (get_actor w _ _) as [t|] eqn:Hg; [|discriminate].
  simpl in Hb.
  assert (Hlt : (ahead_count w t dx dy < depth)%nat).
  { pose proof (ahead_count_le w t dx dy). lia. }
  destruct (move_Box_total depth w t p dx dy Hd Hb Hlt) as (r1 & w1 & ->).
  destruct (is_None _); eauto.
Qed.

Lemma KeyboardPlayer_step_total depth w p :
  In p (_actors (stage w)) ->
  (length (_actors (stage w)) < depth)%nat ->
  exists w',
    KeyboardPlayer_step (move depth) p w = inr (None, w')
    /\ _last_event (objs w' p) = None.
Proof.
  intros Hin Hlen. unfold KeyboardPlayer_step.
  unfold bind at 1. unfold gets at 1.
  destruct (_last_event (objs w p)) as [event|] eqn:He.
  - destruct (key_direction event) as [[dx dy]|] eqn:Hk.
    + destruct (KeyboardPlayer_move_total depth w p p dx dy
                  (key_direction_nonzero _ _ _ Hk) Hin Hlen) as (r & w1 & E).
      unfold bind. rewrite E. run. eexists. split; [reflexivity|].
      simpl. now rewrite update_same.
    + run. eexists. split; [reflexivity|]. simpl. now rewrite update_same.
  - exists w. split; [reflexivity|exact He].
Qed.

(** ** The event buffer *)

Lemma set_last_event_twice w p e1 e2 :
  set_obj p (fun o => with_last_event o e2)
    (set_obj p (fun o => with_last_event o e1) w)
  = set_obj p (fun o => with_last_event o e2) w.
Proof.
  unfold set_obj. simpl. f_equal.
  extensionality r. unfold update.
  rewrite Nat.eqb_refl. destruct (Nat.eqb r p); reflexivity.
Qed.

Lemma player_event_eq w p e :
  class_ (objs w p) = KeyboardPlayer ->
  _player (stage w) = Some p ->
  player_event e w = inr (tt, set_obj p (fun o => with_last_event o (Some e)) w).
Proof.
  intros Hc Hp. unfold player_event, handle_event. run.
  rewrite Hp, Hc. reflexivity.
Qed.

Lemma deliver_last w p es e :
  class_ (objs w p) = KeyboardPlayer ->
  _player (stage w) = Some p ->
  deliver (es ++ [e]) w
  = inr (tt, set_obj p (fun o => with_last_event o (Some e)) w).
Proof.
  revert w. induction es as [|e1 es IH]; intros w Hc Hp; simpl.
  - unfold bind. rewrite (player_event_eq w p e Hc Hp). reflexivity.
  - unfold bind. rewrite (player_event_eq w p e1 Hc Hp).
    rewrite IH; [now rewrite set_last_event_twice| |exact Hp].
    simpl. rewrite update_same. exact Hc.
Qed.

Lemma first_at_same_cells h h' l x y :
  (forall a, _x (h' a) = _x (h a) /\ _y (h' a) = _y (h a)) ->
  first_at h' l x y = first_at h l x y.
Proof.
  intros H. induction l as [|a l IH]; simpl; [reflexivity|].
  unfold at_position. destruct (H a) as [-> ->]. now rewrite IH.
Qed.

(** Buffering an event changes nothing that [get_actor] looks at. *)
Lemma get_actor_buffered w p e x y :
  get_actor (set_obj p (fun o => with_last_event o e) w) x y = get_actor w x y.
Proof.
  unfold get_actor. cbn [objs stage set_obj]. apply first_at_same_cells.
  intros a. unfold update. destruct (Nat.eqb_spec a p) as [->|_]; auto.
Qed.

(** The step of the player with the event [e] buffered. *)
Lemma step_buffered depth w p e :
  class_ (objs w p) = KeyboardPlayer ->
  step depth p (set_obj p (fun o => with_last_event o (Some e)) w)
  = match key_direction e with
    | Some (dx, dy) =>
        (KeyboardPlayer_move (move depth) p p dx dy ;;
         modify (set_obj p (fun o => with_last_event o None)) ;;
         ret None) (set_obj p (fun o => with_last_event o (Some e)) w)
    | None => inr (None, set_obj p (fun o => with_last_event o None) w)
    end.
Proof.
  intros Hc. unfold step. cbn [objs set_obj]. rewrite update_same.
  cbn [class_ with_last_event]. rewrite Hc.
  unfold KeyboardPlayer_step. unfold bind at 1. unfold gets at 1.
  cbn [objs set_obj]. rewrite update_same. cbn [_last_event with_last_event].
  destruct (key_direction e) as [[dx dy]|].
  - unfold bind.
    destruct (KeyboardPlayer_move (move depth) p p dx dy _) as [x|[r w1]];
      reflexivity.
  - unfold bind, ret, modify. now rewrite set_last_event_twice.
Qed.

(** ** Chains of boxes *)

Lemma sole_occupant_get_actor w b x y :
  sole_occupant w b x y -> get_actor w x y = Some b.
Proof.
  intros [Hin Hu]. unfold get_actor.
  destruct (first_at (objs w) (_actors (stage w)) x y) as [a|] eqn:E.
  - f_equal. apply (Hu a).
    + eapply first_at_In; exact E.
    + eapply first_at_position; exact E.
  - exfalso. rewrite first_at_None in E. apply (E b Hin). now apply Hu.
Qed.

Lemma mem_In a l : mem a l = true <-> In a l.
Proof.
  unfold mem. rewrite existsb_exists. split.
  - intros (x & Hx & E). apply Nat.eqb_eq in E. now subst.
  - intros H. exists a. split; [exact H|apply Nat.eqb_refl].
Qed.

(** Where the boxes of a chain are. *)
Lemma chain_position w x y dx dy bs a :
  chain w x y dx dy bs -> In a bs ->
  In a (_actors (stage w))
  /\ exists k : Z, 0 <= k
     /\ _x (objs w a) = x + k * dx /\ _y (objs w a) = y + k * dy.
Proof.
  revert x y. induction bs as [|b bs IH]; intros x y Hch Hin; [contradiction|].
  destruct Hch as (_ & [Hb Hu] & Hch). destruct Hin as [->|Hin].
  - split; [exact Hb|]. exists 0. split; [lia|].
    destruct (proj2 (Hu a Hb) eq_refl) as [-> ->]. lia.
  - destruct (IH _ _ Hch Hin) as (Ha & k & Hk & Ex & Ey).
    split; [exact Ha|]. exists (k + 1). split; [lia|]. lia.
Qed.

Lemma Box_move_free call w b other dx dy :
  free w (_x (objs w b) + dx) (_y (objs w b) + dy) = true ->
  Box_move call b other dx dy w = inr (True_, moved b dx dy w).
Proof.
  intros Hf. unfold Box_move. mrun. fold (free w (_x (objs w b) + dx) (_y (objs w b) + dy)).
  rewrite Hf. reflexivity.
Qed.

Lemma Box_move_blocked call w b other dx dy :
  free w (_x (objs w b) + dx) (_y (objs w b) + dy) = false ->
  (forall c, get_actor w (_x (objs w b) + dx) (_y (objs w b) + dy) = Some c ->
             subclass (class_ (objs w c)) Box = false) ->
  Box_move call b other dx dy w = inr (False_, w).
Proof.
  intros Hf Hc. unfold Box_move. mrun.
  fold (free w (_x (objs w b) + dx) (_y (objs w b) + dy)).
  rewrite Hf. cbv beta iota.
  destruct (get_actor w _ _) as [c|]; [|reflexivity].
  unfold isinstance. rewrite (Hc c eq_refl). reflexivity.
Qed.

Lemma Box_move_push call w b other dx dy t :
  get_actor w (_x (objs w b) + dx) (_y (objs w b) + dy) = Some t ->
  subclass (class_ (objs w t)) Box = true ->
  Box_move call b other dx dy w =
  match call t b dx dy w with
  | inl e => inl e
  | inr (_, w1) =>
      if is_None (get_actor w1 (_x (objs w b) + dx) (_y (objs w b) + dy))
      then inr (True_, moved b dx dy w1)
      else inr (False_, w1)
  end.
Proof.
  intros Hg Hb. unfold Box_move. mrun.
  rewrite Hg. cbn [is_None]. rewrite andb_false_r. cbv beta iota.
  rewrite Hg. unfold isinstance. rewrite Hb.
  cbn [is_None negb andb]. cbv beta iota. rewrite Hg.
  destruct (call t b dx dy w) as [e|[r w1]]; [reflexivity|].
  destruct (is_None _); reflexivity.
Qed.

Lemma Box_move_chain depth w other b bs x y dx dy px py :
  (dx, dy) <> (0, 0) ->
  chain w x y dx dy (b :: bs) ->
  (length (b :: bs) <= depth)%nat ->
  px = x + Z.of_nat (length (b :: bs)) * dx ->
  py = y + Z.of_nat (length (b :: bs)) * dy ->
  (forall c, get_actor w px py = Some c ->
             subclass (class_ (objs w c)) Box = false) ->
  if free w px py
  then exists w',
         move depth b other dx dy w = inr (True_, w')
         /\ (forall a, objs w' a = shifted w (b :: bs) dx dy a)
         /\ stage w' = stage w
         /\ Actor_is_dead w' = Actor_is_dead w
  else move depth b other dx dy w = inr (False_, w).
Proof.
  intros Hd. revert depth other b x y.
  induction bs as [|b' bs IH]; intros depth other b x y Hch Hlen Hpx Hpy Hpast.
  - (* the last box of the chain *)
    destruct Hch as (Hc & Hso & _).
    destruct Hso as [Hin Hu].
    destruct (proj2 (Hu b Hin) eq_refl) as [Ex Ey].
    simpl length in *. destruct depth as [|d]; [lia|].
    assert (Hpx' : px = _x (objs w b) + dx) by lia.
    assert (Hpy' : py = _y (objs w b) + dy) by lia.
    simpl move. rewrite Hc. subst px py.
    destruct (free w _ _) eqn:Hf.
    + rewrite Hpx', Hpy' in Hf. rewrite (Box_move_free _ _ _ _ _ _ Hf).
      eexists. split; [reflexivity|]. split; [|split; reflexivity].
      intros a. unfold shifted, mem. simpl. unfold update.
      rewrite orb_false_r. destruct (Nat.eqb_spec a b) as [->|_]; reflexivity.
    + rewrite Hpx', Hpy' in Hf, Hpast. now apply Box_move_blocked.
  - (* a box with the rest of the chain behind it *)
    destruct Hch as (Hc & Hso & Hch).
    destruct Hso as [Hin Hu].
    destruct (proj2 (Hu b Hin) eq_refl) as [Ex Ey].
    pose proof Hch as (Hc' & Hso' & _).
    pose proof (sole_occupant_get_actor _ _ _ _ Hso') as Hg.
    destruct depth as [|d]; [simpl in Hlen; lia|].
    specialize (IH d b b' (x + dx) (y + dy) Hch).
    assert (Hlen' : (length (b' :: bs) <= d)%nat) by (simpl in *; lia).
    assert (Hpx' : px = x + dx + Z.of_nat (length (b' :: bs)) * dx).
    { rewrite Hpx. change (length (b :: b' :: bs)) with (S (length (b' :: bs))).
      lia. }
    assert (Hpy' : py = y + dy + Z.of_nat (length (b' :: bs)) * dy).
    { rewrite Hpy. change (length (b :: b' :: bs)) with (S (length (b' :: bs))).
      lia. }
    specialize (IH Hlen' Hpx' Hpy' Hpast).
    assert (Hpush : move (S d) b other dx dy w =
                    match move d b' b dx dy w with
                    | inl e => inl e
                    | inr (_, w1) =>
                        if is_None (get_actor w1 (x + dx) (y + dy))
                        then inr (True_, moved b dx dy w1)
                        else inr (False_, w1)
                    end).
    { simpl move. rewrite Hc. rewrite <- Ex, <- Ey. apply Box_move_push.
      - rewrite Ex, Ey. exact Hg.
      - rewrite Hc'. reflexivity. }
    rewrite Hpush. clear Hpush.
    destruct (free w px py) eqn:Hf.
    + destruct IH as (w1 & -> & Ho1 & Hst1 & Hd1).
      assert (Hnone : get_actor w1 (x + dx) (y + dy) = None).
      { unfold get_actor. rewrite first_at_None. rewrite Hst1.
        intros a Ha [Pax Pay]. rewrite Ho1 in Pax, Pay. unfold shifted in *.
        destruct (mem a (b' :: bs)) eqn:Hmem.
        - apply mem_In in Hmem.
          destruct (chain_position _ _ _ _ _ _ _ Hch Hmem)
            as (_ & k & Hk & Eax & Eay).
          simpl in Pax, Pay. apply Hd. f_equal; nia.
        - destruct Hso' as [_ Hu'].
          assert (a = b') by (apply Hu'; auto). subst a.
          simpl in Hmem. rewrite Nat.eqb_refl in Hmem. discriminate. }
      rewrite Hnone. cbn [is_None].
      assert (Hb1 : objs w1 b = objs w b).
      { rewrite Ho1. unfold shifted.
        destruct (mem b (b' :: bs)) eqn:Hmem; [|reflexivity].
        apply mem_In in Hmem.
        destruct (chain_position _ _ _ _ _ _ _ Hch Hmem)
          as (_ & k & Hk & Eax & Eay).
        exfalso. apply Hd. f_equal; nia. }
      eexists. split; [reflexivity|]. split; [|split; assumption].
      intros a. unfold moved. simpl. unfold update. rewrite Hb1.
      unfold shifted. change (mem a (b :: b' :: bs))
        with (Nat.eqb a b || mem a (b' :: bs)).
      destruct (Nat.eqb_spec a b) as [->|Hne]; [reflexivity|].
      rewrite Ho1. reflexivity.
    + rewrite IH. rewrite Hg. reflexivity.
Qed.

Lemma sole_occupantb_true w b x y :
  sole_occupantb w b x y = true -> sole_occupant w b x y.
Proof.
  unfold sole_occupantb, sole_occupant. intros H.
  apply andb_true_iff in H as [Hin Hall]. split.
  - apply existsb_exists in Hin as (a & Ha & E).
    apply Nat.eqb_eq in E. now subst.
  - intros a Ha. rewrite forallb_forall in Hall. specialize (Hall a Ha).
    apply Bool.eqb_prop in Hall. unfold at_position in Hall. split.
    + intros [Ex Ey]. apply Nat.eqb_eq. rewrite <- Hall, Ex, Ey, !Z.eqb_refl.
      reflexivity.
    + intros E. apply Nat.eqb_eq in E. rewrite E in Hall.
      apply andb_true_iff in Hall as [Ex Ey]. split; now apply Z.eqb_eq.
Qed.

(** ** Monster.move at the east and west edge *)

(** What [Monster.move] does to a roaming Monster whose destination is
    outside the stage in x only and empty: the first [if] reverses
    [_dx]; the [else] belongs to the second [if] alone, whose condition
    is false, so the Monster is moved by the [(dx, dy)] it was called
    with all the same. *)
Lemma Monster_move_x_edge (w : World) (self : ref) (dx dy : Z) :
  inside_sticky (objs w self) = false ->
  let new_x := _x (objs w self) + _dx (objs w self) in
  let new_y := _y (objs w self) + _dy (objs w self) in
  is_in_bounds_x (stage w) new_x = false ->
  is_in_bounds_y (stage w) new_y = true ->
  get_actor w new_x new_y = None ->
  exists w',
    Monster_move self self dx dy w = inr (True_, w')
    /\ heading w' self = (- _dx (objs w self), _dy (objs w self))
    /\ position w' self = (_x (objs w self) + dx, _y (objs w self) + dy).
Proof.
  intros Hs new_x new_y Hx Hy Hg. unfold Monster_move.
  rewrite Nat.eqb_refl. cbn [negb].
  unfold bind at 1. unfold gets at 1. unfold bind at 1.
  destruct (Monster_is_dead_frame w self) as (w1 & -> & Ho & Hst).
  rewrite Hs. mrun.
  fold new_x new_y.
  assert (Hg1 : get_actor w1 new_x new_y = None).
  { unfold get_actor. rewrite Ho, Hst. exact Hg. }
  rewrite Hg1, Hst, Hx, Hy. cbn [negb is_None orb]. cbv beta iota.
  eexists. split; [reflexivity|].
  unfold heading, position. simpl. rewrite !update_same. simpl.
  rewrite Ho. split; reflexivity.
Qed.

(** ** sticky.move onto a Monster *)

(** What [sticky.move] does when [get_actor] finds a Monster in the
    destination: the sticky box is relocated there, the first actor of
    the stage that is then in the cell gets [inside_sticky], and the call
    returns [None], there being no [return] in the method. *)
Lemma sticky_move_onto_Monster (call : move_method) (w : World)
    (self other m : ref) (dx dy : Z) :
  class_ (objs w self) = sticky ->
  let new_x := _x (objs w self) + dx in
  let new_y := _y (objs w self) + dy in
  get_actor w new_x new_y = Some m ->
  class_ (objs w m) = Monster ->
  exists t w',
    sticky_move call self other dx dy w = inr (None, w')
    /\ position w' self = (new_x, new_y)
    /\ get_actor (moved self dx dy w) new_x new_y = Some t
    /\ inside_sticky (objs w' t) = true
    /\ stage w' = stage w.
Proof.
  intros Hc new_x new_y Hg Hm.
  assert (Hne : m <> self) by (intros ->; congruence).
  destruct (get_actor (moved self dx dy w) new_x new_y) as [t|] eqn:Hg'.
  - exists t. eexists. split; [|split; [|split; [reflexivity|split]]].
    + unfold sticky_move. mrun. fold new_x new_y. rewrite Hg.
      unfold isinstance. rewrite Hm. cbn [subclass Class_eqb]. cbv beta iota.
      fold (moved self dx dy w). rewrite Hg'. reflexivity.
    + unfold position. simpl. unfold update.
      destruct (Nat.eqb_spec self t) as [<-|Hn].
      * simpl. rewrite Nat.eqb_refl. reflexivity.
      * rewrite Nat.eqb_refl. reflexivity.
    + simpl. rewrite update_same. reflexivity.
    + reflexivity.
  - exfalso. unfold get_actor in Hg'. rewrite first_at_None in Hg'.
    apply (Hg' m).
    + eapply first_at_In. exact Hg.
    + unfold moved. simpl. rewrite (update_other _ _ _ _ Hne).
      eapply first_at_position. exact Hg.
Qed.

(** ** A Monster that dies *)

Lemma Monster_move_total (w : World) (self other : ref) (dx dy : Z) :
  exists r w', Monster_move self other dx dy w = inr (r, w').
Proof.
  unfold Monster_move.
  destruct (negb (Nat.eqb other self)); [unfold ret; eauto|].
  unfold bind at 1. unfold gets at 1. unfold bind at 1.
  destruct (Monster_is_dead_frame w self) as (w1 & -> & Ho & Hst).
  destruct (inside_sticky (objs w self)); [unfold ret; eauto|].
  mrun.
  destruct (get_actor w1 _ _) as [p|] eqn:Hg.
  - destruct (isinstance w1 (Some p) KeyboardPlayer).
    + destruct (remove_actor_In w1 p (first_at_In _ _ _ _ _ Hg)) as (l' & _ & ->).
      cbn [negb is_None orb]. rewrite !orb_true_r. cbv beta iota. eauto.
    + cbn [negb is_None orb]. rewrite !orb_true_r. cbv beta iota. eauto.
  - cbn [negb is_None orb]. rewrite !orb_false_r.
    destruct (negb (is_in_bounds_x _ _)); cbv beta iota;
      destruct (negb (is_in_bounds_y _ _)); cbv beta iota; eauto.
Qed.

Lemma list_remove_other a b l l' :
  list_remove a l = Some l' -> b <> a -> In b l -> In b l'.
Proof.
  revert l'. induction l as [|c l IH]; simpl; intros l' H Hne Hin; [contradiction|].
  destruct (Nat.eqb_spec c a) as [->|Hca].
  - injection H as <-. destruct Hin as [->|Hin]; [contradiction|exact Hin].
  - destruct (list_remove a l) as [r|]; [|discriminate].
    injection H as <-. destruct Hin as [->|Hin]; [now left|right; auto].
Qed.

(** [Monster.move] removes nobody but a KeyboardPlayer. *)
Lemma Monster_move_keeps (w : World) (self other a : ref) (dx dy : Z) r w' :
  class_ (objs w a) <> KeyboardPlayer ->
  In a (_actors (stage w)) ->
  Monster_move self other dx dy w = inr (r, w') ->
  In a (_actors (stage w')).
Proof.
  intros Hc Hin H. unfold Monster_move in H.
  destruct (negb (Nat.eqb other self)).
  { apply ret_inv in H as [_ ->]. exact Hin. }
  mbind H as o w0 Ho. apply gets_inv in Ho as [-> ->].
  mbind H as dead w1 Hd.
  apply Monster_is_dead_inv in Hd as (_ & Ho1 & Hst1 & _).
  destruct (inside_sticky (objs w self)).
  { apply ret_inv in H as [_ ->]. now rewrite Hst1. }
  mbind H as actor w2 Ha. apply gets_inv in Ha as [-> ->].
  mbind H as kp w2 Hk. apply gets_inv in Hk as [-> ->].
  mbind H as u w2 Hkill.
  assert (Hin2 : In a (_actors (stage w2))).
  { destruct (get_actor w1 _ _) as [p|].
    - destruct (isinstance w1 (Some p) KeyboardPlayer) eqn:Hkp.
      + mbind Hkill as u' w3 Hrm. apply modify_inv in Hkill as ->.
        unfold remove_actor in Hrm. mbind Hrm as l w4 Hl.
        apply gets_inv in Hl as [-> ->].
        destruct (list_remove p _) as [l'|] eqn:El; [|discriminate].
        apply modify_inv in Hrm as ->. simpl.
        apply (list_remove_other _ _ _ _ El); [|now rewrite Hst1].
        intros ->. simpl in Hkp. rewrite Ho1 in Hkp.
        destruct (class_ (objs w p)); try discriminate. now apply Hc.
      + apply ret_inv in Hkill as [_ ->]. now rewrite Hst1.
    - apply ret_inv in Hkill as [_ ->]. now rewrite Hst1. }
  mbind H as st w3 Hst. apply gets_inv in Hst as [-> ->].
  mbind H as bounce w3 Hb.
  assert (Hin3 : In a (_actors (stage w3))).
  { case_if Hb.
    - mbind Hb as u' w4 Hm. apply modify_inv in Hm as ->.
      apply ret_inv in Hb as [_ ->]. exact Hin2.
    - apply ret_inv in Hb as [_ ->]. exact Hin2. }
  case_if H.
  - mbind H as u' w4 Hm. apply modify_inv in Hm as ->.
    apply ret_inv in H as [_ ->]. exact Hin3.
  - unfold Actor_move, set_position in H.
    mbind H as o w4 Ho. apply gets_inv in Ho as [-> ->].
    mbind H as u' w4 Hm. apply modify_inv in Hm as ->.
    apply ret_inv in H as [_ ->]. exact Hin3.
Qed.

(** The step of a Monster that [get_actor] finds surrounded removes it
    from the stage, whatever its delay counter holds. *)
Lemma Monster_step_dies (w : World) (m : ref) :
  surrounded w (_x (objs w m)) (_y (objs w m)) = true ->
  In m (_actors (stage w)) ->
  NoDup (_actors (stage w)) ->
  _delay (objs w m) <> 0 ->
  exists r w', Monster_step m w = inr (r, w') /\ ~ In m (_actors (stage w')).
Proof.
  intros Hs Hin Hnd Hd. unfold Monster_step.
  unfold bind at 1.
  destruct (Monster_is_dead_frame w m) as (w1 & -> & Ho & Hst).
  rewrite Hs. rewrite <- Hst in Hin, Hnd.
  destruct (remove_actor_In w1 m Hin) as (l' & El & Hrm).
  pose proof (list_remove_NoDup _ _ _ Hnd El) as Hnin.
  unfold bind at 1. rewrite Hrm.
  unfold bind at 1. rewrite delay_eq by (simpl; rewrite Ho; exact Hd).
  unfold bind at 1. unfold gets at 1.
  match goal with |- context [if ?c then _ else _] => destruct c end.
  - unfold ret. eexists _, _. split; [reflexivity|]. exact Hnin.
  - unfold bind.
    match goal with |- context [Monster_move m m ?dx ?dy ?w3] =>
      destruct (Monster_move_total w3 m m dx dy) as (r & w4 & Hm);
      pose proof (evolves_Monster_move _ _ _ _ _ _ _ Hm) as (_ & _ & _ & Hi & _)
    end.
    rewrite Hm. unfold ret.
    eexists _, _. split; [reflexivity|]. intros H. exact (Hnin (Hi _ H)).
Qed.

(** The step of a Monster with an empty cell next to it leaves it on the
    stage. *)
Lemma Monster_step_survives (w : World) (m : ref) r w' :
  class_ (objs w m) = Monster ->
  surrounded w (_x (objs w m)) (_y (objs w m)) = false ->
  In m (_actors (stage w)) ->
  Monster_step m w = inr (r, w') ->
  In m (_actors (stage w')).
Proof.
  intros Hc Hs Hin H. unfold Monster_step in H.
  mbind H as dead w1 Hd.
  apply Monster_is_dead_inv in Hd as (-> & Ho & Hst & _).
  rewrite Hs in H.
  mbind H as u w2 Hrm. apply ret_inv in Hrm as [_ ->].
  mbind H as d w3 Hdl.
  unfold delay in Hdl. mbind Hdl as o w4 Hg. apply gets_inv in Hg as [-> ->].
  destruct (_delay (objs w1 m) =? 0); [discriminate|].
  mbind Hdl as u' w4 Hm. apply modify_inv in Hm as ->.
  mbind Hdl as o' w4 Hg. apply gets_inv in Hg as [-> ->].
  apply ret_inv in Hdl as [_ ->].
  mbind H as o w4 Hg. apply gets_inv in Hg as [-> ->].
  case_if H.
  - apply ret_inv in H as [_ ->]. simpl. now rewrite Hst.
  - mbind H as r' w4 Hm. apply ret_inv in H as [_ ->].
    eapply Monster_move_keeps; [| |exact Hm].
    + simpl. rewrite update_same. simpl. rewrite Ho, Hc. discriminate.
    + simpl. now rewrite Hst.
Qed.

(** ** The game loop runs *)

Lemma Monster_step_total (w : World) (m : ref) :
  In m (_actors (stage w)) ->
  _delay (objs w m) <> 0 ->
  exists r w', Monster_step m w = inr (r, w').
Proof.
  intros Hin Hd. unfold Monster_step.
  unfold bind at 1.
  destruct (Monster_is_dead_frame w m) as (w1 & -> & Ho & Hst).
  assert (Hrm : exists w2, (if surrounded w (_x (objs w m)) (_y (objs w m))
                            then remove_actor m else ret tt) w1 = inr (tt, w2)
                           /\ objs w2 = objs w).
  { destruct (surrounded _ _ _).
    - rewrite <- Hst in Hin.
      destruct (remove_actor_In _ _ Hin) as (l' & _ & ->).
      eexists. split; [reflexivity|exact Ho].
    - eexists. split; [reflexivity|exact Ho]. }
  destruct Hrm as (w2 & Hrm & Ho2).
  unfold bind at 1. rewrite Hrm.
  unfold bind at 1. rewrite delay_eq by (rewrite Ho2; exact Hd).
  unfold bind at 1. unfold gets at 1.
  match goal with |- context [if ?c then _ else _] => destruct c end.
  - unfold ret. eauto.
  - unfold bind.
    match goal with |- context [Monster_move m m ?dx ?dy ?w3] =>
      destruct (Monster_move_total w3 m m dx dy) as (r & w4 & ->)
    end.
    unfold ret. eauto.
Qed.

Lemma step_total depth w a :
  runnable depth w ->
  In a (_actors (stage w)) ->
  exists r w', step depth a w = inr (r, w').
Proof.
  intros (Hd & _ & Hlen) Hin. unfold step.
  destruct (class_ (objs w a)) eqn:Hc; try (unfold Actor_step, ret; eauto).
  - destruct (KeyboardPlayer_step_total depth w a Hin Hlen) as (w' & -> & _).
    eauto.
  - apply Monster_step_total; auto.
Qed.

Lemma runnable_evolves depth w w' :
  evolves w w' -> runnable depth w -> runnable depth w'.
Proof.
  intros (_ & _ & Hp & _ & Hl & Ho) (Hd & (p & Hpl & Hpc) & Hlen).
  split; [|split].
  - intros r Hc. destruct (Ho r) as (Ec & Ed & _).
    rewrite Ed. apply Hd. congruence.
  - exists p. split; [congruence|].
    destruct (Ho p) as (Ec & _). now rewrite Ec.
  - lia.
Qed.

Lemma Stage_step_loop_total depth budget i w :
  runnable depth w ->
  (1 <= budget)%nat ->
  (length (_actors (stage w)) < budget + i)%nat ->
  exists l w', Stage_step_loop depth budget i w = inr (l, w').
Proof.
  revert i w. induction budget as [|b IH]; intros i w Hr Hb Hlen; [lia|].
  rewrite Stage_step_loop_S.
  destruct (nth_error (_actors (stage w)) i) as [a|] eqn:Hi; [|eauto].
  assert (Hi' : (i < length (_actors (stage w)))%nat).
  { apply nth_error_Some. congruence. }
  destruct (step_total depth w a Hr (nth_error_In _ _ Hi)) as (r & w1 & Hs).
  rewrite Hs.
  pose proof (evolves_step _ _ _ _ _ Hs) as He.
  pose proof He as (_ & _ & _ & _ & Hl & _).
  destruct (IH (S i) w1) as (l & w2 & ->); [|lia|lia|eauto].
  eapply runnable_evolves; eassumption.
Qed.

Lemma Stage_step_total depth w :
  runnable depth w -> exists w', Stage_step depth w = inr (tt, w').
Proof.
  intros Hr. unfold Stage_step, Stage_step_trace.
  unfold bind at 1. unfold bind at 1. unfold gets at 1.
  destruct (Stage_step_loop_total depth (S (length (_actors (stage w)))) 0 w Hr)
    as (l & w' & ->); [lia|lia|].
  unfold ret. eauto.
Qed.

Lemma deliver_total depth events w :
  runnable depth w ->
  exists w', deliver events w = inr (tt, w') /\ runnable depth w'.
Proof.
  revert w. induction events as [|e es IH]; intros w Hr; simpl.
  - unfold ret. eauto.
  - assert (He : exists w1, player_event e w = inr (tt, w1)).
    { destruct Hr as (_ & (p & Hp & Hc) & _).
      unfold player_event, handle_event. run. rewrite Hp.
      destruct (class_ (objs w p)); try discriminate.
      - unfold Player_handle_event, ret. eauto.
      - unfold KeyboardPlayer_handle_event, modify. eauto. }
    destruct He as (w1 & He). unfold bind. rewrite He.
    apply IH. eapply runnable_evolves; [|exact Hr].
    eapply evolves_player_event. exact He.
Qed.

(** The game loop ends every round normally. *)
Lemma play_total depth rounds w :
  runnable depth w ->
  exists w', play depth rounds w = inr (tt, w').
Proof.
  revert w. induction rounds as [|events rest IH]; intros w Hr; simpl.
  - unfold ret. eauto.
  - destruct (deliver_total depth events w Hr) as (w1 & Hd & Hr1).
    destruct (Stage_step_total depth w1 Hr1) as (w2 & Hs).
    unfold bind, tick, bind. rewrite Hd, Hs.
    apply IH. eapply runnable_evolves; [|exact Hr1].
    eapply evolves_Stage_step. exact Hs.
Qed.

(** * The claims *)

(** ** C1, C2: a Monster at the edge of the stage *)

(** C1.  A 3 x 3 stage whose only actor is a Monster at (2,0): every
    actor is within bounds, and after one [Stage.step] the Monster, still
    on the stage, is at (3,1), outside the bounds. *)
Theorem Stage_step_leaves_bounds (depth : nat) :
  all_in_bounds w_east_edge = true
  /\ exists w',
       Stage_step depth w_east_edge = inr (tt, w')
       /\ _actors (stage w') = [0%nat]
       /\ position w' 0 = (3, 1)
       /\ all_in_bounds w' = false.
Proof.
  split; [reflexivity|].
  eexists. split; [reflexivity|]. repeat split.
Qed.

(** C2.  A Monster at (2,0) on a 3 x 3 stage, heading (1,1): its
    destination (3,1) is outside the stage in x, inside in y, and empty.
    Its step reverses the x-component of the heading and keeps the
    y-component, but relocates the Monster to (3,1). *)
Theorem Monster_bounce_x_relocates (depth : nat) :
  is_in_bounds_x (stage w_east_edge) 3 = false
  /\ is_in_bounds_y (stage w_east_edge) 1 = true
  /\ get_actor w_east_edge 3 1 = None
  /\ position w_east_edge 0 = (2, 0)
  /\ heading w_east_edge 0 = (1, 1)
  /\ exists w',
       step depth 0 w_east_edge = inr (True_, w')
       /\ heading w' 0 = (-1, 1)
       /\ position w' 0 = (3, 1).
Proof.
  repeat (split; [reflexivity|]).
  eexists. split; [reflexivity|]. split; reflexivity.
Qed.

(** ** C3: chains of boxes *)

(** C3 as stated fails here.  A Box and a sticky box behind it, pushed
    east, with a Monster in the cell past the sticky box: that cell is
    not empty, and yet the request returns [True], the Box is one cell
    further, and so is the sticky box, now on the Monster's cell. *)
Lemma Box_chain_pushes_sticky_onto_Monster :
  get_actor w_box_sticky_Monster 1 0 = Some 1%nat
  /\ class_ (objs w_box_sticky_Monster 1) = Box
  /\ get_actor w_box_sticky_Monster 2 0 = Some 2%nat
  /\ class_ (objs w_box_sticky_Monster 2) = sticky
  /\ get_actor w_box_sticky_Monster 3 0 = Some 3%nat
  /\ class_ (objs w_box_sticky_Monster 3) = Monster
  /\ free w_box_sticky_Monster 3 0 = false
  /\ exists w',
       move 2 1 0 1 0 w_box_sticky_Monster = inr (True_, w')
       /\ position w' 1 = (2, 0)
       /\ position w' 2 = (3, 0).
Proof.
  repeat (split; [reflexivity|]).
  eexists. split; [vm_compute; reflexivity|]. split; reflexivity.
Qed.

(** C3, amended.  A chain of N boxes of the class [Box] itself, each alone
    in its cell, with neither a Box nor a sticky box in the cell past the
    last one, asked to move along the chain with a call depth of at
    least N.  The request ends normally.  Every box of the chain is one
    cell further exactly when the cell past the last box is on the stage
    and empty; then the request returns [True] and nothing else has
    changed.  Otherwise it returns [False] and the world is the one
    before the request. *)
Theorem Box_chain_moves_together
    (depth : nat) (w : World) (other b : ref) (bs : list ref)
    (x y dx dy : Z) :
  (dx, dy) <> (0, 0) ->
  chain w x y dx dy (b :: bs) ->
  (length (b :: bs) <= depth)%nat ->
  let px := x + Z.of_nat (length (b :: bs)) * dx in
  let py := y + Z.of_nat (length (b :: bs)) * dy in
  (forall c, get_actor w px py = Some c ->
             subclass (class_ (objs w c)) Box = false) ->
  exists r w',
    move depth b other dx dy w = inr (r, w')
    /\ (Forall (fun a => position w' a
                         = (_x (objs w a) + dx, _y (objs w a) + dy)) (b :: bs)
        <-> free w px py = true)
    /\ (free w px py = true ->
        r = True_
        /\ (forall a, objs w' a = shifted w (b :: bs) dx dy a)
        /\ stage w' = stage w)
    /\ (free w px py = false -> r = False_ /\ w' = w).
Proof.
  intros Hd Hch Hlen px py Hpast.
  pose proof (Box_move_chain depth w other b bs x y dx dy px py
                Hd Hch Hlen eq_refl eq_refl Hpast) as H.
  destruct (free w px py) eqn:Hf.
  - destruct H as (w' & Hm & Ho & Hst & _).
    exists True_, w'. split; [exact Hm|]. split; [|split].
    + split; [reflexivity|]. intros _. apply Forall_forall. intros a Ha.
      unfold position. rewrite Ho. unfold shifted.
      apply mem_In in Ha. rewrite Ha. reflexivity.
    + auto.
    + discriminate.
  - exists False_, w. split; [exact H|]. split; [|split].
    + split; [|discriminate]. intros HF. exfalso.
      apply Forall_inv in HF. unfold position in HF.
      apply Hd. injection HF as Ex Ey. f_equal; lia.
    + discriminate.
    + auto.
Qed.

Lemma Box_chain_moves_together_witness :
  let w := world_of [new_KeyboardPlayer 0 0; new_Box 1 0; new_Box 2 0]
                    (Some 0%nat) 5 5 in
  exists r w',
    move 2 1 0 1 0 w = inr (r, w')
    /\ (Forall (fun a => position w' a
                         = (_x (objs w a) + 1, _y (objs w a) + 0)) [1; 2]%nat
        <-> free w 3 0 = true)
    /\ (free w 3 0 = true ->
        r = True_
        /\ (forall a, objs w' a = shifted w [1; 2]%nat 1 0 a)
        /\ stage w' = stage w)
    /\ (free w 3 0 = false -> r = False_ /\ w' = w).
Proof.
  intros w.
  apply (Box_chain_moves_together 2 w 0 1 [2%nat] 1 0 1 0).
  - discriminate.
  - simpl. split; [reflexivity|]. split; [now apply sole_occupantb_true|].
    split; [reflexivity|]. split; [now apply sole_occupantb_true|]. exact I.
  - simpl. lia.
  - simpl. discriminate.
Defined.

(** ** C4: Stage.step while the list of actors shrinks *)

(** C4.  The player, first in the list, steps into a Monster and removes
    itself; the list shifts under the index of the loop, and the Monster
    that was second is not stepped in this pass: the actors stepped are
    the first and the third, and the second Monster, which acts on every
    tick and has a free destination, has not moved, while the third
    has. *)
Theorem Stage_step_skips_after_removal (depth : nat) :
  _actors (stage w_player_first) = [0; 1; 2]%nat
  /\ exists w',
       Stage_step_trace depth w_player_first = inr ([0; 2]%nat, w')
       /\ _actors (stage w') = [1; 2]%nat
       /\ position w_player_first 1 = (1, 0) /\ position w' 1 = (1, 0)
       /\ position w_player_first 2 = (3, 3) /\ position w' 2 = (4, 4).
Proof.
  split; [reflexivity|].
  eexists. split; [reflexivity|]. repeat split.
Qed.

(** ** C5: a sticky box pushed onto a Monster *)

(** C5.  A sticky box at (1,0) asked to move east onto a Monster at
    (2,0).  With the Monster before the box in the list of actors, the
    box ends on the Monster's cell and the Monster is flagged, but the
    call returns [None], not [True].  With the box before the Monster in
    the list, the box is what [get_actor] finds in the cell after the
    relocation: the flag is set on the box and the Monster's stays
    [False]. *)
Theorem sticky_move_returns_None (depth : nat) (other : ref) :
  (get_actor w_sticky_after 2 0 = Some 0%nat
   /\ class_ (objs w_sticky_after 0) = Monster
   /\ exists w',
        move (S depth) 1 other 1 0 w_sticky_after = inr (None, w')
        /\ position w' 1 = (2, 0)
        /\ inside_sticky (objs w' 0) = true)
  /\ (get_actor w_sticky_before 2 0 = Some 1%nat
      /\ class_ (objs w_sticky_before 1) = Monster
      /\ exists w',
           move (S depth) 0 other 1 0 w_sticky_before = inr (None, w')
           /\ position w' 0 = (2, 0)
           /\ inside_sticky (objs w' 1) = false
           /\ inside_sticky (objs w' 0) = true).
Proof.
  split.
  - split; [reflexivity|]. split; [reflexivity|].
    eexists. split; [vm_compute; reflexivity|]. split; reflexivity.
  - split; [reflexivity|]. split; [reflexivity|].
    eexists. split; [vm_compute; reflexivity|]. repeat split.
Qed.

(** ** C6: an ensnared Monster *)

(** C6.  A Monster whose [inside_sticky] flag is set: whatever its delay
    counter holds, its [step] runs through to the call of [move] and
    returns [True] (a delayed step returns [None]), leaves it where it is
    and leaves the flag set.  However many rounds of the game loop
    follow, with whatever key events, the Monster keeps its position and
    its flag; and the rounds do end normally in a runnable world. *)
Theorem ensnared_Monster_stays (w : World) (m : ref) :
  class_ (objs w m) = Monster ->
  inside_sticky (objs w m) = true ->
  (forall depth, _delay (objs w m) <> 0 -> In m (_actors (stage w)) ->
     exists w', step depth m w = inr (True_, w')
                /\ position w' m = position w m
                /\ inside_sticky (objs w' m) = true)
  /\ (forall depth rounds w',
        play depth rounds w = inr (tt, w') ->
        position w' m = position w m
        /\ inside_sticky (objs w' m) = true)
  /\ (forall depth rounds,
        runnable depth w ->
        exists w', play depth rounds w = inr (tt, w')).
Proof.
  intros Hc Hs. split; [|split].
  - intros depth Hd Hin. unfold step. rewrite Hc.
    destruct (Monster_step_ensnared w m Hs Hd Hin) as (w' & -> & Ho).
    exists w'. split; [reflexivity|].
    unfold position. rewrite Ho, update_same. simpl. auto.
  - intros depth rounds w' H.
    apply evolves_play in H. destruct H as (_ & _ & _ & _ & _ & Ho).
    destruct (Ho m) as (_ & _ & Hs' & Hp).
    destruct (Hp Hc Hs) as [Ex Ey].
    unfold position. rewrite Ex, Ey. auto.
  - intros depth rounds Hr. now apply play_total.
Qed.

Lemma ensnared_Monster_stays_witness :
  exists w', step 0 0 w_ensnared = inr (True_, w')
             /\ position w' 0 = position w_ensnared 0
             /\ inside_sticky (objs w' 0) = true.
Proof.
  apply (proj1 (ensnared_Monster_stays w_ensnared 0 eq_refl eq_refl) 0%nat).
  - discriminate.
  - simpl. auto.
Defined.

(** ** C7: a Monster that dies *)

(** C7.  A Monster with an actor in each of the eight cells around it.
    [Stage.step] removes it from the stage, but its step goes on after
    the removal.  With a delay factor of 5 its delay counter has gone
    from 0 to 1.  With a delay factor of 1 it has attempted its move: its
    heading is reversed, and the player, who stood in its destination,
    has been removed from the stage and marked dead by it. *)
Theorem dead_Monster_keeps_going (depth : nat) :
  (surrounded w_surrounded 1 1 = true
   /\ _delay_count (objs w_surrounded 0) = 0
   /\ exists w',
        Stage_step depth w_surrounded = inr (tt, w')
        /\ ~ In 0%nat (_actors (stage w'))
        /\ _delay_count (objs w' 0) = 1)
  /\ (surrounded w_dying 1 1 = true
      /\ heading w_dying 1 = (1, 1)
      /\ In 0%nat (_actors (stage w_dying))
      /\ _last_event (objs w_dying 0) = None
      /\ exists w',
           Stage_step depth w_dying = inr (tt, w')
           /\ ~ In 1%nat (_actors (stage w'))
           /\ heading w' 1 = (-1, -1)
           /\ ~ In 0%nat (_actors (stage w'))
           /\ is_dead (objs w' 0) = Some true).
Proof.
  split.
  - split; [reflexivity|]. split; [reflexivity|].
    eexists. split; [reflexivity|]. split; [|reflexivity].
    simpl. intuition discriminate.
  - split; [reflexivity|]. split; [reflexivity|].
    split; [simpl; auto|]. split; [reflexivity|].
    eexists. split; [reflexivity|].
    split; [simpl; intuition discriminate|]. split; [reflexivity|].
    split; [simpl; intuition discriminate|reflexivity].
Qed.

(** ** C8: the player steps into a Monster *)

(** C8.  A KeyboardPlayer on the stage whose buffered key leads to a cell
    where [get_actor] finds a Monster: its [step] ends normally, the
    player's [is_dead] is [True], the player is no longer in the list of
    actors, so that [get_actor] returns it for no cell, then and after
    any further rounds of the game loop, and its position is the one it
    had. *)
Theorem KeyboardPlayer_steps_into_Monster
    (depth : nat) (w : World) (p m : ref) (event dx dy : Z) :
  class_ (objs w p) = KeyboardPlayer ->
  _last_event (objs w p) = Some event ->
  key_direction event = Some (dx, dy) ->
  get_actor w (_x (objs w p) + dx) (_y (objs w p) + dy) = Some m ->
  class_ (objs w m) = Monster ->
  NoDup (_actors (stage w)) ->
  In p (_actors (stage w)) ->
  exists w',
    step depth p w = inr (None, w')
    /\ is_dead (objs w' p) = Some true
    /\ ~ In p (_actors (stage w'))
    /\ (forall x y, get_actor w' x y <> Some p)
    /\ (forall rounds w'' x y,
          play depth rounds w' = inr (tt, w'') -> get_actor w'' x y <> Some p)
    /\ position w' p = position w p.
Proof.
  intros Hc He Hk Hg Hm Hnd Hin.
  destruct (list_remove_In _ _ Hin) as [l' Hl].
  pose proof (list_remove_NoDup _ _ _ Hnd Hl) as Hnin.
  exists (set_obj p (fun o => with_last_event o None)
            (set_actors l' (set_obj p (fun o => with_is_dead o true) w))).
  split; [|split; [|split; [|split; [|split]]]].
  - unfold step. rewrite Hc.
    unfold KeyboardPlayer_step, KeyboardPlayer_move, remove_actor. run.
    rewrite He, Hk. simpl. rewrite Hg, andb_false_r. simpl.
    rewrite Hg. unfold isinstance. rewrite Hm. simpl. rewrite Hl. reflexivity.
  - simpl. rewrite !update_same. reflexivity.
  - exact Hnin.
  - intros x y H. apply first_at_In in H. exact (Hnin H).
  - intros rounds w'' x y Hplay H. apply first_at_In in H.
    apply evolves_play in Hplay. destruct Hplay as (_ & _ & _ & Hi & _).
    exact (Hnin (Hi _ H)).
  - unfold position. simpl. rewrite !update_same. reflexivity.
Qed.

Lemma KeyboardPlayer_steps_into_Monster_witness :
  let w := world_of [with_last_event (new_KeyboardPlayer 0 0) (Some pygame.K_d);
                     new_Monster 1 0 5] (Some 0%nat) 3 3 in
  exists w',
    step 0 0 w = inr (None, w')
    /\ is_dead (objs w' 0) = Some true
    /\ ~ In 0%nat (_actors (stage w'))
    /\ (forall x y, get_actor w' x y <> Some 0%nat)
    /\ (forall rounds w'' x y,
          play 0 rounds w' = inr (tt, w'') -> get_actor w'' x y <> Some 0%nat)
    /\ position w' 0 = position w 0.
Proof.
  intros w.
  apply (KeyboardPlayer_steps_into_Monster 0 w 0 1 pygame.K_d 1 0);
    try reflexivity.
  - repeat constructor; simpl; intuition discriminate.
  - simpl. auto.
Defined.

(** ** C9: the event buffer of the player *)

(** C9.  The player [p] of the stage, with enough call depth for the
    pushes of its step.  After any sequence of key events the world is
    the one that the last event alone leaves: earlier events have no
    trace.  The step that follows acts on that last event: it is the call
    of [move] in the direction of its key, if it has one, and then the
    clearing of the buffer.  So the player ends in the cell that the last
    key points to when that cell is on the stage and empty, whatever keys
    came before; when the move fails, the cell being off the stage or
    held by an actor that is neither a Monster nor a Box, nothing but the
    buffer changes.  The step ends normally with the buffer empty,
    whether or not the player has moved, and a further step without a new
    event changes nothing. *)
Theorem KeyboardPlayer_last_event_once (depth : nat) (w : World) (p : ref) :
  class_ (objs w p) = KeyboardPlayer ->
  _player (stage w) = Some p ->
  In p (_actors (stage w)) ->
  (length (_actors (stage w)) < depth)%nat ->
  (forall es e,
     deliver (es ++ [e]) w
     = inr (tt, set_obj p (fun o => with_last_event o (Some e)) w))
  /\ (forall es e, tick depth (es ++ [e]) w = tick depth [e] w)
  /\ (exists w',
        step depth p w = inr (None, w')
        /\ _last_event (objs w' p) = None
        /\ step depth p w' = inr (None, w'))
  /\ (forall es e,
        (deliver (es ++ [e]) ;; step depth p) w
        = match key_direction e with
          | Some (dx, dy) =>
              (KeyboardPlayer_handle_event p e ;;
               KeyboardPlayer_move (move depth) p p dx dy ;;
               modify (set_obj p (fun o => with_last_event o None)) ;;
               ret None) w
          | None => inr (None, set_obj p (fun o => with_last_event o None) w)
          end)
  /\ (forall es e dx dy,
        key_direction e = Some (dx, dy) ->
        free w (_x (objs w p) + dx) (_y (objs w p) + dy) = true ->
        exists w',
          (deliver (es ++ [e]) ;; step depth p) w = inr (None, w')
          /\ position w' p = (_x (objs w p) + dx, _y (objs w p) + dy)
          /\ _last_event (objs w' p) = None
          /\ (forall a, a <> p -> objs w' a = objs w a)
          /\ stage w' = stage w)
  /\ (forall es e dx dy,
        key_direction e = Some (dx, dy) ->
        free w (_x (objs w p) + dx) (_y (objs w p) + dy) = false ->
        (forall c,
           get_actor w (_x (objs w p) + dx) (_y (objs w p) + dy) = Some c ->
           subclass (class_ (objs w c)) Monster = false
           /\ subclass (class_ (objs w c)) Box = false) ->
        (deliver (es ++ [e]) ;; step depth p) w
        = inr (None, set_obj p (fun o => with_last_event o None) w))
  /\ (forall es e,
        exists w',
          (deliver (es ++ [e]) ;; step depth p) w = inr (None, w')
          /\ _last_event (objs w' p) = None
          /\ step depth p w' = inr (None, w')).
Proof.
  intros Hc Hp Hin Hlen.
  assert (Hagain : forall w0,
            class_ (objs w0 p) = KeyboardPlayer ->
            In p (_actors (stage w0)) ->
            (length (_actors (stage w0)) < depth)%nat ->
            exists w', step depth p w0 = inr (None, w')
                       /\ _last_event (objs w' p) = None
                       /\ step depth p w' = inr (None, w')).
  { intros w0 Hc0 Hin0 Hlen0.
    destruct (KeyboardPlayer_step_total depth w0 p Hin0 Hlen0) as (w' & Hs & He).
    exists w'. unfold step. rewrite Hc0. split; [exact Hs|]. split; [exact He|].
    assert (Hc' : class_ (objs w' p) = KeyboardPlayer).
    { rewrite <- Hc0. apply evolves_class.
      eapply evolves_KeyboardPlayer_step; [apply evolves_move| |exact Hs].
      congruence. }
    rewrite Hc'. unfold KeyboardPlayer_step. run. now rewrite He. }
  assert (Hrun : forall es e,
            (deliver (es ++ [e]) ;; step depth p) w
            = step depth p (set_obj p (fun o => with_last_event o (Some e)) w)).
  { intros es e. unfold bind. now rewrite (deliver_last w p es e Hc Hp). }
  split; [|split; [|split; [|split; [|split; [|split]]]]].
  - intros es e. now apply deliver_last.
  - intros es e. unfold tick, bind.
    rewrite (deliver_last w p es e Hc Hp).
    change [e] with ([] ++ [e]). rewrite (deliver_last w p [] e Hc Hp).
    reflexivity.
  - now apply Hagain.
  - intros es e. rewrite Hrun, (step_buffered depth w p e Hc).
    destruct (key_direction e) as [[dx dy]|]; reflexivity.
  - intros es e dx dy Hk Hf.
    rewrite Hrun, (step_buffered depth w p e Hc), Hk.
    unfold KeyboardPlayer_move. mrun. cbn [objs stage set_obj].
    rewrite !update_same. cbn [_x _y with_last_event].
    rewrite get_actor_buffered.
    fold (free w (_x (objs w p) + dx) (_y (objs w p) + dy)). rewrite Hf.
    cbv beta iota.
    eexists. split; [reflexivity|]. unfold position. cbn [objs stage set_obj].
    rewrite !update_same. cbn. split; [reflexivity|]. split; [reflexivity|].
    split; [|reflexivity].
    intros a Ha. now rewrite !update_other by exact Ha.
  - intros es e dx dy Hk Hf Hocc.
    rewrite Hrun, (step_buffered depth w p e Hc), Hk.
    unfold KeyboardPlayer_move. mrun. cbn [objs stage set_obj].
    rewrite !update_same. cbn [_x _y with_last_event].
    rewrite !get_actor_buffered.
    fold (free w (_x (objs w p) + dx) (_y (objs w p) + dy)). rewrite Hf.
    cbv beta iota.
    assert (Hno : forall C, (C = Monster \/ C = Box) ->
              negb (is_None (get_actor w (_x (objs w p) + dx)
                               (_y (objs w p) + dy)))
              && isinstance
                   (set_obj p (fun o => with_last_event o (Some e)) w)
                   (get_actor w (_x (objs w p) + dx) (_y (objs w p) + dy)) C
              = false).
    { intros C HC.
      destruct (get_actor w _ _) as [c|]; [|reflexivity].
      destruct (Hocc c eq_refl) as [Hm Hb]. unfold isinstance.
      cbn [objs set_obj]. unfold update.
      destruct (Nat.eqb_spec c p) as [->|_].
      - cbn [class_ with_last_event].
        destruct HC as [->| ->]; [now rewrite Hm|now rewrite Hb].
      - destruct HC as [->| ->]; [now rewrite Hm|now rewrite Hb]. }
    rewrite ?get_actor_buffered, (Hno Monster) by auto. cbv beta iota.
    rewrite ?get_actor_buffered, (Hno Box) by auto. cbv beta iota.
    now rewrite set_last_event_twice.
  - intros es e. rewrite Hrun. apply Hagain.
    + cbn [objs set_obj]. now rewrite update_same.
    + exact Hin.
    + exact Hlen.
Qed.

Lemma KeyboardPlayer_last_event_once_witness :
  let w := world_of [new_KeyboardPlayer 0 0; new_Wall 1 0] (Some 0%nat) 3 3 in
  let p := 0%nat in
  (forall es e,
     deliver (es ++ [e]) w
     = inr (tt, set_obj p (fun o => with_last_event o (Some e)) w))
  /\ (forall es e, tick 3 (es ++ [e]) w = tick 3 [e] w)
  /\ (exists w',
        step 3 p w = inr (None, w')
        /\ _last_event (objs w' p) = None
        /\ step 3 p w' = inr (None, w'))
  /\ (forall es e,
        (deliver (es ++ [e]) ;; step 3 p) w
        = match key_direction e with
          | Some (dx, dy) =>
              (KeyboardPlayer_handle_event p e ;;
               KeyboardPlayer_move (move 3) p p dx dy ;;
               modify (set_obj p (fun o => with_last_event o None)) ;;
               ret None) w
          | None => inr (None, set_obj p (fun o => with_last_event o None) w)
          end)
  /\ (forall es e dx dy,
        key_direction e = Some (dx, dy) ->
        free w (_x (objs w p) + dx) (_y (objs w p) + dy) = true ->
        exists w',
          (deliver (es ++ [e]) ;; step 3 p) w = inr (None, w')
          /\ position w' p = (_x (objs w p) + dx, _y (objs w p) + dy)
          /\ _last_event (objs w' p) = None
          /\ (forall a, a <> p -> objs w' a = objs w a)
          /\ stage w' = stage w)
  /\ (forall es e dx dy,
        key_direction e = Some (dx, dy) ->
        free w (_x (objs w p) + dx) (_y (objs w p) + dy) = false ->
        (forall c,
           get_actor w (_x (objs w p) + dx) (_y (objs w p) + dy) = Some c ->
           subclass (class_ (objs w c)) Monster = false
           /\ subclass (class_ (objs w c)) Box = false) ->
        (deliver (es ++ [e]) ;; step 3 p) w
        = inr (None, set_obj p (fun o => with_last_event o None) w))
  /\ (forall es e,
        exists w',
          (deliver (es ++ [e]) ;; step 3 p) w = inr (None, w')
          /\ _last_event (objs w' p) = None
          /\ step 3 p w' = inr (None, w')).
Proof.
  intros w p.
  apply (KeyboardPlayer_last_event_once 3 w p).
  - reflexivity.
  - reflexivity.
  - simpl. auto.
  - simpl. lia.
Defined.

(** ** C10: the class attribute set by Monster.is_dead *)

(** C10.  When [get_actor] finds an actor in all eight cells around a
    monster, [Monster.is_dead] returns [True] and binds [is_dead] of the
    class [Actor] to [True]: from then on the attribute lookup [r.is_dead]
    of every object that neither is a Monster nor has an instance
    attribute of that name yields [True] instead of the base method.  The
    objects of the store and the stage are as before the check. *)
Theorem Monster_is_dead_sets_class_attribute (w : World) (self : ref) :
  surrounded w (_x (objs w self)) (_y (objs w self)) = true ->
  exists w',
    Monster_is_dead self w = inr (true, w')
    /\ Actor_is_dead w' = Value true
    /\ (forall r, class_ (objs w r) <> Monster -> is_dead (objs w r) = None ->
                  getattr_is_dead w' r = Val true)
    /\ objs w' = objs w
    /\ stage w' = stage w.
Proof.
  intros Hs. exists (set_class_is_dead (Value true) w).
  rewrite Monster_is_dead_eq, Hs. repeat split.
  intros r Hc Hd. unfold getattr_is_dead. simpl. rewrite Hd.
  destruct (class_ (objs w r)); try reflexivity. now elim Hc.
Qed.

Lemma Monster_is_dead_sets_class_attribute_witness :
  exists w',
    Monster_is_dead 0 w_surrounded = inr (true, w')
    /\ Actor_is_dead w' = Value true
    /\ (forall r, class_ (objs w_surrounded r) <> Monster ->
                  is_dead (objs w_surrounded r) = None ->
                  getattr_is_dead w' r = Val true)
    /\ objs w' = objs w_surrounded
    /\ stage w' = stage w_surrounded.
Proof.
  apply (Monster_is_dead_sets_class_attribute w_surrounded 0).
  reflexivity.
Defined.

(** * Further properties *)

(** ** Stage.get_actor, Stage.add_actor, Stage.remove_actor *)

Lemma first_at_split h l x y a :
  first_at h l x y = Some a <->
  exists l1 l2, l = l1 ++ a :: l2
                /\ (_x (h a), _y (h a)) = (x, y)
                /\ forall b, In b l1 -> (_x (h b), _y (h b)) <> (x, y).
Proof.
  induction l as [|c l IH]; simpl.
  - split; [discriminate|]. intros (l1 & l2 & E & _). now destruct l1.
  - destruct (at_position (h c) x y) eqn:Hc; unfold at_position in Hc.
    + apply andb_true_iff in Hc as [Ex Ey].
      apply Z.eqb_eq in Ex. apply Z.eqb_eq in Ey. split.
      * intros H. injection H as <-. exists [], l. simpl.
        split; [reflexivity|]. split; [congruence|]. intros b [].
      * intros (l1 & l2 & E & _ & Hb). destruct l1 as [|c' l1].
        -- simpl in E. congruence.
        -- simpl in E. injection E as <- _. exfalso.
           apply (Hb c); [now left|congruence].
    + assert (Hn : (_x (h c), _y (h c)) <> (x, y)).
      { intros E. injection E as Ex Ey.
        rewrite Ex, Ey, !Z.eqb_refl in Hc. discriminate. }
      rewrite IH. split.
      * intros (l1 & l2 & -> & Ha & Hb). exists (c :: l1), l2.
        split; [reflexivity|]. split; [exact Ha|].
        intros b [<-|Hin]; auto.
      * intros (l1 & l2 & E & Ha & Hb). destruct l1 as [|c' l1].
        -- simpl in E. injection E as -> _. contradiction.
        -- simpl in E. injection E as <- ->. exists l1, l2.
           split; [reflexivity|]. split; [exact Ha|].
           intros b Hin. apply Hb. now right.
Qed.

(** X1.  [get_actor] returns the first actor of the list, in insertion
    order, that stands in the cell, whoever else stands there; it returns
    [None] exactly when no actor of the stage stands in the cell. *)
Theorem get_actor_first (w : World) (x y : Z) :
  (forall a,
     get_actor w x y = Some a <->
     exists l1 l2, _actors (stage w) = l1 ++ a :: l2
                   /\ position w a = (x, y)
                   /\ forall b, In b l1 -> position w b <> (x, y))
  /\ (get_actor w x y = None <->
      forall b, In b (_actors (stage w)) -> position w b <> (x, y)).
Proof.
  split.
  - intros a. apply first_at_split.
  - unfold get_actor. rewrite first_at_None. unfold position. split.
    + intros H b Hb E. injection E as Ex Ey. apply (H b Hb). auto.
    + intros H b Hb [Ex Ey]. apply (H b Hb). congruence.
Qed.

Lemma list_remove_split a l :
  (~ In a l -> list_remove a l = None)
  /\ (forall l1 l2, l = l1 ++ a :: l2 -> ~ In a l1 ->
                    list_remove a l = Some (l1 ++ l2)).
Proof.
  split.
  - induction l as [|b l IH]; simpl; [reflexivity|]. intros H.
    destruct (Nat.eqb_spec b a) as [->|_]; [elim H; now left|].
    rewrite IH; [reflexivity|]. intros Hin. apply H. now right.
  - intros l1. revert l. induction l1 as [|c l1 IH]; intros l l2 -> Hn; simpl.
    + now rewrite Nat.eqb_refl.
    + destruct (Nat.eqb_spec c a) as [->|_]; [elim Hn; now left|].
      rewrite (IH _ l2 eq_refl); [reflexivity|].
      intros Hin. apply Hn. now right.
Qed.

(** X2.  [remove_actor] raises [ValueError] for an actor that is not on
    the stage and changes nothing then; otherwise it takes the first
    occurrence of the actor out of the list, keeps the order of the
    others, and touches nothing else. *)
Theorem remove_actor_first_occurrence (w : World) (a : ref) :
  (remove_actor a w = inl ValueError <-> ~ In a (_actors (stage w)))
  /\ (forall l1 l2,
        _actors (stage w) = l1 ++ a :: l2 -> ~ In a l1 ->
        remove_actor a w = inr (tt, set_actors (l1 ++ l2) w)).
Proof.
  split.
  - unfold remove_actor. run. split.
    + intros H Hin. destruct (list_remove_In _ _ Hin) as [l' E].
      rewrite E in H. discriminate.
    + intros Hn. now rewrite (proj1 (list_remove_split a _) Hn).
  - intros l1 l2 E Hn. unfold remove_actor. run.
    now rewrite (proj2 (list_remove_split a _) l1 l2 E Hn).
Qed.

Lemma set_actors_same w : set_actors (_actors (stage w)) w = w.
Proof. destruct w as [h [l p wd ht] c]. reflexivity. Qed.

(** X3.  Adding an actor that is not on the stage and removing it again
    gives back the world as it was.  When the actor is on the stage
    already, the removal takes its earlier occurrence and leaves the one
    just added, at the end of the list. *)
Theorem add_then_remove_actor (w : World) (a : ref) :
  (~ In a (_actors (stage w)) ->
   (add_actor a ;; remove_actor a) w = inr (tt, w))
  /\ (forall l1 l2,
        _actors (stage w) = l1 ++ a :: l2 -> ~ In a l1 ->
        (add_actor a ;; remove_actor a) w
        = inr (tt, set_actors (l1 ++ l2 ++ [a]) w)).
Proof.
  split.
  - intros Hn. unfold add_actor, remove_actor. run.
    rewrite (proj2 (list_remove_split a _) (_actors (stage w)) [] eq_refl Hn).
    rewrite app_nil_r. simpl.
    destruct w as [h [l p wd ht] c]. reflexivity.
  - intros l1 l2 E Hn. unfold add_actor, remove_actor. run.
    rewrite (proj2 (list_remove_split a _) l1 (l2 ++ [a])); [reflexivity| |exact Hn].
    rewrite E, <- app_assoc. reflexivity.
Qed.

(** ** Stage.set_player, Stage.remove_player *)

(** X4.  [set_player] for an actor that is not on the stage followed by
    [remove_player] leaves the list of actors and the objects as they
    were, with no player recorded.  [remove_player] raises [ValueError]
    when there is no player, and also when the recorded player is no
    longer on the stage. *)
Theorem set_then_remove_player (w : World) (p : ref) :
  (~ In p (_actors (stage w)) ->
   exists w',
     (set_player p ;; remove_player) w = inr (tt, w')
     /\ _actors (stage w') = _actors (stage w)
     /\ _player (stage w') = None
     /\ objs w' = objs w)
  /\ (_player (stage w) = None -> remove_player w = inl ValueError)
  /\ (forall r, _player (stage w) = Some r -> ~ In r (_actors (stage w)) ->
                remove_player w = inl ValueError).
Proof.
  split; [|split].
  - intros Hn. unfold set_player, remove_player, add_actor, remove_actor. run.
    rewrite (proj2 (list_remove_split p _) (_actors (stage w)) [] eq_refl Hn).
    rewrite app_nil_r. simpl. eexists. split; [reflexivity|]. simpl. auto.
  - intros Hp. unfold remove_player. run. now rewrite Hp.
  - intros r Hp Hn. unfold remove_player, remove_actor. run. rewrite Hp.
    simpl. now rewrite (proj1 (list_remove_split r _) Hn).
Qed.

(** ** Actor.delay *)

Lemma delays_spec (n : nat) (self : ref) :
  forall w, _delay (objs w self) <> 0 ->
  exists w',
    delays n self w
    = inr (map (fun k => (_delay_count (objs w self) + Z.of_nat k)
                           mod _delay (objs w self) =? 0) (seq 1 n), w')
    /\ _delay (objs w' self) = _delay (objs w self)
    /\ (forall r, r <> self -> objs w' r = objs w r)
    /\ stage w' = stage w
    /\ ((0 < n)%nat ->
        _delay_count (objs w' self)
        = (_delay_count (objs w self) + Z.of_nat n) mod _delay (objs w self)).
Proof.
  induction n as [|n IH]; intros w Hd.
  - exists w. simpl. unfold ret. repeat split; auto. lia.
  - simpl delays. unfold bind at 1. rewrite delay_eq by exact Hd.
    set (d := _delay (objs w self)) in *.
    set (c := _delay_count (objs w self)) in *.
    set (w1 := set_obj self (fun o => with_delay_count o ((c + 1) mod d)) w).
    assert (Hd1 : _delay (objs w1 self) = d).
    { subst w1. simpl. now rewrite update_same. }
    assert (Hc1 : _delay_count (objs w1 self) = (c + 1) mod d).
    { subst w1. simpl. now rewrite update_same. }
    destruct (IH w1) as (w' & Hr & Hd' & Ho & Hst & Hc').
    { now rewrite Hd1. }
    rewrite Hd1, Hc1 in Hr, Hc'. rewrite Hd1 in Hd'.
    unfold bind. rewrite Hr. exists w'. unfold ret.
    split; [|split; [exact Hd'|split; [|split]]].
    + f_equal. f_equal. cbn [seq map]. f_equal.
      rewrite <- (seq_shift n 1), map_map. apply map_ext. intros k.
      rewrite Z.add_mod_idemp_l by exact Hd. f_equal. f_equal. lia.
    + intros r Hr'. rewrite (Ho r Hr'). subst w1. simpl.
      now apply update_other.
    + rewrite Hst. reflexivity.
    + intros _. destruct n as [|n].
      * simpl in Hr. unfold ret in Hr. injection Hr as <-. rewrite Hc1.
        reflexivity.
      * rewrite Hc' by lia. rewrite Z.add_mod_idemp_l by exact Hd.
        f_equal. lia.
Qed.

(** X5.  An actor with a delay factor [d] other than 0 whose counter is 0,
    as after construction: the k-th call of [delay] returns [True]
    exactly when k is a multiple of [d], and after [n] calls the counter
    is [n mod d]; nothing but the counter changes. *)
Theorem delay_every_dth_call (w : World) (self : ref) (n : nat) :
  _delay (objs w self) <> 0 ->
  _delay_count (objs w self) = 0 ->
  exists w',
    delays n self w
    = inr (map (fun k => Z.of_nat k mod _delay (objs w self) =? 0) (seq 1 n),
           w')
    /\ _delay_count (objs w' self) = Z.of_nat n mod _delay (objs w self)
    /\ (forall r, r <> self -> objs w' r = objs w r)
    /\ stage w' = stage w.
Proof.
  intros Hd Hc.
  destruct (delays_spec n self w Hd) as (w' & Hr & _ & Ho & Hst & Hc').
  rewrite Hc in Hr, Hc'. exists w'. split; [exact Hr|].
  split; [|split; assumption].
  destruct n as [|n].
  - simpl in Hr. unfold ret in Hr. injection Hr as <-. rewrite Hc.
    symmetry. apply Z.mod_0_l. exact Hd.
  - apply Hc'. lia.
Qed.

Lemma delay_every_dth_call_witness :
  exists w',
    delays 7 0 w_surrounded
    = inr (map (fun k => Z.of_nat k mod _delay (objs w_surrounded 0) =? 0)
               (seq 1 7), w')
    /\ _delay_count (objs w' 0) = Z.of_nat 7 mod _delay (objs w_surrounded 0)
    /\ (forall r, r <> 0%nat -> objs w' r = objs w_surrounded r)
    /\ stage w' = stage w_surrounded.
Proof.
  apply (delay_every_dth_call w_surrounded 0 7).
  - discriminate.
  - reflexivity.
Defined.

(** ** KeyboardPlayer.move and KeyboardPlayer.step *)

(** Once the boxes of a chain have each moved on by one cell, the cell of
    the first is empty. *)
Lemma chain_vacated w w1 x y dx dy bs :
  (dx, dy) <> (0, 0) ->
  chain w x y dx dy bs ->
  bs <> [] ->
  (forall a, objs w1 a = shifted w bs dx dy a) ->
  stage w1 = stage w ->
  get_actor w1 x y = None.
Proof.
  intros Hd Hch Hne Ho Hst. unfold get_actor. rewrite first_at_None, Hst.
  intros a Ha [Pax Pay]. rewrite Ho in Pax, Pay. unfold shifted in *.
  destruct (mem a bs) eqn:Hmem.
  - apply mem_In in Hmem.
    destruct (chain_position _ _ _ _ _ _ _ Hch Hmem) as (_ & k & Hk & Eax & Eay).
    simpl in Pax, Pay. apply Hd. f_equal; nia.
  - destruct bs as [|b bs]; [now elim Hne|].
    destruct Hch as (_ & [_ Hu] & _).
    assert (a = b) by (apply Hu; auto). subst a.
    simpl in Hmem. rewrite Nat.eqb_refl in Hmem. discriminate.
Qed.

Lemma KeyboardPlayer_move_push call w p other dx dy t :
  get_actor w (_x (objs w p) + dx) (_y (objs w p) + dy) = Some t ->
  subclass (class_ (objs w t)) Box = true ->
  KeyboardPlayer_move call p other dx dy w =
  match call t p dx dy w with
  | inl e => inl e
  | inr (_, w1) =>
      if is_None (get_actor w1 (_x (objs w p) + dx) (_y (objs w p) + dy))
      then inr (True_, moved p dx dy w1)
      else inr (False_, w1)
  end.
Proof.
  intros Hg Hb. unfold KeyboardPlayer_move. mrun.
  rewrite Hg. cbn [is_None]. rewrite andb_false_r. cbv beta iota.
  rewrite Hg. unfold isinstance.
  assert (Hm : subclass (class_ (objs w t)) Monster = false).
  { destruct (class_ (objs w t)); try discriminate; reflexivity. }
  rewrite Hm. cbn [is_None negb andb]. cbv beta iota.
  rewrite Hg, Hb. cbn [is_None negb andb]. cbv beta iota. rewrite Hg.
  destruct (call t p dx dy w) as [e|[r w1]]; [reflexivity|].
  destruct (is_None _); reflexivity.
Qed.

(** X6.  The player, with a key for the direction [(dx, dy)] buffered,
    facing a chain of boxes with no further box past it: when the cell
    past the chain is on the stage and empty, its step moves the player
    and every box of the chain one cell on and changes no other object;
    otherwise nobody moves.  Either way the buffer is empty afterwards
    and the list of actors is the same. *)
Theorem KeyboardPlayer_pushes_chain
    (depth : nat) (w : World) (p b : ref) (bs : list ref) (event dx dy : Z) :
  class_ (objs w p) = KeyboardPlayer ->
  _last_event (objs w p) = Some event ->
  key_direction event = Some (dx, dy) ->
  chain w (_x (objs w p) + dx) (_y (objs w p) + dy) dx dy (b :: bs) ->
  (length (b :: bs) <= depth)%nat ->
  let px := _x (objs w p) + dx + Z.of_nat (length (b :: bs)) * dx in
  let py := _y (objs w p) + dy + Z.of_nat (length (b :: bs)) * dy in
  (forall c, get_actor w px py = Some c ->
             subclass (class_ (objs w c)) Box = false) ->
  exists w',
    step depth p w = inr (None, w')
    /\ _last_event (objs w' p) = None
    /\ stage w' = stage w
    /\ (forall a, position w' a
                  = if free w px py && mem a (p :: b :: bs)
                    then (_x (objs w a) + dx, _y (objs w a) + dy)
                    else position w a)
    /\ (forall a, mem a (p :: b :: bs) = false -> objs w' a = objs w a).
Proof.
  intros Hc He Hk Hch Hlen px py Hpast.
  pose proof (key_direction_nonzero _ _ _ Hk) as Hd.
  pose proof Hch as (Hcb & Hso & _).
  pose proof (sole_occupant_get_actor _ _ _ _ Hso) as Hg.
  assert (Hpb : forall a, In a (b :: bs) -> a <> p).
  { intros a Ha ->. clear -Hc Hch Ha. revert Hch Ha.
    generalize (_x (objs w p) + dx) (_y (objs w p) + dy).
    induction (b :: bs) as [|c l IH]; intros x y Hch Ha; [contradiction|].
    destruct Hch as (Hcc & _ & Hch). destruct Ha as [->|Ha]; [congruence|].
    eapply IH; eassumption. }
  assert (Hmp : mem p (b :: bs) = false).
  { destruct (mem p (b :: bs)) eqn:E; [|reflexivity].
    apply mem_In in E. now elim (Hpb p E). }
  pose proof (Box_move_chain depth w p b bs _ _ dx dy px py
                Hd Hch Hlen eq_refl eq_refl Hpast) as H.
  unfold step. rewrite Hc. unfold KeyboardPlayer_step.
  unfold bind at 1. unfold gets at 1. rewrite He, Hk.
  unfold bind at 1. unfold bind at 1.
  rewrite (KeyboardPlayer_move_push _ w p p dx dy b Hg)
    by (rewrite Hcb; reflexivity).
  destruct (free w px py) eqn:Hf.
  - destruct H as (w1 & -> & Ho & Hst & _).
    rewrite (chain_vacated w w1 _ _ dx dy (b :: bs) Hd Hch) by (auto; discriminate).
    cbn [is_None]. mrun.
    assert (Hp1 : objs w1 p = objs w p).
    { rewrite Ho. unfold shifted. now rewrite Hmp. }
    eexists. split; [reflexivity|]. unfold moved. cbn [objs stage set_obj].
    split; [now rewrite update_same|]. split; [exact Hst|]. split.
    + intros a. unfold position. cbn [objs set_obj]. rewrite andb_true_l.
      change (mem a (p :: b :: bs)) with (Nat.eqb a p || mem a (b :: bs)).
      destruct (Nat.eqb_spec a p) as [->|Hne].
      * rewrite orb_true_l, !update_same. simpl. rewrite Hp1. reflexivity.
      * rewrite orb_false_l, !update_other by exact Hne.
        rewrite Ho. unfold shifted. destruct (mem a (b :: bs)); reflexivity.
    + intros a Hm. cbn [objs set_obj].
      change (mem a (p :: b :: bs)) with (Nat.eqb a p || mem a (b :: bs)) in Hm.
      apply orb_false_iff in Hm as [Hap Hab]. apply Nat.eqb_neq in Hap.
      rewrite !update_other by exact Hap.
      rewrite Ho. unfold shifted. now rewrite Hab.
  - rewrite H, Hg. cbn [is_None]. mrun.
    eexists. split; [reflexivity|]. unfold moved. cbn [objs stage set_obj].
    split; [now rewrite update_same|]. split; [reflexivity|]. split.
    + intros a. unfold position. cbn [objs set_obj]. rewrite andb_false_l.
      destruct (Nat.eqb_spec a p) as [->|Hne].
      * rewrite update_same. reflexivity.
      * rewrite update_other by exact Hne. reflexivity.
    + intros a Hm. cbn [objs set_obj].
      change (mem a (p :: b :: bs)) with (Nat.eqb a p || mem a (b :: bs)) in Hm.
      apply orb_false_iff in Hm as [Hap Hab]. apply Nat.eqb_neq in Hap.
      now rewrite update_other by exact Hap.
Qed.

Lemma KeyboardPlayer_pushes_chain_witness :
  exists w',
    step 2 0 w_push = inr (None, w')
    /\ _last_event (objs w' 0) = None
    /\ stage w' = stage w_push
    /\ (forall a, position w' a
                  = if free w_push 3 0 && mem a [0; 1; 2]%nat
                    then (_x (objs w_push a) + 1, _y (objs w_push a) + 0)
                    else position w_push a)
    /\ (forall a, mem a [0; 1; 2]%nat = false -> objs w' a = objs w_push a).
Proof.
  refine (KeyboardPlayer_pushes_chain 2 w_push 0 1 [2%nat] pygame.K_d 1 0
            _ _ _ _ _ _).
  - reflexivity.
  - reflexivity.
  - reflexivity.
  - simpl. split; [reflexivity|]. split; [now apply sole_occupantb_true|].
    split; [reflexivity|]. split; [now apply sole_occupantb_true|]. exact I.
  - simpl. lia.
  - simpl. discriminate.
Defined.

(** X7.  The player with a key for the direction [(dx, dy)] buffered.
    When the destination is on the stage and empty, its step moves it
    there.  When the destination is off the stage and empty, or holds an
    actor that is neither a Monster nor a Box (a Wall, say), the player
    stays.  In both cases nothing else changes but the buffer, which is
    empty afterwards. *)
Theorem KeyboardPlayer_step_alone
    (depth : nat) (w : World) (p : ref) (event dx dy : Z) :
  class_ (objs w p) = KeyboardPlayer ->
  _last_event (objs w p) = Some event ->
  key_direction event = Some (dx, dy) ->
  let new_x := _x (objs w p) + dx in
  let new_y := _y (objs w p) + dy in
  (forall c, get_actor w new_x new_y = Some c ->
             subclass (class_ (objs w c)) Monster = false
             /\ subclass (class_ (objs w c)) Box = false) ->
  exists w',
    step depth p w = inr (None, w')
    /\ position w' p = (if free w new_x new_y then (new_x, new_y)
                        else position w p)
    /\ _last_event (objs w' p) = None
    /\ (forall a, a <> p -> objs w' a = objs w a)
    /\ stage w' = stage w.
Proof.
  intros Hc He Hk new_x new_y Hocc.
  unfold step. rewrite Hc. unfold KeyboardPlayer_step, KeyboardPlayer_move.
  mrun. rewrite He, Hk. cbv beta iota. fold new_x new_y.
  fold (free w new_x new_y).
  destruct (free w new_x new_y) eqn:Hf; cbv beta iota.
  - eexists. split; [reflexivity|]. unfold position. cbn [objs stage set_obj].
    rewrite !update_same. cbn. split; [reflexivity|]. split; [reflexivity|].
    split; [|reflexivity].
    intros a Ha. now rewrite !update_other by exact Ha.
  - assert (Hno : forall C, (C = Monster \/ C = Box) ->
                  negb (is_None (get_actor w new_x new_y))
                  && isinstance w (get_actor w new_x new_y) C = false).
    { intros C HC. destruct (get_actor w new_x new_y) as [c|]; [|reflexivity].
      destruct (Hocc c eq_refl) as [Hm Hb]. unfold isinstance.
      destruct HC as [->| ->]; [now rewrite Hm|now rewrite Hb]. }
    rewrite (Hno Monster) by auto. cbv beta iota.
    rewrite (Hno Box) by auto. cbv beta iota.
    eexists. split; [reflexivity|]. unfold position. cbn [objs stage set_obj].
    rewrite !update_same. cbn. split; [reflexivity|]. split; [reflexivity|].
    split; [|reflexivity].
    intros a Ha. now rewrite !update_other by exact Ha.
Qed.

Lemma KeyboardPlayer_step_alone_witness :
  exists w',
    step 0 0 w_corner = inr (None, w')
    /\ position w' 0 = (if free w_corner 3 0 then (3, 0)
                        else position w_corner 0)
    /\ _last_event (objs w' 0) = None
    /\ (forall a, a <> 0%nat -> objs w' a = objs w_corner a)
    /\ stage w' = stage w_corner.
Proof.
  refine (KeyboardPlayer_step_alone 0 w_corner 0 pygame.K_d 1 0 _ _ _ _).
  - reflexivity.
  - reflexivity.
  - reflexivity.
  - intros c H. discriminate H.
Defined.

(** ** Monster.move *)

(** X8.  A roaming Monster whose destination, its position plus its
    heading, is on the stage and empty: [move], called as its step calls
    it, relocates it to the destination and returns [True]; its heading,
    the other objects and the stage are unchanged. *)
Theorem Monster_move_free (w : World) (m : ref) :
  inside_sticky (objs w m) = false ->
  let new_x := _x (objs w m) + _dx (objs w m) in
  let new_y := _y (objs w m) + _dy (objs w m) in
  free w new_x new_y = true ->
  exists w',
    Monster_move m m (_dx (objs w m)) (_dy (objs w m)) w = inr (True_, w')
    /\ position w' m = (new_x, new_y)
    /\ heading w' m = heading w m
    /\ (forall a, a <> m -> objs w' a = objs w a)
    /\ stage w' = stage w.
Proof.
  intros Hs new_x new_y Hf. unfold free, is_in_bounds in Hf.
  apply andb_true_iff in Hf as [Hb Hg].
  apply andb_true_iff in Hb as [Hx Hy].
  unfold Monster_move. rewrite Nat.eqb_refl. cbn [negb].
  unfold bind at 1. unfold gets at 1. unfold bind at 1.
  destruct (Monster_is_dead_frame w m) as (w1 & -> & Ho & Hst).
  rewrite Hs. mrun. fold new_x new_y.
  assert (Hg1 : get_actor w1 new_x new_y = get_actor w new_x new_y).
  { unfold get_actor. now rewrite Ho, Hst. }
  rewrite Hg1.
  destruct (get_actor w new_x new_y); [discriminate|].
  cbv beta iota. rewrite Hst, Hx. cbn [negb is_None orb]. cbv beta iota.
  rewrite Hy. cbn [negb is_None orb]. cbv beta iota.
  eexists. split; [reflexivity|]. unfold position, heading.
  cbn [objs stage set_obj]. rewrite !update_same, Ho. cbn.
  split; [reflexivity|]. split; [reflexivity|]. split; [|exact Hst].
  intros a Ha. rewrite update_other by exact Ha. now rewrite ?Ho.
Qed.

Lemma Monster_move_free_witness :
  exists w',
    Monster_move 0 0 (_dx (objs w_south_edge 0)) (_dy (objs w_south_edge 0))
      (set_obj 0 (fun o => with_position o 0 0) w_south_edge)
    = inr (True_, w')
    /\ position w' 0 = (1, 1)
    /\ heading w' 0 = heading (set_obj 0 (fun o => with_position o 0 0) w_south_edge) 0
    /\ (forall a, a <> 0%nat ->
                  objs w' a
                  = objs (set_obj 0 (fun o => with_position o 0 0) w_south_edge) a)
    /\ stage w' = stage (set_obj 0 (fun o => with_position o 0 0) w_south_edge).
Proof.
  refine (Monster_move_free
            (set_obj 0 (fun o => with_position o 0 0) w_south_edge) 0 _ _);
    reflexivity.
Defined.

(** X9.  A roaming Monster whose destination is empty and off the stage
    in y: [move] leaves it where it is and returns [False]; the
    y-component of its heading is reversed, the x-component is reversed
    exactly when the destination is off the stage in x as well; the other
    objects and the stage are unchanged. *)
Theorem Monster_move_bounce_y (w : World) (m : ref) (dx dy : Z) :
  inside_sticky (objs w m) = false ->
  let new_x := _x (objs w m) + _dx (objs w m) in
  let new_y := _y (objs w m) + _dy (objs w m) in
  get_actor w new_x new_y = None ->
  is_in_bounds_y (stage w) new_y = false ->
  exists w',
    Monster_move m m dx dy w = inr (False_, w')
    /\ position w' m = position w m
    /\ heading w' m
       = ((if is_in_bounds_x (stage w) new_x
           then _dx (objs w m) else - _dx (objs w m)),
          - _dy (objs w m))
    /\ (forall a, a <> m -> objs w' a = objs w a)
    /\ stage w' = stage w.
Proof.
  intros Hs new_x new_y Hg Hy.
  unfold Monster_move. rewrite Nat.eqb_refl. cbn [negb].
  unfold bind at 1. unfold gets at 1. unfold bind at 1.
  destruct (Monster_is_dead_frame w m) as (w1 & -> & Ho & Hst).
  rewrite Hs. mrun. fold new_x new_y.
  assert (Hg1 : get_actor w1 new_x new_y = None).
  { unfold get_actor. rewrite Ho, Hst. exact Hg. }
  rewrite Hg1. cbv beta iota. rewrite Hst, Hy.
  cbn [negb is_None orb]. rewrite orb_false_r.
  destruct (is_in_bounds_x (stage w) new_x); cbn [negb]; cbv beta iota.
  - eexists. split; [reflexivity|]. unfold position, heading.
    cbn [objs stage set_obj]. rewrite !update_same, Ho. cbn.
    split; [reflexivity|]. split; [reflexivity|]. split; [|exact Hst].
    intros a Ha. rewrite update_other by exact Ha. now rewrite ?Ho.
  - eexists. split; [reflexivity|]. unfold position, heading.
    cbn [objs stage set_obj]. rewrite !update_same. cbn.
    rewrite ?update_same, Ho. cbn.
    split; [reflexivity|]. split; [reflexivity|]. split; [|exact Hst].
    intros a Ha. rewrite !update_other by exact Ha. now rewrite ?Ho.
Qed.

Lemma Monster_move_bounce_y_witness :
  exists w',
    Monster_move 0 0 1 1 w_south_edge = inr (False_, w')
    /\ position w' 0 = position w_south_edge 0
    /\ heading w' 0
       = ((if is_in_bounds_x (stage w_south_edge) 1
           then _dx (objs w_south_edge 0) else - _dx (objs w_south_edge 0)),
          - _dy (objs w_south_edge 0))
    /\ (forall a, a <> 0%nat -> objs w' a = objs w_south_edge a)
    /\ stage w' = stage w_south_edge.
Proof.
  refine (Monster_move_bounce_y w_south_edge 0 1 1 _ _ _); reflexivity.
Defined.

(** X10.  A roaming Monster whose destination holds an actor: [move]
    leaves the Monster where it is, reverses both components of its
    heading and returns [False].  When the actor is the KeyboardPlayer it
    is taken off the stage first and its [is_dead] set to [True];
    any other actor is left alone and the stage is unchanged. *)
Theorem Monster_move_occupied (w : World) (m k : ref) (dx dy : Z) :
  class_ (objs w m) = Monster ->
  inside_sticky (objs w m) = false ->
  get_actor w (_x (objs w m) + _dx (objs w m))
              (_y (objs w m) + _dy (objs w m)) = Some k ->
  exists w',
    Monster_move m m dx dy w = inr (False_, w')
    /\ position w' m = position w m
    /\ heading w' m = (- _dx (objs w m), - _dy (objs w m))
    /\ (forall a, a <> m -> a <> k -> objs w' a = objs w a)
    /\ (class_ (objs w k) = KeyboardPlayer ->
        list_remove k (_actors (stage w)) = Some (_actors (stage w'))
        /\ is_dead (objs w' k) = Some true
        /\ position w' k = position w k)
    /\ (class_ (objs w k) <> KeyboardPlayer ->
        stage w' = stage w /\ (k <> m -> objs w' k = objs w k)).
Proof.
  intros Hc Hs Hg.
  unfold Monster_move. rewrite Nat.eqb_refl. cbn [negb].
  unfold bind at 1. unfold gets at 1. unfold bind at 1.
  destruct (Monster_is_dead_frame w m) as (w1 & -> & Ho & Hst).
  rewrite Hs. mrun.
  assert (Hg1 : get_actor w1 (_x (objs w m) + _dx (objs w m))
                  (_y (objs w m) + _dy (objs w m)) = Some k).
  { unfold get_actor. rewrite Ho, Hst. exact Hg. }
  rewrite Hg1. cbv beta iota. cbn [negb is_None].
  unfold isinstance. rewrite Ho.
  destruct (subclass (class_ (objs w k)) KeyboardPlayer) eqn:Hk.
  - assert (Hck : class_ (objs w k) = KeyboardPlayer).
    { destruct (class_ (objs w k)); try discriminate; reflexivity. }
    assert (Hkm : k <> m) by (intros ->; congruence).
    assert (Hin : In k (_actors (stage w1))).
    { eapply first_at_In. exact Hg1. }
    destruct (remove_actor_In w1 k Hin) as (l' & El & ->).
    cbv beta iota. rewrite !orb_true_r. cbv beta iota.
    eexists. split; [reflexivity|]. unfold position, heading.
    cbn [objs stage set_obj set_actors _actors].
    rewrite !update_same. cbn. rewrite ?update_same. cbn.
    rewrite (update_other _ _ _ _ (not_eq_sym Hkm)), Ho.
    split; [reflexivity|]. split; [reflexivity|].
    split; [intros a Ha Hak; now rewrite !update_other by assumption|].
    split.
    + intros _. rewrite <- Hst. split; [exact El|].
      rewrite !(update_other _ _ _ _ Hkm), !update_same. cbn. auto.
    + intros H. now elim H.
  - cbv beta iota. rewrite !orb_true_r. cbv beta iota.
    eexists. split; [reflexivity|]. unfold position, heading.
    cbn [objs stage set_obj set_actors _actors].
    rewrite !update_same. cbn. rewrite ?update_same, Ho. cbn.
    split; [reflexivity|]. split; [reflexivity|].
    split; [intros a Ha _; now rewrite !update_other by exact Ha|].
    split.
    + intros E. rewrite E in Hk. discriminate.
    + intros _. split; [exact Hst|].
      intros Ha. now rewrite !update_other by exact Ha.
Qed.

Lemma Monster_move_occupied_witness :
  exists w',
    Monster_move 0 0 1 1 w_Monster_player = inr (False_, w')
    /\ position w' 0 = position w_Monster_player 0
    /\ heading w' 0 = (- _dx (objs w_Monster_player 0),
                       - _dy (objs w_Monster_player 0))
    /\ (forall a, a <> 0%nat -> a <> 1%nat ->
                  objs w' a = objs w_Monster_player a)
    /\ (class_ (objs w_Monster_player 1) = KeyboardPlayer ->
        list_remove 1 (_actors (stage w_Monster_player))
        = Some (_actors (stage w'))
        /\ is_dead (objs w' 1) = Some true
        /\ position w' 1 = position w_Monster_player 1)
    /\ (class_ (objs w_Monster_player 1) <> KeyboardPlayer ->
        stage w' = stage w_Monster_player
        /\ (1%nat <> 0%nat -> objs w' 1 = objs w_Monster_player 1)).
Proof.
  refine (Monster_move_occupied w_Monster_player 0 1 1 1 _ _ _); reflexivity.
Defined.

(** ** sticky.move *)

(** X11.  A sticky box asked to move into a cell where [get_actor] finds
    a Monster, the box not standing before the Monster in the list of
    actors (wwgame.py adds the Monsters first): the box ends on the
    Monster's cell, the Monster stays there with [inside_sticky] set, no
    other object changes and the stage is the same. *)
Theorem sticky_ensnares_Monster
    (depth : nat) (w : World) (s other m : ref) (dx dy : Z)
    (l1 l2 : list ref) :
  class_ (objs w s) = sticky ->
  class_ (objs w m) = Monster ->
  let new_x := _x (objs w s) + dx in
  let new_y := _y (objs w s) + dy in
  _actors (stage w) = l1 ++ m :: l2 ->
  position w m = (new_x, new_y) ->
  (forall b, In b l1 -> position w b <> (new_x, new_y)) ->
  ~ In s l1 ->
  exists w',
    move (S depth) s other dx dy w = inr (None, w')
    /\ position w' s = (new_x, new_y)
    /\ position w' m = (new_x, new_y)
    /\ inside_sticky (objs w' m) = true
    /\ (forall a, a <> s -> a <> m -> objs w' a = objs w a)
    /\ stage w' = stage w.
Proof.
  intros Hc Hm new_x new_y Hl Hpm Hl1 Hs.
  assert (Hg : get_actor w new_x new_y = Some m).
  { apply first_at_split. eauto. }
  assert (Hms : m <> s) by (intros ->; congruence).
  assert (Hg' : get_actor (moved s dx dy w) new_x new_y = Some m).
  { apply first_at_split. exists l1, l2.
    unfold moved, position. cbn [objs stage set_obj].
    split; [exact Hl|]. split.
    - rewrite (update_other _ _ _ _ Hms). exact Hpm.
    - intros b Hb. rewrite update_other; [now apply Hl1|].
      intros ->. contradiction. }
  simpl move. rewrite Hc. unfold sticky_move. mrun. fold new_x new_y.
  rewrite Hg. unfold isinstance. rewrite Hm. cbn [subclass Class_eqb].
  cbv beta iota. fold (moved s dx dy w). rewrite Hg'.
  eexists. split; [reflexivity|]. unfold position, moved.
  cbn [objs stage set_obj].
  rewrite update_same, !(update_other _ _ _ _ (not_eq_sym Hms)), update_same.
  cbn. rewrite (update_other _ _ _ _ Hms).
  split; [reflexivity|]. split; [exact Hpm|]. split; [reflexivity|].
  split; [|reflexivity].
  intros a Has Ham. now rewrite !update_other by assumption.
Qed.

Lemma sticky_ensnares_Monster_witness :
  exists w',
    move 1 1 0 1 0 w_sticky_after = inr (None, w')
    /\ position w' 1 = (2, 0)
    /\ position w' 0 = (2, 0)
    /\ inside_sticky (objs w' 0) = true
    /\ (forall a, a <> 1%nat -> a <> 0%nat -> objs w' a = objs w_sticky_after a)
    /\ stage w' = stage w_sticky_after.
Proof.
  refine (sticky_ensnares_Monster 0 w_sticky_after 1 0 0 1 0 [] [1%nat]
            _ _ _ _ _ _).
  - reflexivity.
  - reflexivity.
  - reflexivity.
  - reflexivity.
  - intros b [].
  - intros [].
Defined.

(** ** Box.move in the direction (0,0) *)

(** X12.  A Box or sticky box that [get_actor] finds in its own cell,
    asked to move by [(0, 0)], a direction the docstring of [Actor.move]
    allows: it asks itself to move, again and again, and the call ends in
    [RecursionError] at every call depth. *)
Theorem Box_move_zero_never_returns
    (depth : nat) (w : World) (b other : ref) :
  subclass (class_ (objs w b)) Box = true ->
  get_actor w (_x (objs w b)) (_y (objs w b)) = Some b ->
  move depth b other 0 0 w = inl RecursionError.
Proof.
  intros Hb Hg. revert other.
  induction depth as [|d IH]; intros other; [reflexivity|].
  assert (HB : Box_move (move d) b other 0 0 w = inl RecursionError).
  { rewrite (Box_move_push _ w b other 0 0 b).
    - now rewrite IH.
    - now rewrite !Z.add_0_r.
    - exact Hb. }
  simpl move. destruct (class_ (objs w b)) eqn:Hc; try discriminate.
  - exact HB.
  - unfold sticky_move. mrun. rewrite !Z.add_0_r, Hg.
    unfold isinstance. rewrite Hc. cbn [subclass Class_eqb]. cbv beta iota.
    now rewrite HB.
Qed.

Lemma Box_move_zero_never_returns_witness :
  move 1000 1 0 0 0 w_push = inl RecursionError.
Proof.
  apply (Box_move_zero_never_returns 1000 w_push 1 0); reflexivity.
Defined.

(** ** A Monster with delay factor 0 *)

(** X13.  The step of a Monster on the stage whose delay factor is 0
    raises [ZeroDivisionError], from the modulo in [Actor.delay]. *)
Theorem Monster_step_delay_zero (depth : nat) (w : World) (m : ref) :
  class_ (objs w m) = Monster ->
  In m (_actors (stage w)) ->
  _delay (objs w m) = 0 ->
  step depth m w = inl ZeroDivisionError.
Proof.
  intros Hc Hin Hd. unfold step. rewrite Hc. unfold Monster_step.
  unfold bind at 1.
  destruct (Monster_is_dead_frame w m) as (w1 & -> & Ho & Hst).
  assert (Hrm : exists w2, (if surrounded w (_x (objs w m)) (_y (objs w m))
                            then remove_actor m else ret tt) w1 = inr (tt, w2)
                           /\ objs w2 = objs w).
  { destruct (surrounded _ _ _).
    - rewrite <- Hst in Hin.
      destruct (remove_actor_In _ _ Hin) as (l' & _ & ->).
      eexists. split; [reflexivity|exact Ho].
    - eexists. split; [reflexivity|exact Ho]. }
  destruct Hrm as (w2 & Hrm & Ho2).
  unfold bind at 1. rewrite Hrm.
  unfold bind at 1. unfold delay. unfold bind at 1. unfold gets at 1.
  rewrite Ho2, Hd. reflexivity.
Qed.

Lemma Monster_step_delay_zero_witness :
  step 0 0 w_delay_0 = inl ZeroDivisionError.
Proof.
  apply (Monster_step_delay_zero 0 w_delay_0 0).
  - reflexivity.
  - simpl. auto.
  - reflexivity.
Defined.

(** ** The keys *)

(** X14.  The keys of [KeyboardPlayer.step]: every key that has a
    direction moves by at most one cell in x and in y and not by
    [(0, 0)], two different keys never have the same direction, and each
    of the eight directions around a cell has its key. *)
Theorem key_direction_table :
  (forall event dx dy,
     key_direction event = Some (dx, dy) ->
     -1 <= dx <= 1 /\ -1 <= dy <= 1 /\ (dx, dy) <> (0, 0))
  /\ (forall e1 e2 d,
        key_direction e1 = Some d -> key_direction e2 = Some d -> e1 = e2)
  /\ (forall dx dy,
        -1 <= dx <= 1 -> -1 <= dy <= 1 -> (dx, dy) <> (0, 0) ->
        exists event, key_direction event = Some (dx, dy)).
Proof.
  split; [|split].
  - intros event dx dy H. split; [|split].
    + unfold key_direction in H.
      repeat match type of H with context [if ?c then _ else _] =>
               destruct c end; inversion H; lia.
    + unfold key_direction in H.
      repeat match type of H with context [if ?c then _ else _] =>
               destruct c end; inversion H; lia.
    + eapply key_direction_nonzero. exact H.
  - intros e1 e2 d H1 H2. unfold key_direction in H1, H2.
    unfold pygame.K_s, pygame.K_w, pygame.K_d, pygame.K_a, pygame.K_q,
      pygame.K_e, pygame.K_c, pygame.K_z in *.
    repeat match type of H1 with context [if ?a =? ?b then _ else _] =>
             destruct (Z.eqb_spec a b) end;
    repeat match type of H2 with context [if ?a =? ?b then _ else _] =>
             destruct (Z.eqb_spec a b) end;
    subst; try discriminate; try congruence.
  - intros dx dy Hx Hy Hd.
    assert (Ex : dx = -1 \/ dx = 0 \/ dx = 1) by lia.
    assert (Ey : dy = -1 \/ dy = 0 \/ dy = 1) by lia.
    destruct Ex as [->|[->| ->]]; destruct Ey as [->|[->| ->]];
      try (now elim Hd).
    + exists pygame.K_q. reflexivity.
    + exists pygame.K_a. reflexivity.
    + exists pygame.K_z. reflexivity.
    + exists pygame.K_w. reflexivity.
    + exists pygame.K_s. reflexivity.
    + exists pygame.K_e. reflexivity.
    + exists pygame.K_d. reflexivity.
    + exists pygame.K_c. reflexivity.
Qed.

(** ** The methods [move] by cases *)

Lemma Box_move_cases call w b other dx dy :
  let new_x := _x (objs w b) + dx in
  let new_y := _y (objs w b) + dy in
  Box_move call b other dx dy w =
  if free w new_x new_y then inr (True_, moved b dx dy w)
  else
    match get_actor w new_x new_y with
    | Some t =>
        if subclass (class_ (objs w t)) Box then
          match call t b dx dy w with
          | inl e => inl e
          | inr (_, w1) =>
              if is_None (get_actor w1 new_x new_y)
              then inr (True_, moved b dx dy w1)
              else inr (False_, w1)
          end
        else inr (False_, w)
    | None => inr (False_, w)
    end.
Proof.
  intros new_x new_y.
  destruct (free w new_x new_y) eqn:Hf.
  - now apply Box_move_free.
  - destruct (get_actor w new_x new_y) as [t|] eqn:Hg.
    + destruct (subclass (class_ (objs w t)) Box) eqn:Hb.
      * now apply Box_move_push.
      * apply Box_move_blocked; [exact Hf|]. intros c Hc.
        fold new_x new_y in Hc. congruence.
    + apply Box_move_blocked; [exact Hf|]. intros c Hc.
      fold new_x new_y in Hc. congruence.
Qed.

Lemma sticky_move_cases call w s other dx dy :
  let new_x := _x (objs w s) + dx in
  let new_y := _y (objs w s) + dy in
  sticky_move call s other dx dy w =
  if isinstance w (get_actor w new_x new_y) Monster then
    match get_actor (moved s dx dy w) new_x new_y with
    | Some t =>
        inr (None, set_obj t (fun o => with_inside_sticky o true)
                     (moved s dx dy w))
    | None => inl AttributeError
    end
  else
    match Box_move call s other dx dy w with
    | inl e => inl e
    | inr (_, w1) => inr (None, w1)
    end.
Proof.
  intros new_x new_y. unfold sticky_move. mrun. fold new_x new_y.
  destruct (isinstance w (get_actor w new_x new_y) Monster); cbv beta iota.
  - fold (moved s dx dy w).
    destruct (get_actor (moved s dx dy w) new_x new_y); reflexivity.
  - destruct (Box_move call s other dx dy w) as [e|[r w1]]; reflexivity.
Qed.

Lemma KeyboardPlayer_move_cases call w p other dx dy :
  let new_x := _x (objs w p) + dx in
  let new_y := _y (objs w p) + dy in
  KeyboardPlayer_move call p other dx dy w =
  if free w new_x new_y then inr (True_, moved p dx dy w)
  else
    match get_actor w new_x new_y with
    | Some t =>
        if subclass (class_ (objs w t)) Monster then
          match remove_actor p (set_obj p (fun o => with_is_dead o true) w) with
          | inl e => inl e
          | inr (_, w1) => inr (True_, w1)
          end
        else if subclass (class_ (objs w t)) Box then
          match call t p dx dy w with
          | inl e => inl e
          | inr (_, w1) =>
              if is_None (get_actor w1 new_x new_y)
              then inr (True_, moved p dx dy w1)
              else inr (False_, w1)
          end
        else inr (False_, w)
    | None => inr (False_, w)
    end.
Proof.
  intros new_x new_y.
  destruct (free w new_x new_y) eqn:Hf.
  - unfold KeyboardPlayer_move. mrun. fold new_x new_y.
    fold (free w new_x new_y). rewrite Hf. reflexivity.
  - destruct (get_actor w new_x new_y) as [t|] eqn:Hg.
    + destruct (subclass (class_ (objs w t)) Monster) eqn:Hm.
      * unfold KeyboardPlayer_move. mrun. fold new_x new_y.
        fold (free w new_x new_y). rewrite Hf. cbv beta iota.
        rewrite Hg. unfold isinstance. rewrite Hm.
        cbn [negb is_None andb]. cbv beta iota.
        destruct (remove_actor p _) as [e|[u w1]]; reflexivity.
      * destruct (subclass (class_ (objs w t)) Box) eqn:Hb.
        -- now apply KeyboardPlayer_move_push.
        -- unfold KeyboardPlayer_move. mrun. fold new_x new_y.
           fold (free w new_x new_y). rewrite Hf. cbv beta iota.
           rewrite Hg. unfold isinstance. rewrite Hm.
           cbn [negb is_None andb]. cbv beta iota.
           rewrite Hg, Hb. reflexivity.
    + unfold KeyboardPlayer_move. mrun. fold new_x new_y.
      fold (free w new_x new_y). rewrite Hf. cbv beta iota.
      rewrite Hg. cbn [negb is_None andb]. cbv beta iota.
      rewrite Hg. reflexivity.
Qed.

(** ** What a push leaves in place *)

Lemma position_moved_other self dx dy w a :
  a <> self -> position (moved self dx dy w) a = position w a.
Proof.
  intros Ha. unfold position, moved. cbn [objs set_obj].
  now rewrite update_other by exact Ha.
Qed.

Lemma behind_irrefl o dx dy : ~ behind o o dx dy.
Proof. unfold behind. lia. Qed.

(** A push moves nobody who stands behind the actor pushed. *)
Lemma move_Box_frame depth dx dy :
  (dx, dy) <> (0, 0) ->
  forall w t other r w1,
    subclass (class_ (objs w t)) Box = true ->
    move depth t other dx dy w = inr (r, w1) ->
    forall a, behind (objs w a) (objs w t) dx dy ->
              position w1 a = position w a.
Proof.
  intros Hd.
  assert (Hpos : 0 < dx * dx + dy * dy).
  { destruct (Z.eq_dec dx 0) as [->|Hx].
    - destruct (Z.eq_dec dy 0) as [->|Hy]; [now elim Hd|]. nia.
    - nia. }
  induction depth as [|d IH]; intros w t other r w1 Hb H a Ha; [discriminate|].
  assert (Hat : a <> t).
  { intros ->. exact (behind_irrefl _ _ _ Ha). }
  assert (HBox : forall r' w', Box_move (move d) t other dx dy w = inr (r', w') ->
                               position w' a = position w a).
  { intros r' w' HB. rewrite Box_move_cases in HB.
    destruct (free w _ _).
    - injection HB as _ <-. now apply position_moved_other.
    - destruct (get_actor w _ _) as [t'|] eqn:Hg;
        [|injection HB as _ <-; reflexivity].
      destruct (subclass (class_ (objs w t')) Box) eqn:Hb';
        [|injection HB as _ <-; reflexivity].
      destruct (move d t' t dx dy w) as [e|[r2 w2]] eqn:Hcall; [discriminate|].
      assert (E2 : position w2 a = position w a).
      { apply (IH w t' t r2 w2 Hb' Hcall).
        destruct (first_at_position _ _ _ _ _ Hg) as [Ex Ey].
        unfold behind in *. rewrite Ex, Ey. nia. }
      destruct (is_None _); injection HB as _ <-.
      + now rewrite position_moved_other.
      + exact E2. }
  simpl move in H. destruct (class_ (objs w t)) eqn:Hc; try discriminate.
  - eapply HBox. exact H.
  - rewrite sticky_move_cases in H.
    destruct (isinstance w _ Monster).
    + destruct (get_actor (moved t dx dy w) _ _) as [t'|]; [|discriminate].
      injection H as _ <-. rewrite <- (position_moved_other t dx dy w a Hat).
      unfold position. cbn [objs set_obj].
      destruct (Nat.eqb_spec a t') as [->|Hn].
      * rewrite !update_same. reflexivity.
      * rewrite !(update_other _ t' _ a Hn). reflexivity.
    + destruct (Box_move (move d) t other dx dy w) as [e|[r2 w2]] eqn:HB;
        [discriminate|].
      injection H as _ <-. eapply HBox. reflexivity.
Qed.

(** ** The relation [keeps] *)

Lemma sublist_refl l : sublist l l.
Proof.
  induction l as [|a l IH]; [apply sublist_nil|now apply sublist_keep].
Qed.

Lemma sublist_trans l1 l2 l3 : sublist l1 l2 -> sublist l2 l3 -> sublist l1 l3.
Proof.
  intros H12 H23. revert l1 H12.
  induction H23 as [|a l2 l3 H IH|a l2 l3 H IH]; intros l1 H12.
  - exact H12.
  - apply sublist_skip. auto.
  - inversion H12; subst.
    + apply sublist_skip. auto.
    + apply sublist_keep. auto.
Qed.

Lemma sublist_In l' l a : sublist l' l -> In a l' -> In a l.
Proof.
  induction 1 as [|b l' l H IH|b l' l H IH]; simpl; intros Ha.
  - exact Ha.
  - right. auto.
  - destruct Ha as [->|Ha]; [now left|right; auto].
Qed.

Lemma sublist_length l' l : sublist l' l -> (length l' <= length l)%nat.
Proof. induction 1; simpl; lia. Qed.

Lemma sublist_same_length l' l :
  sublist l' l -> length l' = length l -> l' = l.
Proof.
  induction 1 as [|b l' l H IH|b l' l H IH]; simpl; intros E.
  - reflexivity.
  - apply sublist_length in H. lia.
  - f_equal. apply IH. lia.
Qed.

Lemma sublist_NoDup l' l : sublist l' l -> NoDup l -> NoDup l'.
Proof.
  induction 1 as [|b l' l H IH|b l' l H IH]; intros Hn.
  - constructor.
  - inversion Hn; subst. auto.
  - inversion Hn; subst. constructor; [|auto].
    intros Hin. apply H2. eapply sublist_In; eassumption.
Qed.

Lemma list_remove_sublist a l l' : list_remove a l = Some l' -> sublist l' l.
Proof.
  revert l'. induction l as [|b l IH]; simpl; intros l' H; [discriminate|].
  destruct (Nat.eqb b a).
  - injection H as <-. apply sublist_skip. apply sublist_refl.
  - destruct (list_remove a l) as [r|]; [|discriminate].
    injection H as <-. apply sublist_keep. now apply IH.
Qed.

Lemma keeps_refl w : keeps w w.
Proof. split; [apply sublist_refl|]. split; auto. Qed.

Lemma keeps_trans w1 w2 w3 : keeps w1 w2 -> keeps w2 w3 -> keeps w1 w3.
Proof.
  intros (Hs & Hh & Hc) (Hs' & Hh' & Hc'). split; [|split].
  - eapply sublist_trans; eassumption.
  - intros a. destruct (Hh a) as [E1 E2]. destruct (Hh' a) as [E1' E2'].
    split; congruence.
  - auto.
Qed.

(** A world with the same positions and classes, and no more actors. *)
Lemma cells_mono w w' :
  (forall a, In a (_actors (stage w')) -> In a (_actors (stage w))) ->
  (forall a, position w' a = position w a) ->
  (forall a, class_ (objs w' a) = class_ (objs w a)) ->
  cells w -> cells w'.
Proof.
  intros Hi Hp Hc H a b Ha Hb Hab E.
  rewrite !Hp in E. rewrite !Hc. apply H; auto.
Qed.

Lemma keeps_set_obj w r f :
  (forall o, _x (f o) = _x o /\ _y (f o) = _y o /\ class_ (f o) = class_ o
             /\ Z.abs (_dx (f o)) = Z.abs (_dx o)
             /\ Z.abs (_dy (f o)) = Z.abs (_dy o)) ->
  keeps w (set_obj r f w).
Proof.
  intros Hf. split; [apply sublist_refl|]. split.
  - intros a. cbn [objs set_obj]. unfold update.
    destruct (Nat.eqb a r) eqn:E; [|auto].
    apply Nat.eqb_eq in E. subst a.
    destruct (Hf (objs w r)) as (_ & _ & _ & E1 & E2). auto.
  - apply cells_mono; [auto| |].
    + intros a. unfold position. cbn [objs set_obj]. unfold update.
      destruct (Nat.eqb a r) eqn:E; [|reflexivity].
      apply Nat.eqb_eq in E. subst a.
      destruct (Hf (objs w r)) as (E1 & E2 & _). now rewrite E1, E2.
    + intros a. cbn [objs set_obj]. unfold update.
      destruct (Nat.eqb a r) eqn:E; [|reflexivity].
      apply Nat.eqb_eq in E. subst a.
      destruct (Hf (objs w r)) as (_ & _ & E1 & _). exact E1.
Qed.

Lemma keeps_set_actors w l' :
  sublist l' (_actors (stage w)) -> keeps w (set_actors l' w).
Proof.
  intros Hs. split; [exact Hs|]. split; [auto|].
  apply cells_mono; [|reflexivity|reflexivity].
  intros a. cbn. now apply sublist_In.
Qed.

Lemma keeps_set_class_is_dead w v : keeps w (set_class_is_dead v w).
Proof.
  split; [apply sublist_refl|]. split; [auto|].
  apply cells_mono; auto.
Qed.

(** [Actor.move] into a cell where no other actor of the stage stands,
    or by a sticky box. *)
Lemma keeps_moved w self dx dy :
  class_ (objs w self) = sticky
  \/ (forall a, In a (_actors (stage w)) -> a <> self ->
                position w a <> (_x (objs w self) + dx, _y (objs w self) + dy)) ->
  keeps w (moved self dx dy w).
Proof.
  intros H. split; [apply sublist_refl|]. split.
  - intros a. unfold moved. cbn [objs set_obj]. unfold update.
    destruct (Nat.eqb a self) eqn:E; [|auto].
    apply Nat.eqb_eq in E. subst a. cbn. auto.
  - intros Hc a b Ha Hb Hab E.
    assert (Hcl : forall r, class_ (objs (moved self dx dy w) r)
                            = class_ (objs w r)).
    { intros r. unfold moved. cbn [objs set_obj]. unfold update.
      destruct (Nat.eqb r self) eqn:Er; [|reflexivity].
      apply Nat.eqb_eq in Er. now subst r. }
    assert (Hself : position (moved self dx dy w) self
                    = (_x (objs w self) + dx, _y (objs w self) + dy)).
    { unfold position, moved. cbn [objs set_obj]. now rewrite update_same. }
    rewrite !Hcl. cbn [stage moved set_obj] in Ha, Hb.
    destruct (Nat.eq_dec a self) as [->|Has];
      destruct (Nat.eq_dec b self) as [->|Hbs].
    + now elim Hab.
    + destruct H as [H|H]; [now left|].
      rewrite Hself, (position_moved_other _ _ _ _ _ Hbs) in E.
      now elim (H b Hb Hbs).
    + destruct H as [H|H]; [now right|].
      rewrite Hself, (position_moved_other _ _ _ _ _ Has) in E.
      now elim (H a Ha Has).
    + rewrite !position_moved_other in E by assumption. now apply Hc.
Qed.

Lemma get_actor_None_others w x y :
  get_actor w x y = None ->
  forall a, In a (_actors (stage w)) -> position w a <> (x, y).
Proof.
  intros H a Ha E. unfold get_actor in H.
  apply (proj1 (first_at_None _ _ _ _) H a Ha).
  unfold position in E. injection E as Ex Ey. auto.
Qed.

Lemma keeps_remove_actor a : preserves keeps (remove_actor a).
Proof.
  intros w u w' H. unfold remove_actor in H.
  mbind H as l w0 Hl. apply gets_inv in Hl as [-> ->].
  destruct (list_remove a _) as [l'|] eqn:E; [|discriminate].
  apply modify_inv in H as ->. apply keeps_set_actors.
  eapply list_remove_sublist. exact E.
Qed.

Lemma keeps_Monster_is_dead self : preserves keeps (Monster_is_dead self).
Proof.
  intros w b w' H. rewrite Monster_is_dead_eq in H. injection H as _ <-.
  destruct (surrounded _ _ _); [apply keeps_set_class_is_dead|apply keeps_refl].
Qed.

Lemma keeps_delay self : preserves keeps (delay self).
Proof.
  intros w b w' H. unfold delay in H.
  mbind H as o w0 Ho. apply gets_inv in Ho as [-> ->].
  destruct (_delay _ =? 0); [discriminate|].
  mbind H as u w1 Hm. apply modify_inv in Hm as ->.
  mbind H as o' w1 Ho. apply gets_inv in Ho as [-> ->].
  apply ret_inv in H as [_ ->].
  apply keeps_set_obj. intros o. cbn. auto.
Qed.

Lemma keeps_with_dx w r : keeps w (set_obj r (fun o => with_dx o (- _dx o)) w).
Proof.
  apply keeps_set_obj. intros o. cbn. rewrite Z.abs_opp. auto.
Qed.

Lemma keeps_with_dy w r : keeps w (set_obj r (fun o => with_dy o (- _dy o)) w).
Proof.
  apply keeps_set_obj. intros o. cbn. rewrite Z.abs_opp. auto.
Qed.

Lemma keeps_with_is_dead w r :
  keeps w (set_obj r (fun o => with_is_dead o true) w).
Proof. apply keeps_set_obj. intros o. cbn. auto. Qed.

Lemma keeps_with_inside_sticky w r :
  keeps w (set_obj r (fun o => with_inside_sticky o true) w).
Proof. apply keeps_set_obj. intros o. cbn. auto. Qed.

Lemma keeps_with_last_event w r e :
  keeps w (set_obj r (fun o => with_last_event o e) w).
Proof. apply keeps_set_obj. intros o. cbn. auto. Qed.

(** [Monster.move] as [Monster.step] calls it, with the heading of the
    Monster for [(dx, dy)]. *)
Lemma keeps_Monster_move self w r w' :
  Monster_move self self (_dx (objs w self)) (_dy (objs w self)) w
  = inr (r, w') ->
  keeps w w'.
Proof.
  intros H. unfold Monster_move in H. rewrite Nat.eqb_refl in H.
  cbn [negb] in H.
  mbind H as o w0 Ho. apply gets_inv in Ho as [-> ->].
  mbind H as dead w1 Hd.
  pose proof (keeps_Monster_is_dead _ _ _ _ Hd) as K1.
  apply Monster_is_dead_inv in Hd as (_ & Ho1 & Hst1 & _).
  eapply keeps_trans; [exact K1|]. clear K1.
  destruct (inside_sticky (objs w self)).
  { apply ret_inv in H as [_ ->]. apply keeps_refl. }
  mbind H as actor w2 Ha. apply gets_inv in Ha as [-> ->].
  mbind H as kp w2 Hk. apply gets_inv in Hk as [-> ->].
  mbind H as u w2 Hkill.
  destruct (get_actor w1 _ _) as [p|] eqn:Hg.
  - (* the destination is taken: both components bounce *)
    assert (K2 : keeps w1 w2).
    { destruct (isinstance w1 (Some p) KeyboardPlayer).
      - mbind Hkill as u' w3 Hrm. apply keeps_remove_actor in Hrm.
        apply modify_inv in Hkill as ->.
        eapply keeps_trans; [exact Hrm|apply keeps_with_is_dead].
      - apply ret_inv in Hkill as [_ ->]. apply keeps_refl. }
    eapply keeps_trans; [exact K2|]. clear K2.
    mbind H as st w3 Hst. apply gets_inv in Hst as [-> ->].
    mbind H as bounce w3 Hb.
    cbn [is_None negb] in Hb, H. rewrite orb_true_r in Hb, H.
    mbind Hb as u1 w4 Hm. apply modify_inv in Hm as ->.
    apply ret_inv in Hb as [_ ->].
    mbind H as u2 w4 Hm. apply modify_inv in Hm as ->.
    apply ret_inv in H as [_ ->].
    eapply keeps_trans; [apply keeps_with_dx|apply keeps_with_dy].
  - (* the destination is empty *)
    apply ret_inv in Hkill as [_ ->].
    mbind H as st w3 Hst. apply gets_inv in Hst as [-> ->].
    mbind H as bounce w3 Hb.
    cbn [is_None negb] in Hb, H. rewrite orb_false_r in Hb, H.
    assert (K3 : keeps w1 w3 /\ stage w3 = stage w1
                 /\ (forall a, position w3 a = position w1 a)).
    { case_if Hb.
      - mbind Hb as u' w4 Hm. apply modify_inv in Hm as ->.
        apply ret_inv in Hb as [_ ->].
        split; [apply keeps_with_dx|]. split; [reflexivity|].
        intros a. unfold position. cbn [objs set_obj]. unfold update.
        destruct (Nat.eqb_spec a self) as [->|_]; reflexivity.
      - apply ret_inv in Hb as [_ ->].
        split; [apply keeps_refl|]. auto. }
    destruct K3 as (K3 & Hst3 & Hp3).
    eapply keeps_trans; [exact K3|]. clear K3.
    case_if H.
    + mbind H as u' w4 Hm. apply modify_inv in Hm as ->.
      apply ret_inv in H as [_ ->]. apply keeps_with_dy.
    + unfold Actor_move, set_position in H.
      mbind H as o w4 Ho. apply gets_inv in Ho as [-> ->].
      mbind H as u' w4 Hm. apply modify_inv in Hm as ->.
      apply ret_inv in H as [_ ->].
      fold (moved self (_dx (objs w self)) (_dy (objs w self)) w3).
      apply keeps_moved. right. intros a Ha _.
      rewrite Hp3. pose proof (Hp3 self) as Es. unfold position in Es.
      injection Es as Ex Ey. rewrite Ex, Ey, Ho1.
      rewrite Hst3 in Ha.
      exact (get_actor_None_others w1 _ _ Hg a Ha).
Qed.

Lemma keeps_Monster_step self : preserves keeps (Monster_step self).
Proof.
  intros w r w' H. unfold Monster_step in H.
  mbind H as dead w1 Hd. apply keeps_Monster_is_dead in Hd.
  eapply keeps_trans; [exact Hd|]. clear Hd.
  mbind H as u w2 Hrm.
  assert (K2 : keeps w1 w2).
  { destruct dead.
    - eapply keeps_remove_actor; exact Hrm.
    - apply ret_inv in Hrm as [_ ->]. apply keeps_refl. }
  eapply keeps_trans; [exact K2|]. clear K2.
  mbind H as d w3 Hdl. apply keeps_delay in Hdl.
  eapply keeps_trans; [exact Hdl|]. clear Hdl.
  mbind H as o w4 Ho. apply gets_inv in Ho as [-> ->].
  case_if H.
  - apply ret_inv in H as [_ ->]. apply keeps_refl.
  - mbind H as r' w4 Hm. apply ret_inv in H as [_ ->].
    eapply keeps_Monster_move; exact Hm.
Qed.

Lemma free_others w x y :
  free w x y = true ->
  forall a, In a (_actors (stage w)) -> position w a <> (x, y).
Proof.
  unfold free. intros H. apply andb_true_iff in H as [_ H].
  apply get_actor_None_others.
  destruct (get_actor w x y); [discriminate|reflexivity].
Qed.

(** A push by a non-zero [(dx, dy)]. *)
Lemma keeps_move_Box depth dx dy :
  (dx, dy) <> (0, 0) ->
  forall w t other r w1,
    subclass (class_ (objs w t)) Box = true ->
    move depth t other dx dy w = inr (r, w1) ->
    keeps w w1.
Proof.
  intros Hd.
  assert (Hpos : 0 < dx * dx + dy * dy).
  { destruct (Z.eq_dec dx 0) as [->|Hx].
    - destruct (Z.eq_dec dy 0) as [->|Hy]; [now elim Hd|]. nia.
    - nia. }
  induction depth as [|d IH]; intros w t other r w1 Hb H; [discriminate|].
  assert (HBox : forall r' w', Box_move (move d) t other dx dy w = inr (r', w') ->
                               keeps w w').
  { intros r' w' HB. rewrite Box_move_cases in HB.
    destruct (free w _ _) eqn:Hf.
    - injection HB as _ <-. apply keeps_moved. right. intros a Ha _.
      exact (free_others _ _ _ Hf a Ha).
    - destruct (get_actor w _ _) as [t'|] eqn:Hg;
        [|injection HB as _ <-; apply keeps_refl].
      destruct (subclass (class_ (objs w t')) Box) eqn:Hb';
        [|injection HB as _ <-; apply keeps_refl].
      destruct (move d t' t dx dy w) as [e|[r2 w2]] eqn:Hcall; [discriminate|].
      pose proof (IH w t' t r2 w2 Hb' Hcall) as K2.
      assert (E2 : position w2 t = position w t).
      { apply (move_Box_frame d dx dy Hd w t' t r2 w2 Hb' Hcall).
        destruct (first_at_position _ _ _ _ _ Hg) as [Ex Ey].
        unfold behind. rewrite Ex, Ey. nia. }
      destruct (is_None _) eqn:Hn; injection HB as _ <-; [|exact K2].
      eapply keeps_trans; [exact K2|].
      apply keeps_moved. right. intros a Ha _.
      unfold position in E2. injection E2 as -> ->.
      apply get_actor_None_others; [|exact Ha].
      destruct (get_actor w2 _ _); [discriminate|reflexivity]. }
  simpl move in H. destruct (class_ (objs w t)) eqn:Hc; try discriminate.
  - eapply HBox. exact H.
  - rewrite sticky_move_cases in H.
    destruct (isinstance w _ Monster).
    + destruct (get_actor (moved t dx dy w) _ _) as [t'|]; [|discriminate].
      injection H as _ <-.
      eapply keeps_trans; [|apply keeps_with_inside_sticky].
      apply keeps_moved. left. exact Hc.
    + destruct (Box_move (move d) t other dx dy w) as [e|[r2 w2]] eqn:HB;
        [discriminate|].
      injection H as _ <-. eapply HBox. reflexivity.
Qed.

Lemma keeps_KeyboardPlayer_move depth p other dx dy :
  (dx, dy) <> (0, 0) ->
  preserves keeps (KeyboardPlayer_move (move depth) p other dx dy).
Proof.
  intros Hd w r w' H.
  assert (Hpos : 0 < dx * dx + dy * dy).
  { destruct (Z.eq_dec dx 0) as [->|Hx].
    - destruct (Z.eq_dec dy 0) as [->|Hy]; [now elim Hd|]. nia.
    - nia. }
  rewrite KeyboardPlayer_move_cases in H.
  destruct (free w _ _) eqn:Hf.
  - injection H as _ <-. apply keeps_moved. right. intros a Ha _.
    exact (free_others _ _ _ Hf a Ha).
  - destruct (get_actor w _ _) as [t|] eqn:Hg;
      [|injection H as _ <-; apply keeps_refl].
    destruct (subclass (class_ (objs w t)) Monster).
    + destruct (remove_actor p _) as [e|[u w1]] eqn:Hrm; [discriminate|].
      injection H as _ <-.
      eapply keeps_trans; [apply keeps_with_is_dead|].
      eapply keeps_remove_actor. exact Hrm.
    + destruct (subclass (class_ (objs w t)) Box) eqn:Hb;
        [|injection H as _ <-; apply keeps_refl].
      destruct (move depth t p dx dy w) as [e|[r2 w2]] eqn:Hcall; [discriminate|].
      pose proof (keeps_move_Box depth dx dy Hd w t p r2 w2 Hb Hcall) as K2.
      assert (E2 : position w2 p = position w p).
      { apply (move_Box_frame depth dx dy Hd w t p r2 w2 Hb Hcall).
        destruct (first_at_position _ _ _ _ _ Hg) as [Ex Ey].
        unfold behind. rewrite Ex, Ey. nia. }
      destruct (is_None _) eqn:Hn; injection H as _ <-; [|exact K2].
      eapply keeps_trans; [exact K2|].
      apply keeps_moved. right. intros a Ha _.
      unfold position in E2. injection E2 as -> ->.
      apply get_actor_None_others; [|exact Ha].
      destruct (get_actor w2 _ _); [discriminate|reflexivity].
Qed.

Lemma keeps_KeyboardPlayer_step depth p :
  preserves keeps (KeyboardPlayer_step (move depth) p).
Proof.
  intros w r w' H. unfold KeyboardPlayer_step in H.
  mbind H as o w0 Ho. apply gets_inv in Ho as [-> ->].
  destruct (_last_event (objs w p)) as [event|];
    [|apply ret_inv in H as [_ ->]; apply keeps_refl].
  mbind H as u w1 Hm.
  assert (K1 : keeps w w1).
  { destruct (key_direction event) as [[dx dy]|] eqn:Hk.
    - mbind Hm as r1 w2 Hmv. apply ret_inv in Hm as [_ ->].
      eapply keeps_KeyboardPlayer_move; [|exact Hmv].
      eapply key_direction_nonzero. exact Hk.
    - apply ret_inv in Hm as [_ ->]. apply keeps_refl. }
  mbind H as u2 w2 Hmod. apply modify_inv in Hmod as ->.
  apply ret_inv in H as [_ ->].
  eapply keeps_trans; [exact K1|apply keeps_with_last_event].
Qed.

Lemma keeps_step depth self : preserves keeps (step depth self).
Proof.
  intros w r w' H. unfold step in H.
  destruct (class_ (objs w self)) eqn:Hc;
    try (apply ret_inv in H as [_ ->]; apply keeps_refl).
  - eapply keeps_KeyboardPlayer_step; exact H.
  - eapply keeps_Monster_step; exact H.
Qed.

Lemma keeps_Stage_step_loop depth budget i :
  preserves keeps (Stage_step_loop depth budget i).
Proof.
  revert i. induction budget as [|b IH]; intros i w l w' H; simpl in H.
  - discriminate.
  - mbind H as acts w0 Ha. apply gets_inv in Ha as [-> ->].
    destruct (nth_error _ i) as [a|].
    + mbind H as r w1 Hs. apply keeps_step in Hs.
      mbind H as rest w2 Hl. apply IH in Hl.
      apply ret_inv in H as [_ ->]. eauto using keeps_trans.
    + apply ret_inv in H as [_ ->]. apply keeps_refl.
Qed.

Lemma keeps_Stage_step_trace depth : preserves keeps (Stage_step_trace depth).
Proof.
  intros w tr w' H. unfold Stage_step_trace in H.
  mbind H as l w0 Hl. apply gets_inv in Hl as [-> ->].
  eapply keeps_Stage_step_loop; exact H.
Qed.

Lemma keeps_Stage_step depth : preserves keeps (Stage_step depth).
Proof.
  intros w u w' H. unfold Stage_step in H.
  mbind H as tr w1 Ht. apply ret_inv in H as [_ ->].
  eapply keeps_Stage_step_trace; exact Ht.
Qed.

Lemma keeps_player_event e : preserves keeps (player_event e).
Proof.
  intros w u w' H. unfold player_event in H.
  mbind H as p w0 Hp. apply gets_inv in Hp as [-> ->].
  destruct (_player (stage w)) as [r|]; [|discriminate].
  unfold handle_event in H. destruct (class_ (objs w r)); try discriminate.
  - apply ret_inv in H as [_ ->]. apply keeps_refl.
  - apply modify_inv in H as ->. apply keeps_with_last_event.
Qed.

Lemma keeps_deliver events : preserves keeps (deliver events).
Proof.
  induction events as [|e es IH]; intros w u w' H; simpl in H.
  - apply ret_inv in H as [_ ->]. apply keeps_refl.
  - mbind H as u' w1 He. apply keeps_player_event in He.
    apply IH in H. eauto using keeps_trans.
Qed.

Lemma keeps_play depth rounds : preserves keeps (play depth rounds).
Proof.
  induction rounds as [|events rest IH]; intros w u w' H; simpl in H.
  - apply ret_inv in H as [_ ->]. apply keeps_refl.
  - mbind H as u' w1 Ht. unfold tick in Ht.
    mbind Ht as u'' w2 Hd. apply keeps_deliver in Hd.
    apply keeps_Stage_step in Ht. apply IH in H.
    eauto using keeps_trans.
Qed.

Lemma cellsb_cells w : cellsb w = true -> cells w.
Proof.
  unfold cellsb, cells. intros H a b Ha Hb Hab E.
  rewrite forallb_forall in H. specialize (H a Ha).
  rewrite forallb_forall in H. specialize (H b Hb).
  unfold position in E. injection E as Ex Ey.
  unfold at_position in H. rewrite Ex, Ey, !Z.eqb_refl in H.
  destruct (Nat.eqb_spec a b) as [->|_]; [now elim Hab|].
  cbn [orb negb andb] in H.
  apply orb_true_iff in H as [H|H]; [left|right];
    destruct (class_ (objs w _)); (reflexivity || discriminate).
Qed.

(** ** The actors that Stage.step reaches *)

Lemma sublist_nil_l l : sublist [] l.
Proof.
  induction l as [|a l IH]; [apply sublist_nil|now apply sublist_skip].
Qed.

Lemma sublist_skipn_S k l : sublist (skipn (S k) l) (skipn k l).
Proof.
  revert k. induction l as [|a l IH]; intros k.
  - rewrite !skipn_nil. apply sublist_nil.
  - destruct k as [|k].
    + cbn [skipn]. apply sublist_skip, sublist_refl.
    + cbn [skipn] in *. apply IH.
Qed.

Lemma sublist_skipn k l' l : sublist l' l -> sublist (skipn k l') (skipn k l).
Proof.
  intros H. revert k.
  induction H as [|a l' l H IH|a l' l H IH]; intros k.
  - rewrite skipn_nil. apply sublist_nil.
  - destruct k as [|k]; [now apply sublist_skip|].
    cbn [skipn]. eapply sublist_trans; [apply sublist_skipn_S|apply IH].
  - destruct k as [|k]; [now apply sublist_keep|]. cbn [skipn]. apply IH.
Qed.

Lemma skipn_nth_error (l : list ref) i a :
  nth_error l i = Some a -> skipn i l = a :: skipn (S i) l.
Proof.
  revert i. induction l as [|b l IH]; intros [|i] H; try discriminate.
  - injection H as ->. reflexivity.
  - cbn [skipn nth_error] in *. rewrite (IH i H). reflexivity.
Qed.

Lemma skipn_nth_error_None (l : list ref) i :
  nth_error l i = None -> skipn i l = [].
Proof.
  intros H. apply nth_error_None in H. now apply skipn_all2.
Qed.

Lemma Stage_step_loop_trace depth budget i w tr w' :
  Stage_step_loop depth budget i w = inr (tr, w') ->
  sublist tr (skipn i (_actors (stage w))).
Proof.
  revert i w tr. induction budget as [|b IH]; intros i w tr H; [discriminate|].
  rewrite Stage_step_loop_S in H.
  destruct (nth_error (_actors (stage w)) i) as [a|] eqn:Hi.
  - destruct (step depth a w) as [e|[r w1]] eqn:Hs; [discriminate|].
    destruct (Stage_step_loop depth b (S i) w1) as [e|[rest w2]] eqn:Hl;
      [discriminate|].
    injection H as <- <-. rewrite (skipn_nth_error _ _ _ Hi).
    apply sublist_keep. eapply sublist_trans; [exact (IH _ _ _ Hl)|].
    apply sublist_skipn. apply (keeps_step _ _ _ _ _ Hs).
  - injection H as <- _. apply sublist_nil_l.
Qed.

Lemma Stage_step_loop_all depth budget i w tr w' :
  Stage_step_loop depth budget i w = inr (tr, w') ->
  length (_actors (stage w')) = length (_actors (stage w)) ->
  tr = skipn i (_actors (stage w)).
Proof.
  revert i w tr. induction budget as [|b IH]; intros i w tr H Hlen;
    [discriminate|].
  rewrite Stage_step_loop_S in H.
  destruct (nth_error (_actors (stage w)) i) as [a|] eqn:Hi.
  - destruct (step depth a w) as [e|[r w1]] eqn:Hs; [discriminate|].
    destruct (Stage_step_loop depth b (S i) w1) as [e|[rest w2]] eqn:Hl;
      [discriminate|].
    injection H as <- <-.
    pose proof (proj1 (keeps_step _ _ _ _ _ Hs)) as S1.
    pose proof (proj1 (keeps_Stage_step_loop _ _ _ _ _ _ Hl)) as S2.
    pose proof (sublist_length _ _ S1) as L1.
    pose proof (sublist_length _ _ S2) as L2.
    assert (E1 : _actors (stage w1) = _actors (stage w)).
    { apply sublist_same_length; [exact S1|lia]. }
    rewrite (skipn_nth_error _ _ _ Hi), <- E1. f_equal.
    apply (IH _ _ _ Hl). lia.
  - injection H as <- _. symmetry. now apply skipn_nth_error_None.
Qed.

(** ** What the game loop keeps *)

(** X15.  On a stage where no two actors share a cell unless one of them
    is a sticky box, no number of rounds of the game loop, with whatever
    key events, brings two actors of the stage into one cell unless one
    of them is a sticky box. *)
Theorem play_keeps_cells
    (depth : nat) (rounds : list (list Z)) (w w' : World) (u : unit) :
  play depth rounds w = inr (u, w') ->
  cells w ->
  cells w'.
Proof.
  intros H. apply (keeps_play _ _ _ _ _ H).
Qed.

Lemma play_keeps_cells_witness :
  exists w',
    play 4 [[pygame.K_d]; []] w_player_first = inr (tt, w') /\ cells w'.
Proof.
  destruct (play 4 [[pygame.K_d]; []] w_player_first) as [e|[[] w']] eqn:E.
  - vm_compute in E. discriminate.
  - exists w'. split; [reflexivity|].
    apply (play_keeps_cells _ _ _ _ _ E).
    apply cellsb_cells. vm_compute. reflexivity.
Defined.

(** X16.  What the rounds of the game loop never change: the size of the
    stage and its player; the class and the delay factor of every object;
    the size of each component of every heading, which can only change
    sign.  The list of actors only loses elements, the others keep their
    order, and an [inside_sticky] flag that is set stays set. *)
Theorem play_frame
    (depth : nat) (rounds : list (list Z)) (w w' : World) (u : unit) :
  play depth rounds w = inr (u, w') ->
  _width (stage w') = _width (stage w)
  /\ _height (stage w') = _height (stage w)
  /\ _player (stage w') = _player (stage w)
  /\ sublist (_actors (stage w')) (_actors (stage w))
  /\ forall r,
       class_ (objs w' r) = class_ (objs w r)
       /\ _delay (objs w' r) = _delay (objs w r)
       /\ Z.abs (_dx (objs w' r)) = Z.abs (_dx (objs w r))
       /\ Z.abs (_dy (objs w' r)) = Z.abs (_dy (objs w r))
       /\ (inside_sticky (objs w r) = true -> inside_sticky (objs w' r) = true).
Proof.
  intros H.
  destruct (evolves_play _ _ _ _ _ H) as (Hw & Hh & Hp & _ & _ & Ho).
  destruct (keeps_play _ _ _ _ _ H) as (Hs & Hd & _).
  repeat (split; [assumption|]).
  intros r. destruct (Ho r) as (Hc & Hdl & Hi & _).
  destruct (Hd r) as (Hx & Hy). auto.
Qed.

Lemma play_frame_witness :
  let w := w_player_first in
  exists w',
    play 4 [[pygame.K_d]; []] w = inr (tt, w')
    /\ _width (stage w') = _width (stage w)
    /\ _height (stage w') = _height (stage w)
    /\ _player (stage w') = _player (stage w)
    /\ sublist (_actors (stage w')) (_actors (stage w))
    /\ forall r,
         class_ (objs w' r) = class_ (objs w r)
         /\ _delay (objs w' r) = _delay (objs w r)
         /\ Z.abs (_dx (objs w' r)) = Z.abs (_dx (objs w r))
         /\ Z.abs (_dy (objs w' r)) = Z.abs (_dy (objs w r))
         /\ (inside_sticky (objs w r) = true
             -> inside_sticky (objs w' r) = true).
Proof.
  intros w.
  destruct (play 4 [[pygame.K_d]; []] w) as [e|[[] w']] eqn:E.
  - vm_compute in E. discriminate.
  - exists w'. split; [reflexivity|].
    exact (play_frame _ _ _ _ _ E).
Defined.

(** X17.  One pass of [Stage.step] calls [step] only on actors that were
    on the stage when the pass began, in the order of the list, and on
    none more often than it is in the list.  When the pass ends with as
    many actors on the stage as it began with, it has called [step] on
    every actor of the list, one after the other. *)
Theorem Stage_step_visits_in_order
    (depth : nat) (w w' : World) (tr : list ref) :
  Stage_step_trace depth w = inr (tr, w') ->
  sublist tr (_actors (stage w))
  /\ (NoDup (_actors (stage w)) -> NoDup tr)
  /\ (length (_actors (stage w')) = length (_actors (stage w)) ->
      tr = _actors (stage w)).
Proof.
  intros H. unfold Stage_step_trace in H.
  mbind H as l w0 Hl. apply gets_inv in Hl as [-> ->].
  pose proof (Stage_step_loop_trace _ _ _ _ _ _ H) as Hs.
  cbn [skipn] in Hs. split; [exact Hs|]. split.
  - now apply sublist_NoDup.
  - intros Hlen. exact (Stage_step_loop_all _ _ _ _ _ _ H Hlen).
Qed.

Lemma Stage_step_visits_in_order_witness :
  let w := w_push in
  exists tr w',
    Stage_step_trace 4 w = inr (tr, w')
    /\ sublist tr (_actors (stage w))
    /\ (NoDup (_actors (stage w)) -> NoDup tr)
    /\ (length (_actors (stage w')) = length (_actors (stage w)) ->
        tr = _actors (stage w)).
Proof.
  intros w.
  destruct (Stage_step_trace 4 w) as [e|[tr w']] eqn:E.
  - vm_compute in E. discriminate.
  - exists tr, w'. split; [reflexivity|].
    exact (Stage_step_visits_in_order _ _ _ _ E).
Defined.

(** ** The call depth is only a bound *)

(** A result reached within some call depth is the result at every
    greater depth. *)
Lemma Box_move_mono (call call' : move_method) :
  (forall t s dx dy w x, call t s dx dy w = inr x -> call' t s dx dy w = inr x) ->
  forall b other dx dy w x,
    Box_move call b other dx dy w = inr x ->
    Box_move call' b other dx dy w = inr x.
Proof.
  intros Hcc b other dx dy w x H. rewrite Box_move_cases in *.
  destruct (free w _ _); [exact H|].
  destruct (get_actor w _ _) as [t|]; [|exact H].
  destruct (subclass _ Box); [|exact H].
  destruct (call t b dx dy w) as [e|[r w1]] eqn:E; [discriminate|].
  rewrite (Hcc _ _ _ _ _ _ E). exact H.
Qed.

Lemma sticky_move_mono (call call' : move_method) :
  (forall t s dx dy w x, call t s dx dy w = inr x -> call' t s dx dy w = inr x) ->
  forall b other dx dy w x,
    sticky_move call b other dx dy w = inr x ->
    sticky_move call' b other dx dy w = inr x.
Proof.
  intros Hcc b other dx dy w x H. rewrite sticky_move_cases in *.
  destruct (isinstance w _ Monster); [exact H|].
  destruct (Box_move call b other dx dy w) as [e|[r w1]] eqn:E; [discriminate|].
  rewrite (Box_move_mono call call' Hcc _ _ _ _ _ _ E). exact H.
Qed.

Lemma KeyboardPlayer_move_mono (call call' : move_method) :
  (forall t s dx dy w x, call t s dx dy w = inr x -> call' t s dx dy w = inr x) ->
  forall p other dx dy w x,
    KeyboardPlayer_move call p other dx dy w = inr x ->
    KeyboardPlayer_move call' p other dx dy w = inr x.
Proof.
  intros Hcc p other dx dy w x H. rewrite KeyboardPlayer_move_cases in *.
  destruct (free w _ _); [exact H|].
  destruct (get_actor w _ _) as [t|]; [|exact H].
  destruct (subclass _ Monster); [exact H|].
  destruct (subclass _ Box); [|exact H].
  destruct (call t p dx dy w) as [e|[r w1]] eqn:E; [discriminate|].
  rewrite (Hcc _ _ _ _ _ _ E). exact H.
Qed.

Lemma KeyboardPlayer_step_mono (call call' : move_method) :
  (forall t s dx dy w x, call t s dx dy w = inr x -> call' t s dx dy w = inr x) ->
  forall p w x,
    KeyboardPlayer_step call p w = inr x ->
    KeyboardPlayer_step call' p w = inr x.
Proof.
  intros Hcc p w x H. unfold KeyboardPlayer_step in *.
  unfold bind at 1 in H. unfold bind at 1. unfold gets at 1 in H.
  unfold gets at 1.
  destruct (_last_event (objs w p)) as [event|]; [|exact H].
  destruct (key_direction event) as [[dx dy]|]; [|exact H].
  unfold bind in *.
  destruct (KeyboardPlayer_move call p p dx dy w) as [e|[r w1]] eqn:E;
    [discriminate|].
  rewrite (KeyboardPlayer_move_mono call call' Hcc _ _ _ _ _ _ E). exact H.
Qed.

Lemma move_S d self other dx dy w :
  move (S d) self other dx dy w =
  match class_ (objs w self) with
  | KeyboardPlayer => KeyboardPlayer_move (move d) self other dx dy w
  | Box => Box_move (move d) self other dx dy w
  | sticky => sticky_move (move d) self other dx dy w
  | Monster => Monster_move self other dx dy w
  | Actor | Player | Wall => Actor_move self other dx dy w
  end.
Proof. reflexivity. Qed.

Lemma move_mono_S d :
  forall self other dx dy w x,
    move d self other dx dy w = inr x -> move (S d) self other dx dy w = inr x.
Proof.
  induction d as [|d IH]; intros self other dx dy w x H; [discriminate|].
  rewrite move_S in H. rewrite (move_S (S d)).
  destruct (class_ (objs w self)); try exact H.
  - exact (KeyboardPlayer_move_mono _ _ IH _ _ _ _ _ _ H).
  - exact (Box_move_mono _ _ IH _ _ _ _ _ _ H).
  - exact (sticky_move_mono _ _ IH _ _ _ _ _ _ H).
Qed.

Lemma move_mono d d' :
  (d <= d')%nat ->
  forall self other dx dy w x,
    move d self other dx dy w = inr x -> move d' self other dx dy w = inr x.
Proof.
  induction 1 as [|d' Hle IH]; intros self other dx dy w x H; [exact H|].
  apply move_mono_S. now apply IH.
Qed.

Lemma step_mono d d' self w x :
  (d <= d')%nat -> step d self w = inr x -> step d' self w = inr x.
Proof.
  intros Hle H. unfold step in *.
  destruct (class_ (objs w self)); try exact H.
  exact (KeyboardPlayer_step_mono _ _ (move_mono d d' Hle) _ _ _ H).
Qed.

Lemma Stage_step_loop_mono d d' budget :
  (d <= d')%nat ->
  forall i w x,
    Stage_step_loop d budget i w = inr x ->
    Stage_step_loop d' budget i w = inr x.
Proof.
  intros Hle. induction budget as [|b IH]; intros i w x H; [discriminate|].
  rewrite Stage_step_loop_S in *.
  destruct (nth_error (_actors (stage w)) i) as [a|]; [|exact H].
  destruct (step d a w) as [e|[r w1]] eqn:Es; [discriminate|].
  rewrite (step_mono d d' a w _ Hle Es).
  destruct (Stage_step_loop d b (S i) w1) as [e|[rest w2]] eqn:El;
    [discriminate|].
  rewrite (IH _ _ _ El). exact H.
Qed.

Lemma Stage_step_mono d d' w x :
  (d <= d')%nat -> Stage_step d w = inr x -> Stage_step d' w = inr x.
Proof.
  intros Hle H. unfold Stage_step, Stage_step_trace in *.
  unfold bind in *. unfold gets in *.
  destruct (Stage_step_loop d _ 0 w) as [e|[tr w1]] eqn:El; [discriminate|].
  rewrite (Stage_step_loop_mono d d' _ Hle _ _ _ El). exact H.
Qed.

Lemma play_mono d d' rounds :
  (d <= d')%nat ->
  forall w x, play d rounds w = inr x -> play d' rounds w = inr x.
Proof.
  intros Hle. induction rounds as [|events rest IH]; intros w x H; [exact H|].
  cbn [play] in *. unfold bind, tick, bind in *.
  destruct (deliver events w) as [e|[u w1]]; [discriminate|].
  destruct (Stage_step d w1) as [e|[u' w2]] eqn:Es; [discriminate|].
  rewrite (Stage_step_mono d d' _ _ Hle Es). now apply IH.
Qed.

(** X18.  When no Monster has a delay factor of 0 and the player of the
    stage is a Player, any number of rounds of the game loop, with
    whatever key events, raises no exception other than for want of call
    depth, and the depth it needs is bounded: at every call depth from
    some bound on, the rounds end normally, in one and the same world, in
    which the two conditions hold again. *)
Theorem play_runs (rounds : list (list Z)) (w : World) :
  (forall r, class_ (objs w r) = Monster -> _delay (objs w r) <> 0) ->
  (exists p, _player (stage w) = Some p
             /\ subclass (class_ (objs w p)) Player = true) ->
  exists d0 w',
    (forall depth, (d0 <= depth)%nat -> play depth rounds w = inr (tt, w'))
    /\ (forall r, class_ (objs w' r) = Monster -> _delay (objs w' r) <> 0)
    /\ (exists p, _player (stage w') = Some p
                  /\ subclass (class_ (objs w' p)) Player = true).
Proof.
  intros Hd Hp.
  assert (Hr : runnable (S (length (_actors (stage w)))) w).
  { split; [exact Hd|]. split; [exact Hp|]. lia. }
  destruct (play_total _ rounds w Hr) as (w' & H).
  exists (S (length (_actors (stage w)))), w'. split.
  - intros depth Hle. exact (play_mono _ _ rounds Hle w _ H).
  - assert (Hr' : runnable (S (length (_actors (stage w)))) w').
    { eapply runnable_evolves; [|exact Hr]. eapply evolves_play. exact H. }
    destruct Hr' as (Hd' & Hp' & _). auto.
Qed.

Lemma play_runs_witness :
  exists d0 w',
    (forall depth, (d0 <= depth)%nat ->
       play depth [[pygame.K_d]; []] w_player_first = inr (tt, w'))
    /\ (forall r, class_ (objs w' r) = Monster -> _delay (objs w' r) <> 0)
    /\ (exists p, _player (stage w') = Some p
                  /\ subclass (class_ (objs w' p)) Player = true).
Proof.
  apply (play_runs [[pygame.K_d]; []] w_player_first).
  - intros r. unfold w_player_first, world_of. cbn [objs].
    do 3 (destruct r as [|r]; [cbn; intros _; discriminate|]).
    destruct r; cbn; discriminate.
  - exists 0%nat. split; reflexivity.
Defined.

(** X19.  A Box or sticky box asked to move in a direction other than
    [(0, 0)]: the calls of [move] that this sets off end.  At every call
    depth from some bound on, the call returns, with one and the same
    result and world.  It has moved nobody who stands behind the box, and
    it has not brought two actors into one cell unless one is a sticky
    box. *)
Theorem push_ends (w : World) (t other : ref) (dx dy : Z) :
  (dx, dy) <> (0, 0) ->
  subclass (class_ (objs w t)) Box = true ->
  exists d0 r w',
    (forall depth, (d0 <= depth)%nat ->
       move depth t other dx dy w = inr (r, w'))
    /\ (forall a, behind (objs w a) (objs w t) dx dy ->
                  position w' a = position w a)
    /\ (cells w -> cells w').
Proof.
  intros Hd Hb.
  destruct (move_Box_total (S (ahead_count w t dx dy)) w t other dx dy Hd Hb)
    as (r & w' & H); [lia|].
  exists (S (ahead_count w t dx dy)), r, w'. split; [|split].
  - intros depth Hle. exact (move_mono _ _ Hle _ _ _ _ _ _ H).
  - exact (move_Box_frame _ dx dy Hd w t other r w' Hb H).
  - apply (keeps_move_Box _ dx dy Hd w t other r w' Hb H).
Qed.

Lemma push_ends_witness :
  exists d0 r w',
    (forall depth, (d0 <= depth)%nat ->
       move depth 1 0 1 0 w_push = inr (r, w'))
    /\ (forall a, behind (objs w_push a) (objs w_push 1) 1 0 ->
                  position w' a = position w_push a)
    /\ (cells w_push -> cells w').
Proof.
  apply (push_ends w_push 1 0 1 0).
  - discriminate.
  - reflexivity.
Defined.
